(** * Variance-aware UCB bandit experiment (experiment3.py)

    A shallow embedding of the three UCB policies, the instance generation
    and the aggregation of experiment3.py, with the properties of its
    specification.

    Numbers: numpy's float64 values are idealised as real numbers ([R]);
    rounding, overflow and NaN are outside the model, so [sqrt] is the
    square root of the reals where numpy would return NaN on a negative
    argument.  [np.inf] is a separate constructor of the index type.  Pull
    counts, which the script keeps in a float array, are natural numbers.

    Errors: indexing, np.argmax, the dictionary lookup and the argument
    parser raise as in Python; a computation is a [result].

    Environment: the random generator and the file-system calls of the
    script are the fields of a [world]; the properties hold for every
    world.

    The horizon and the number of experiments are constants of the script;
    the functions below take them as arguments, and [main] is the script at
    its own constants [T] and [N_EXPERIMENTS]. *)

From Stdlib Require Import String.
From Stdlib Require Import Reals Lra Lia ZArith Bool Arith List.
Import ListNotations.

Local Open Scope R_scope.

(** ** Exceptions *)

Inductive exn : Type :=
| ValueError      (* np.argmax of an empty sequence *)
| IndexError      (* sequence or array index out of range *)
| KeyError        (* dictionary key not present *)
| OSError         (* a file-system call fails *)
| ArgumentError.  (* argparse rejects the command line, exit status 2 *)

Inductive result (A : Type) : Type :=
| Ok (a : A)
| Raise (e : exn).

Arguments Ok {A} a.
Arguments Raise {A} e.

Definition bind {A B : Type} (m : result A) (k : A -> result B) : result B :=
  match m with
  | Ok a => k a
  | Raise e => Raise e
  end.

Notation "x <- e ;; k" := (bind e (fun x => k))
  (at level 61, e at next level, right associativity).
Notation "' p <- e ;; k" := (bind e (fun x => match x with p => k end))
  (at level 61, p pattern, e at next level, right associativity).

Fixpoint mapM {A B : Type} (f : A -> result B) (l : list A) : result (list B) :=
  match l with
  | [] => Ok []
  | a :: l' => b <- f a ;; bs <- mapM f l' ;; Ok (b :: bs)
  end.

(** ** Sequences indexed by position *)

(** [l[i]] for a non-negative [i]: IndexError when out of range. *)
Definition get {A : Type} (l : list A) (i : nat) : result A :=
  match nth_error l i with
  | Some x => Ok x
  | None => Raise IndexError
  end.

Fixpoint replace {A : Type} (l : list A) (i : nat) (x : A) : list A :=
  match l, i with
  | [], _ => []
  | _ :: l', O => x :: l'
  | y :: l', S i' => y :: replace l' i' x
  end.

(** [l[i] = x]: IndexError when out of range. *)
Definition set {A : Type} (l : list A) (i : nat) (x : A) : result (list A) :=
  if (i <? length l)%nat then Ok (replace l i x) else Raise IndexError.

(** ** Index values and np.argmax *)

Inductive ucb : Type :=
| Fin (r : R)
| Inf.

(** [x > y] on index values. *)
Definition ucb_gtb (x y : ucb) : bool :=
  match x, y with
  | Fin a, Fin b => if Rlt_dec b a then true else false
  | Inf, Fin _ => true
  | _, Inf => false
  end.

(** The scan of np.argmax: the running maximum is replaced only by a
    strictly greater value, so the first maximum wins. *)
Fixpoint argmax_from (best : nat) (bv : ucb) (i : nat) (l : list ucb) : nat :=
  match l with
  | [] => best
  | x :: l' =>
      if ucb_gtb x bv then argmax_from i x (S i) l'
      else argmax_from best bv (S i) l'
  end.

Definition argmax (l : list ucb) : result nat :=
  match l with
  | [] => Raise ValueError
  | x :: l' => Ok (argmax_from 0 x 1 l')
  end.

(** ** Random source

    [np.random.normal(loc, scale)] and [np.random.uniform(low, high)] read a
    global generator.  A sampler maps the position of the call and its two
    arguments to the value drawn; the properties below quantify over all
    samplers. *)

Definition sampler : Type := nat -> R -> R -> R.

(** ** The loop over rounds

    [for t in range(1, T + 1): body].  Next to the state each round reports
    the arm it pulled and the reward it drew, which the loop collects. *)

Abbreviation pull := (nat * R)%type (only parsing).

Definition no_pull : pull := (0%nat, 0).

Fixpoint for_rounds {S : Type} (body : nat -> S -> result (pull * S))
    (ts : list nat) (s : S) : result (list pull * S) :=
  match ts with
  | [] => Ok ([], s)
  | t :: ts' =>
      '(p, s1) <- body t s ;;
      '(ps, s2) <- for_rounds body ts' s1 ;;
      Ok (p :: ps, s2)
  end.

(** ** Policies *)

Record state : Type := mkState {
  counts : list nat;
  emp_means : list R;
  regret : list R
}.

Definition init_state (T K : nat) : state :=
  {| counts := repeat 0%nat K;
     emp_means := repeat 0 K;
     regret := repeat 0 (T + 1) |}.

(** The unknown-variance policy keeps two more arrays. *)
Record ustate : Type := mkUState {
  base : state;
  emp_vars : list R;
  M2 : list R
}.

Definition init_ustate (T K : nat) : ustate :=
  {| base := init_state T K;
     emp_vars := repeat 1 K;
     M2 := repeat 0 K |}.

(** The floor of the correction factor. *)
Definition epsilon : R := 1e-6.

Section Policies.

Variable T : nat.
Variable K : nat.
Variables means variances : list R.
Variable best_arm : nat.
Variable normal : sampler.

(** *** standard_ucb *)

Definition standard_index (s : state) (a : nat) : result ucb :=
  c <- get (counts s) a ;;
  if (c =? 0)%nat then Ok Inf
  else
    m <- get (emp_means s) a ;;
    Ok (Fin (m + sqrt ((4 * ln (INR T)) / INR c))).

Definition standard_round (t : nat) (s : state) : result (pull * state) :=
  ucb_values <- mapM (standard_index s) (seq 0 K) ;;
  arm <- argmax ucb_values ;;
  mu <- get means arm ;;
  v <- get variances arm ;;
  let reward := normal t mu (sqrt v) in
  c <- get (counts s) arm ;;
  counts1 <- set (counts s) arm (c + 1)%nat ;;
  m <- get (emp_means s) arm ;;
  c1 <- get counts1 arm ;;
  emp_means1 <- set (emp_means s) arm (m + (reward - m) / INR c1) ;;
  r <- get (regret s) (t - 1) ;;
  mb <- get means best_arm ;;
  ma <- get means arm ;;
  regret1 <- set (regret s) t (r + (mb - ma)) ;;
  Ok ((arm, reward),
      {| counts := counts1; emp_means := emp_means1; regret := regret1 |}).

Definition standard_ucb_run : result (list pull * state) :=
  for_rounds standard_round (seq 1 T) (init_state T K).

Definition standard_ucb : result (list R) :=
  '(_, s) <- standard_ucb_run ;; Ok (regret s).

(** *** known_variance_ucb *)

Definition known_index (s : state) (a : nat) : result ucb :=
  c <- get (counts s) a ;;
  if (c =? 0)%nat then Ok Inf
  else
    m <- get (emp_means s) a ;;
    v <- get variances a ;;
    Ok (Fin (m + sqrt ((4 * v * ln (INR T)) / INR c))).

Definition known_round (t : nat) (s : state) : result (pull * state) :=
  ucb_values <- mapM (known_index s) (seq 0 K) ;;
  arm <- argmax ucb_values ;;
  mu <- get means arm ;;
  v <- get variances arm ;;
  let reward := normal t mu (sqrt v) in
  c <- get (counts s) arm ;;
  counts1 <- set (counts s) arm (c + 1)%nat ;;
  m <- get (emp_means s) arm ;;
  c1 <- get counts1 arm ;;
  emp_means1 <- set (emp_means s) arm (m + (reward - m) / INR c1) ;;
  r <- get (regret s) (t - 1) ;;
  mb <- get means best_arm ;;
  ma <- get means arm ;;
  regret1 <- set (regret s) t (r + (mb - ma)) ;;
  Ok ((arm, reward),
      {| counts := counts1; emp_means := emp_means1; regret := regret1 |}).

Definition known_variance_ucb_run : result (list pull * state) :=
  for_rounds known_round (seq 1 T) (init_state T K).

Definition known_variance_ucb : result (list R) :=
  '(_, s) <- known_variance_ucb_run ;; Ok (regret s).

(** *** unknown_variance_ucb *)

Definition correction (n : nat) : R :=
  Rmax (1 - 2 * sqrt ((2 * ln (INR T)) / INR n)) epsilon.

Definition unknown_index (s : ustate) (a : nat) : result ucb :=
  c <- get (counts (base s)) a ;;
  if (c =? 0)%nat then Ok Inf
  else
    n <- get (counts (base s)) a ;;
    m <- get (emp_means (base s)) a ;;
    ev <- get (emp_vars s) a ;;
    Ok (Fin (m + sqrt ev * sqrt ((4 * ln (INR T)) / (INR n * correction n)))).

Definition unknown_round (t : nat) (s : ustate) : result (pull * ustate) :=
  ucb_values <- mapM (unknown_index s) (seq 0 K) ;;
  arm <- argmax ucb_values ;;
  mu <- get means arm ;;
  v <- get variances arm ;;
  let reward := normal t mu (sqrt v) in
  c <- get (counts (base s)) arm ;;
  counts1 <- set (counts (base s)) arm (c + 1)%nat ;;
  n <- get counts1 arm ;;
  m <- get (emp_means (base s)) arm ;;
  let delta := reward - m in
  emp_means1 <- set (emp_means (base s)) arm (m + delta / INR n) ;;
  acc <- get (M2 s) arm ;;
  m1 <- get emp_means1 arm ;;
  M2_1 <- set (M2 s) arm (acc + delta * (reward - m1)) ;;
  emp_vars1 <-
    (if (1 <? n)%nat then
       acc1 <- get M2_1 arm ;;
       set (emp_vars s) arm (acc1 / (INR n - 1))
     else Ok (emp_vars s)) ;;
  r <- get (regret (base s)) (t - 1) ;;
  mb <- get means best_arm ;;
  ma <- get means arm ;;
  regret1 <- set (regret (base s)) t (r + (mb - ma)) ;;
  Ok ((arm, reward),
      {| base := {| counts := counts1; emp_means := emp_means1;
                    regret := regret1 |};
         emp_vars := emp_vars1; M2 := M2_1 |}).

Definition unknown_variance_ucb_run : result (list pull * ustate) :=
  for_rounds unknown_round (seq 1 T) (init_ustate T K).

Definition unknown_variance_ucb : result (list R) :=
  '(_, s) <- unknown_variance_ucb_run ;; Ok (regret (base s)).

End Policies.

(** ** The script *)

(** The constants of the script. *)
Definition T : nat := Z.to_nat 1000000.
Definition N_EXPERIMENTS : nat := 50.
Definition OUTPUT_DIR : string := EmptyString.

Definition variance_levels : list (string * (R * R)) :=
  [ ("low"%string, (1, 5)); ("medium"%string, (5, 20)); ("high"%string, (20, 50)) ].

(** [d[key]] on a dictionary. *)
Fixpoint dict_get {V : Type} (d : list (string * V)) (key : string) : result V :=
  match d with
  | [] => Raise KeyError
  | (k, v) :: d' => if String.eqb k key then Ok v else dict_get d' key
  end.

(** The [choices] of [--var]. *)
Definition var_choices : list string :=
  ["low"%string; "medium"%string; "high"%string].

(** [parser.parse_args()] once [--K] has been read as an integer: the
    [choices] of [--var] are checked. *)
Definition parse_args (K : Z) (var : string) : result (Z * string) :=
  if existsb (String.eqb var) var_choices
  then Ok (K, var)
  else Raise ArgumentError.

(** The generator and the file system the script runs on. *)
Record world : Type := mkWorld {
  uniform : sampler;
  normal : sampler;
  makedirs : string -> result unit;
  to_csv : list nat -> list R -> list R -> result unit;
  savefig : list R -> list R -> list R -> result unit
}.

Record instance : Type := mkInstance {
  arms : nat;
  means : list R;
  variances : list R;
  best_arm : nat
}.

(** Lines 11-101: arguments, output directory, instance and its table. *)
Definition generate_instance (w : world) (K : Z) (var : string) : result instance :=
  '(K, var) <- parse_args K var ;;
  _ <- makedirs w OUTPUT_DIR ;;
  '(vmin, vmax) <- dict_get variance_levels var ;;
  let k := Z.to_nat K in
  let means := map (fun i => uniform w i 0 1) (seq 1 k) in
  let variances := map (fun i => uniform w (k + i)%nat vmin vmax) (seq 1 k) in
  best_arm <- argmax (map Fin means) ;;
  _ <- to_csv w (seq 0 k) means variances ;;
  Ok {| arms := k; means := means; variances := variances; best_arm := best_arm |}.

(** Element-wise operations on rows of equal length. *)
Fixpoint zip_with {A B C : Type} (f : A -> B -> C) (l : list A) (m : list B) : list C :=
  match l, m with
  | a :: l', b :: m' => f a b :: zip_with f l' m'
  | _, _ => []
  end.

(** [np.sum(rows, axis=0)] on a matrix with [width] columns. *)
Definition sum_axis0 (width : nat) (rows : list (list R)) : list R :=
  fold_left (zip_with Rplus) rows (repeat 0 width).

(** [np.mean(rows, axis=0)]: the column sums over the number of rows. *)
Definition mean_axis0 (width : nat) (rows : list (list R)) : list R :=
  map (fun x => x / INR (length rows)) (sum_axis0 width rows).

(** [np.std(rows, axis=0)]: the root of the mean squared deviation from
    the column mean (no degrees-of-freedom correction). *)
Definition std_axis0 (width : nat) (rows : list (list R)) : list R :=
  let avg := mean_axis0 width rows in
  let dev := map (fun row => zip_with Rminus row avg) rows in
  let sq := map (map (fun x => x * x)) dev in
  map sqrt (mean_axis0 width sq).

Record regrets : Type := mkRegrets {
  known_regrets : list (list R);
  unknown_regrets : list (list R);
  standard_regrets : list (list R)
}.

(** Lines 105-111: the experiments, each policy drawing its [T] rewards from
    the generator in turn. *)
Fixpoint run_experiments (w : world) (T : nat) (inst : instance) (pos : nat)
    (trials : list nat) : result regrets :=
  match trials with
  | [] => Ok {| known_regrets := []; unknown_regrets := []; standard_regrets := [] |}
  | _ :: trials' =>
      let run policy off :=
        policy T (arms inst) (means inst) (variances inst) (best_arm inst)
               (fun t => normal w (pos + off + t)%nat) in
      k <- run known_variance_ucb 0%nat ;;
      u <- run unknown_variance_ucb T ;;
      s <- run standard_ucb (2 * T)%nat ;;
      rest <- run_experiments w T inst (pos + 3 * T)%nat trials' ;;
      Ok {| known_regrets := k :: known_regrets rest;
            unknown_regrets := u :: unknown_regrets rest;
            standard_regrets := s :: standard_regrets rest |}
  end.

Record report : Type := mkReport {
  known_avg : list R;
  known_std : list R;
  unknown_avg : list R;
  unknown_std : list R;
  standard_avg : list R;
  standard_std : list R
}.

(** Lines 115-120. *)
Definition aggregate (T : nat) (r : regrets) : report :=
  {| known_avg := mean_axis0 (T + 1) (known_regrets r);
     known_std := std_axis0 (T + 1) (known_regrets r);
     unknown_avg := mean_axis0 (T + 1) (unknown_regrets r);
     unknown_std := std_axis0 (T + 1) (unknown_regrets r);
     standard_avg := mean_axis0 (T + 1) (standard_regrets r);
     standard_std := std_axis0 (T + 1) (standard_regrets r) |}.

Definition script (T N : nat) (w : world) (K : Z) (var : string) : result report :=
  inst <- generate_instance w K var ;;
  r <- run_experiments w T inst (2 * arms inst)%nat (seq 0 N) ;;
  let rep := aggregate T r in
  _ <- savefig w (known_avg rep) (unknown_avg rep) (standard_avg rep) ;;
  Ok rep.

Definition main : world -> Z -> string -> result report :=
  script T N_EXPERIMENTS.

(** ** Order on index values *)

Definition ucb_le (x y : ucb) : Prop :=
  match x, y with
  | _, Inf => True
  | Inf, Fin _ => False
  | Fin a, Fin b => a <= b
  end.

Definition ucb_lt (x y : ucb) : Prop :=
  match x, y with
  | Fin _, Inf => True
  | Fin a, Fin b => a < b
  | Inf, _ => False
  end.

(** [r] is the position of the first maximum of [l]. *)
Definition is_first_max (l : list ucb) (r : nat) : Prop :=
  (r < length l)%nat /\
  (forall j, (j < length l)%nat -> ucb_le (nth j l Inf) (nth r l Inf)) /\
  (forall j, (j < r)%nat -> ucb_lt (nth j l Inf) (nth r l Inf)).

(** ** Vocabulary of the specification *)

(** Instantaneous regret of a pull: the gap between the best arm's true mean
    and the pulled arm's true mean. *)
Definition gap (means : list R) (best_arm arm : nat) : R :=
  nth best_arm means 0 - nth arm means 0.

(** The two updates every round makes: one more pull of [arm], and the
    regret after round [t]. *)
Definition incr (cnt : list nat) (arm : nat) : list nat :=
  replace cnt arm (nth arm cnt 0%nat + 1)%nat.

Definition accrue (means : list R) (best_arm : nat) (reg : list R) (t arm : nat) : list R :=
  replace reg t (nth (t - 1) reg 0 + gap means best_arm arm).

(** The selected arm has a maximal index, which for an arm never pulled is
    infinite: whenever some arm has count zero, the least such arm is
    selected. *)
Definition selects (cnt : list nat) (arm : nat) : Prop :=
  forall a, (a < length cnt)%nat -> nth a cnt 0%nat = 0%nat ->
            nth arm cnt 0%nat = 0%nat /\ (arm <= a)%nat.

(** Counts after the first [j] rounds of the bootstrap. *)
Definition boot (K j : nat) : list nat := repeat 1%nat j ++ repeat 0%nat (K - j).

(** What a round of any of the three policies does to the counts and the
    regret array, [ok] being the shape of a policy state. *)
Definition round_spec {S : Type} (cnt : S -> list nat) (reg : S -> list R)
    (ok : S -> Prop) (T K : nat) (means : list R) (best_arm : nat)
    (body : nat -> S -> result (pull * S)) : Prop :=
  forall t s, ok s -> (1 <= t <= T)%nat ->
    exists arm reward s',
      body t s = Ok ((arm, reward), s') /\ ok s' /\ (arm < K)%nat /\
      selects (cnt s) arm /\
      cnt s' = incr (cnt s) arm /\
      reg s' = accrue means best_arm (reg s) t arm.

(** The shape of a policy state: arrays over [K] arms, regret over rounds
    [0 .. T]. *)
Definition ok_state (T K : nat) (s : state) : Prop :=
  length (counts s) = K /\ length (emp_means s) = K /\
  length (regret s) = (T + 1)%nat.

Definition ok_ustate (T K : nat) (s : ustate) : Prop :=
  ok_state T K (base s) /\ length (emp_vars s) = K /\ length (M2 s) = K.

(** The round of section 4.2 of the specification, the index of an arm left
    open: index of every arm, stable argmax, reward draw, one more pull,
    incremental mean, regret accumulation. *)
Definition ucb_round (index : state -> nat -> result ucb) (K : nat)
    (means variances : list R) (best_arm : nat) (normal : sampler)
    (t : nat) (s : state) : result (pull * state) :=
  ucb_values <- mapM (index s) (seq 0 K) ;;
  arm <- argmax ucb_values ;;
  mu <- get means arm ;;
  v <- get variances arm ;;
  let reward := normal t mu (sqrt v) in
  c <- get (counts s) arm ;;
  counts1 <- set (counts s) arm (c + 1)%nat ;;
  m <- get (emp_means s) arm ;;
  c1 <- get counts1 arm ;;
  emp_means1 <- set (emp_means s) arm (m + (reward - m) / INR c1) ;;
  r <- get (regret s) (t - 1) ;;
  mb <- get means best_arm ;;
  ma <- get means arm ;;
  regret1 <- set (regret s) t (r + (mb - ma)) ;;
  Ok ((arm, reward),
      {| counts := counts1; emp_means := emp_means1; regret := regret1 |}).

(** An index function is defined on every arm of a well-shaped state and is
    infinite exactly on the arms never pulled. *)
Definition index_spec {St : Type} (cnt : St -> list nat) (ok : St -> Prop)
    (K : nat) (index : St -> nat -> result ucb) : Prop :=
  forall s a, ok s -> (a < K)%nat ->
    exists v, index s a = Ok v /\ (v = Inf <-> nth a (cnt s) 0%nat = 0%nat).

(** The update of section 4.4 of the specification on a pull of [arm] with
    reward [r] at round [t]: [n] is the count after the increment, [delta]
    uses the mean before its update, the accumulator uses the mean after
    it, and the variance estimate is written only when [n > 1]. *)
Definition welford_update (means : list R) (best_arm : nat) (t arm : nat) (r : R)
    (s : ustate) : ustate :=
  let n := (nth arm (counts (base s)) 0 + 1)%nat in
  let m := nth arm (emp_means (base s)) 0 in
  let delta := r - m in
  let m1 := m + delta / INR n in
  let acc1 := nth arm (M2 s) 0 + delta * (r - m1) in
  {| base := {| counts := incr (counts (base s)) arm;
                emp_means := replace (emp_means (base s)) arm m1;
                regret := accrue means best_arm (regret (base s)) t arm |};
     emp_vars := if (1 <? n)%nat
                 then replace (emp_vars s) arm (acc1 / (INR n - 1))
                 else emp_vars s;
     M2 := replace (M2 s) arm acc1 |}.

(** The pull of round [t]: an arm of the instance and the reward the
    sampler draws for it at this round. *)
Definition drawn (K : nat) (means variances : list R) (normal : sampler)
    (t : nat) (p : pull) : Prop :=
  (fst p < K)%nat /\
  snd p = normal t (nth (fst p) means 0) (sqrt (nth (fst p) variances 0)).

(** The rewards an arm received, in the order of the pulls. *)
Definition rewards_of (a : nat) (ps : list pull) : list R :=
  map snd (filter (fun p => (fst p =? a)%nat) ps).

Definition Rsum (xs : list R) : R := fold_right Rplus 0 xs.

Definition sample_mean (xs : list R) : R := Rsum xs / INR (length xs).

(** Sum of the squared deviations from the mean. *)
Definition sq_dev (xs : list R) : R :=
  Rsum (map (fun x => (x - sample_mean xs) * (x - sample_mean xs)) xs).

(** Unbiased sample variance. *)
Definition sample_variance (xs : list R) : R :=
  sq_dev xs / (INR (length xs) - 1).

(** The statistics the unknown-variance policy holds for arm [a] are those
    of the rewards [xs] the arm has received. *)
Definition arm_stats (s : ustate) (a : nat) (xs : list R) : Prop :=
  nth a (counts (base s)) 0%nat = length xs /\
  nth a (emp_means (base s)) 0 = (if (length xs =? 0)%nat then 0 else sample_mean xs) /\
  nth a (M2 s) 0 = sq_dev xs /\
  nth a (emp_vars s) 0 = (if (length xs <=? 1)%nat then 1 else sample_variance xs).

(** A best arm: a position of a maximal true mean. *)
Definition is_best (K : nat) (means : list R) (best_arm : nat) : Prop :=
  (best_arm < K)%nat /\
  forall a, (a < K)%nat -> nth a means 0 <= nth best_arm means 0.

(** A regret trace: [T + 1] entries, zero at round 0, non-decreasing. *)
Definition regret_trace (T : nat) (tr : list R) : Prop :=
  length tr = (T + 1)%nat /\
  nth 0 tr 0 = 0 /\
  forall t, (1 <= t <= T)%nat -> nth (t - 1) tr 0 <= nth t tr 0.

(** Cumulative regret of a sequence of pulled arms: the running sum of the
    gaps, seeded at zero for round 0. *)
Fixpoint running (means : list R) (best_arm : nat) (acc : R) (pulled : list nat) : list R :=
  match pulled with
  | [] => [acc]
  | a :: pulled' => acc :: running means best_arm (acc + gap means best_arm a) pulled'
  end.

Definition cumulative_regret (means : list R) (best_arm : nat) (pulled : list nat) : list R :=
  running means best_arm 0 pulled.

(** A run of a policy completes: it pulls [T] arms, all below [K], its
    regret array is the cumulative regret of these arms, and with [K <= T]
    its first [K] pulls are arms [0 .. K-1] in this order. *)
Definition run_ok {St : Type} (reg : St -> list R) (T K : nat) (means : list R)
    (best_arm : nat) (run : result (list pull * St)) : Prop :=
  exists ps s,
    run = Ok (ps, s) /\ length ps = T /\
    Forall (fun a => (a < K)%nat) (map fst ps) /\
    reg s = cumulative_regret means best_arm (map fst ps) /\
    ((K <= T)%nat -> map fst (firstn K ps) = seq 0 K).

(** A policy returns a regret trace, all of whose entries are
    non-negative. *)
Definition returns_trace (T : nat) (r : result (list R)) : Prop :=
  exists tr, r = Ok tr /\ regret_trace T tr /\
             forall t, (t <= T)%nat -> 0 <= nth t tr 0.

(** A run pulls the arms in ascending order during its first [K] rounds. *)
Definition bootstraps {St : Type} (K : nat) (run : result (list pull * St)) : Prop :=
  exists ps s, run = Ok (ps, s) /\ map fst (firstn K ps) = seq 0 K.

(** Two runs whose chosen arms coincide have the same regret array, every
    round adding the gap of the arm it chose. *)
Definition regret_by_arms {St : Type} (reg : St -> list R) (T : nat)
    (means : list R) (best_arm : nat) (run1 run2 : result (list pull * St)) : Prop :=
  exists ps1 s1 ps2 s2,
    run1 = Ok (ps1, s1) /\ run2 = Ok (ps2, s2) /\
    (map fst ps1 = map fst ps2 -> reg s1 = reg s2) /\
    (forall t, (1 <= t <= T)%nat ->
       nth t (reg s1) 0 =
       nth (t - 1) (reg s1) 0 +
       (nth best_arm means 0 - nth (fst (nth (t - 1) ps1 no_pull)) means 0)).

(** Column [j] of a matrix given by its rows. *)
Definition column (j : nat) (rows : list (list R)) : list R :=
  map (fun row => nth j row 0) rows.

(** Population standard deviation: the root of the mean squared deviation
    from the mean. *)
Definition pop_std (xs : list R) : R :=
  sqrt (sample_mean (map (fun x => (x - sample_mean xs) * (x - sample_mean xs)) xs)).

(** Every row of a matrix has [width] entries. *)
Definition rows_of_width (width : nat) (rows : list (list R)) : Prop :=
  Forall (fun row => length row = width) rows.

(** [avg] and [std] are the pointwise mean and standard deviation of the
    rows. *)
Definition pointwise_stats (width : nat) (rows : list (list R)) (avg std : list R) : Prop :=
  length avg = width /\ length std = width /\
  forall j, (j < width)%nat ->
    nth j avg 0 = sample_mean (column j rows) /\
    nth j std 0 = pop_std (column j rows).

(** ** Vocabulary of the further properties *)

(** A run stops with exception [e]. *)
Definition raises {A : Type} (r : result A) (e : exn) : Prop := r = Raise e.

(** The arms a run pulled, in the order of the rounds. *)
Definition pulled_arms {St : Type} (run : result (list pull * St)) (arms : list nat) : Prop :=
  exists ps s, run = Ok (ps, s) /\ map fst ps = arms.

(** Number of pulls of arm [a] among the pulls [ps]. *)
Definition pulls_of (a : nat) (ps : list pull) : nat := length (rewards_of a ps).

Definition nat_sum (l : list nat) : nat := fold_right Nat.add 0%nat l.

(** The count and the empirical mean a policy holds for arm [a] are those of
    the rewards [xs] the arm has received. *)
Definition mean_stats (s : state) (a : nat) (xs : list R) : Prop :=
  nth a (counts s) 0%nat = length xs /\
  nth a (emp_means s) 0 = (if (length xs =? 0)%nat then 0 else sample_mean xs).

(** A run completes; the reward of round [t] is the sampler's draw at [t]
    for the arm pulled; at the end every arm's count is the number of its
    pulls and its empirical mean the mean of its rewards (0 when never
    pulled). *)
Definition run_stats {St : Type} (cnt : St -> list nat) (mean : St -> list R)
    (T K : nat) (means variances : list R) (normal : sampler)
    (run : result (list pull * St)) : Prop :=
  exists ps s,
    run = Ok (ps, s) /\ length (cnt s) = K /\
    Forall2 (drawn K means variances normal) (seq 1 T) ps /\
    forall a, (a < K)%nat ->
      nth a (cnt s) 0%nat = pulls_of a ps /\
      nth a (mean s) 0 =
        (if (pulls_of a ps =? 0)%nat then 0 else sample_mean (rewards_of a ps)).

(** A run completes with every round counted once: the counts sum to [T],
    and with [K <= T] no arm is left without a pull. *)
Definition counts_account {St : Type} (cnt : St -> list nat) (T K : nat)
    (run : result (list pull * St)) : Prop :=
  exists ps s,
    run = Ok (ps, s) /\ nat_sum (cnt s) = T /\
    ((K <= T)%nat -> forall a, (a < K)%nat -> (1 <= nth a (cnt s) 0%nat)%nat).



(** A generator whose uniform draws lie in the half-open range asked for. *)
Definition uniform_in_range (w : world) : Prop :=
  forall i low high, low < high -> low <= uniform w i low high < high.

(** The conditions under which the script gets as far as its experiments:
    a positive arm count, a known regime, and an output directory and table
    that can be written. *)
Definition valid_setup (w : world) (K : Z) (var : string) : Prop :=
  (1 <= K)%Z /\ In var var_choices /\
  makedirs w OUTPUT_DIR = Ok tt /\
  forall a m v, to_csv w a m v = Ok tt.

(** A standard-deviation trace: [T + 1] non-negative entries, zero at
    round 0. *)
Definition std_trace (T : nat) (sd : list R) : Prop :=
  length sd = (T + 1)%nat /\
  nth 0 sd 0 = 0 /\
  forall t, (t <= T)%nat -> 0 <= nth t sd 0.

(** The empirical mean of every arm is exact: 0 for an arm never pulled,
    the arm's true mean otherwise. *)
Definition exact_means (T K : nat) (means : list R) (s : state) : Prop :=
  ok_state T K s /\
  forall a, (a < K)%nat ->
    nth a (emp_means s) 0 =
    if (nth a (counts s) 0%nat =? 0)%nat then 0 else nth a means 0.

(** Every arm has been pulled and its empirical mean is its true mean. *)
Definition settled (T K : nat) (means : list R) (s : state) : Prop :=
  ok_state T K s /\
  forall a, (a < K)%nat ->
    (1 <= nth a (counts s) 0%nat)%nat /\ nth a (emp_means s) 0 = nth a means 0.

(** ** The plot

    [a - b] and [a + b] on one-dimensional arrays: element-wise on equal
    lengths, an array of length 1 is broadcast, other shapes raise. *)
Definition np_binop (f : R -> R -> R) (a b : list R) : result (list R) :=
  if (length a =? length b)%nat then Ok (zip_with f a b)
  else match a, b with
       | [x], _ => Ok (map (f x) b)
       | _, [y] => Ok (map (fun x => f x y) a)
       | _, _ => Raise ValueError
       end.

(** [np.arange(n)]. *)
Definition arange (n : nat) : list nat := seq 0 n.

(** Lines 124 and 133-134: the abscissa and the two borders
    [avg - std], [avg + std] handed to [plt.fill_between]. *)
Definition fill_between_band (T : nat) (avg std : list R)
    : result (list nat * list R * list R) :=
  let x := arange (T + 1) in
  low <- np_binop Rminus avg std ;;
  high <- np_binop Rplus avg std ;;
  Ok (x, low, high).

(** * Properties *)

(** ** The error monad and indexed sequences *)

Lemma get_Ok {A : Type} (l : list A) (i : nat) (d : A) :
  (i < length l)%nat -> get l i = Ok (nth i l d).
Proof.
  intros H. unfold get.
  rewrite (nth_error_nth' l d H). reflexivity.
Qed.

Lemma set_Ok {A : Type} (l : list A) (i : nat) (x : A) :
  (i < length l)%nat -> set l i x = Ok (replace l i x).
Proof.
  intros H. unfold set. apply Nat.ltb_lt in H. rewrite H. reflexivity.
Qed.

Lemma length_replace {A : Type} (l : list A) (i : nat) (x : A) :
  length (replace l i x) = length l.
Proof.
  revert i. induction l as [|y l IH]; intros [|i]; simpl; auto.
Qed.

Lemma nth_replace_eq {A : Type} (l : list A) (i : nat) (x d : A) :
  (i < length l)%nat -> nth i (replace l i x) d = x.
Proof.
  revert i. induction l as [|y l IH]; intros [|i]; simpl; intros H;
    try lia; auto.
  apply IH. lia.
Qed.

Lemma nth_replace_neq {A : Type} (l : list A) (i j : nat) (x d : A) :
  i <> j -> nth j (replace l i x) d = nth j l d.
Proof.
  revert i j. induction l as [|y l IH]; intros [|i] [|j]; simpl; intros H;
    try congruence; auto.
Qed.

Lemma nth_replace {A : Type} (l : list A) (i j : nat) (x d : A) :
  (i < length l)%nat ->
  nth j (replace l i x) d = if (i =? j)%nat then x else nth j l d.
Proof.
  intros H. destruct (Nat.eqb_spec i j) as [->|Hne].
  - apply nth_replace_eq; assumption.
  - apply nth_replace_neq; assumption.
Qed.

Lemma list_ext {A : Type} (l m : list A) (d : A) :
  length l = length m ->
  (forall i, (i < length l)%nat -> nth i l d = nth i m d) ->
  l = m.
Proof.
  intros Hlen H. apply (nth_ext l m d d); assumption.
Qed.

(** ** np.argmax returns the first maximum *)

Lemma ucb_gtb_true (x y : ucb) : ucb_gtb x y = true <-> ucb_lt y x.
Proof.
  destruct x as [a|], y as [b|]; simpl; try (split; [easy | easy]).
  - destruct (Rlt_dec b a); split; auto; discriminate.
Qed.

Lemma ucb_gtb_false (x y : ucb) : ucb_gtb x y = false <-> ucb_le x y.
Proof.
  destruct x as [a|], y as [b|]; simpl; try (split; [easy | easy]).
  - destruct (Rlt_dec b a); split; intros; try discriminate; try lra; auto.
Qed.

Lemma ucb_le_refl (x : ucb) : ucb_le x x.
Proof. destruct x; simpl; auto; lra. Qed.

Lemma ucb_lt_le (x y : ucb) : ucb_lt x y -> ucb_le x y.
Proof. destruct x, y; simpl; auto; lra. Qed.

Lemma ucb_lt_le_trans (x y z : ucb) : ucb_lt x y -> ucb_le y z -> ucb_lt x z.
Proof. destruct x, y, z; simpl; auto; try lra; try tauto. Qed.

Lemma ucb_le_lt_trans (x y z : ucb) : ucb_le x y -> ucb_lt y z -> ucb_lt x z.
Proof. destruct x, y, z; simpl; auto; try lra; try tauto. Qed.

Lemma argmax_from_spec (l pre : list ucb) (best : nat) :
  (best < length pre)%nat ->
  (forall j, (j < length pre)%nat -> ucb_le (nth j pre Inf) (nth best pre Inf)) ->
  (forall j, (j < best)%nat -> ucb_lt (nth j pre Inf) (nth best pre Inf)) ->
  is_first_max (pre ++ l) (argmax_from best (nth best pre Inf) (length pre) l).
Proof.
  revert pre best. induction l as [|x l IH]; intros pre best Hb Hle Hlt.
  - simpl. rewrite app_nil_r. repeat split; auto.
  - simpl. destruct (ucb_gtb x (nth best pre Inf)) eqn:E.
    + apply ucb_gtb_true in E.
      specialize (IH (pre ++ [x]) (length pre)).
      rewrite length_app in IH. simpl in IH.
      rewrite Nat.add_1_r in IH.
      rewrite app_nth2, Nat.sub_diag in IH by lia. simpl in IH.
      rewrite <- app_assoc in IH. simpl in IH.
      apply IH; [lia | |].
      * intros j Hj. destruct (Nat.eq_dec j (length pre)) as [->|Hne].
        -- rewrite app_nth2, Nat.sub_diag by lia. simpl. apply ucb_le_refl.
        -- rewrite app_nth1 by lia. apply ucb_lt_le.
           apply ucb_le_lt_trans with (nth best pre Inf); [apply Hle; lia | exact E].
      * intros j Hj. rewrite app_nth1 by lia.
        apply ucb_le_lt_trans with (nth best pre Inf); [apply Hle; lia | exact E].
    + apply ucb_gtb_false in E.
      specialize (IH (pre ++ [x]) best).
      rewrite length_app in IH. simpl in IH.
      rewrite Nat.add_1_r in IH.
      rewrite app_nth1 in IH by lia.
      rewrite <- app_assoc in IH. simpl in IH.
      apply IH; [lia | |].
      * intros j Hj. destruct (Nat.eq_dec j (length pre)) as [->|Hne].
        -- rewrite app_nth2, Nat.sub_diag by lia. simpl. assumption.
        -- rewrite app_nth1 by lia. apply Hle. lia.
      * intros j Hj. rewrite app_nth1 by lia. apply Hlt. assumption.
Qed.

Lemma argmax_spec (l : list ucb) :
  l <> [] -> exists r, argmax l = Ok r /\ is_first_max l r.
Proof.
  destruct l as [|x l]; [congruence|]. intros _.
  exists (argmax_from 0 x 1 l). split; [reflexivity|].
  apply (argmax_from_spec l [x] 0%nat); simpl.
  - lia.
  - intros j Hj. assert (j = 0)%nat as -> by lia. apply ucb_le_refl.
  - intros j Hj. lia.
Qed.

(** With an infinite entry present the first maximum is the first
    infinite entry. *)
Lemma first_max_inf (l : list ucb) (r a : nat) :
  is_first_max l r -> (a < length l)%nat -> nth a l Inf = Inf ->
  nth r l Inf = Inf /\ (r <= a)%nat.
Proof.
  intros (Hr & Hle & Hlt) Ha Hinf.
  assert (Hr_inf : nth r l Inf = Inf).
  { specialize (Hle a Ha). rewrite Hinf in Hle.
    destruct (nth r l Inf); simpl in Hle; [tauto | reflexivity]. }
  split; [assumption|].
  destruct (le_lt_dec r a) as [|Hgt]; [assumption|].
  specialize (Hlt a Hgt). rewrite Hinf in Hlt. simpl in Hlt. tauto.
Qed.

(** ** The loop over rounds *)

Lemma for_rounds_app {S : Type} (body : nat -> S -> result (pull * S))
    (l1 l2 : list nat) (s : S) :
  for_rounds body (l1 ++ l2) s =
  ('(ps1, s1) <- for_rounds body l1 s ;;
   '(ps2, s2) <- for_rounds body l2 s1 ;;
   Ok (ps1 ++ ps2, s2)).
Proof.
  revert s. induction l1 as [|t l1 IH]; intros s; simpl.
  - destruct (for_rounds body l2 s) as [[ps2 s2]|e]; reflexivity.
  - destruct (body t s) as [[p s1]|e]; simpl; [|reflexivity].
    rewrite IH.
    destruct (for_rounds body l1 s1) as [[ps1 s1']|e]; simpl; [|reflexivity].
    destruct (for_rounds body l2 s1') as [[ps2 s2]|e]; reflexivity.
Qed.

Lemma nth_boot (K j a : nat) :
  nth a (boot K j) 0%nat = if (a <? j)%nat then 1%nat else 0%nat.
Proof.
  unfold boot. destruct (Nat.ltb_spec a j) as [H|H].
  - rewrite app_nth1 by (rewrite repeat_length; lia). apply nth_repeat_lt. lia.
  - rewrite app_nth2 by (rewrite repeat_length; lia).
    rewrite repeat_length. apply nth_repeat.
Qed.

Lemma length_boot (K j : nat) : (j <= K)%nat -> length (boot K j) = K.
Proof.
  intros H. unfold boot. rewrite length_app, !repeat_length. lia.
Qed.

Lemma selects_boot (K j arm : nat) :
  (j < K)%nat -> selects (boot K j) arm -> arm = j.
Proof.
  intros Hj Hsel.
  destruct (Hsel j) as [Hz Hle].
  - rewrite length_boot; lia.
  - rewrite nth_boot. destruct (Nat.ltb_spec j j); [lia|]. reflexivity.
  - rewrite nth_boot in Hz.
    destruct (Nat.ltb_spec arm j); [discriminate | lia].
Qed.

Lemma incr_boot (K j : nat) : (j < K)%nat -> incr (boot K j) j = boot K (j + 1).
Proof.
  intros Hj. unfold incr.
  apply (list_ext _ _ 0%nat).
  - rewrite length_replace, !length_boot; lia.
  - intros i Hi. rewrite length_replace, length_boot in Hi by lia.
    rewrite nth_replace by (rewrite length_boot; lia).
    rewrite !nth_boot.
    destruct (Nat.eqb_spec j i) as [<-|Hne].
    + destruct (Nat.ltb_spec j j); [lia|].
      destruct (Nat.ltb_spec j (j + 1)); [reflexivity | lia].
    + destruct (Nat.ltb_spec i j), (Nat.ltb_spec i (j + 1)); try lia; reflexivity.
Qed.

Lemma length_running (means : list R) (best_arm : nat) (pulled : list nat) (acc : R) :
  length (running means best_arm acc pulled) = (length pulled + 1)%nat.
Proof.
  revert acc. induction pulled as [|a l IH]; intros acc; simpl; [reflexivity|].
  rewrite IH. reflexivity.
Qed.

Lemma nth_running_0 (means : list R) (best_arm : nat) (pulled : list nat) (acc : R) :
  nth 0 (running means best_arm acc pulled) 0 = acc.
Proof. destruct pulled; reflexivity. Qed.

Lemma nth_running_S (means : list R) (best_arm : nat) (pulled : list nat) :
  forall acc t, (t < length pulled)%nat ->
  nth (S t) (running means best_arm acc pulled) 0 =
  nth t (running means best_arm acc pulled) 0 + gap means best_arm (nth t pulled 0%nat).
Proof.
  induction pulled as [|a l IH]; intros acc t Ht; simpl in Ht; [lia|].
  destruct t as [|t].
  - simpl. rewrite nth_running_0. reflexivity.
  - change (nth (S (S t)) (running means best_arm acc (a :: l)) 0)
      with (nth (S t) (running means best_arm (acc + gap means best_arm a) l) 0).
    change (nth (S t) (running means best_arm acc (a :: l)) 0)
      with (nth t (running means best_arm (acc + gap means best_arm a) l) 0).
    rewrite IH by lia. reflexivity.
Qed.

Section Driver.

Variable St : Type.
Variable cnt : St -> list nat.
Variable reg : St -> list R.
Variable ok : St -> Prop.
Variables T K : nat.
Variable means : list R.
Variable best_arm : nat.
Variable body : nat -> St -> result (pull * St).

Hypothesis ok_length : forall s, ok s -> length (cnt s) = K /\ length (reg s) = (T + 1)%nat.
Hypothesis body_spec : round_spec cnt reg ok T K means best_arm body.

(** Rounds [a .. a+n-1] run to completion; they leave the regret array
    unchanged outside these rounds and add one gap per round inside. *)
Lemma rounds_run (n : nat) : forall a s,
  ok s -> (1 <= a)%nat -> (a + n <= T + 1)%nat ->
  exists ps s',
    for_rounds body (seq a n) s = Ok (ps, s') /\ ok s' /\ length ps = n /\
    (forall i, (i < n)%nat -> (fst (nth i ps no_pull) < K)%nat) /\
    (forall j, (j < a)%nat -> nth j (reg s') 0 = nth j (reg s) 0) /\
    (forall j, (a + n <= j)%nat -> nth j (reg s') 0 = nth j (reg s) 0) /\
    (forall i, (i < n)%nat ->
       nth (a + i) (reg s') 0 =
       nth (a + i - 1) (reg s') 0 + gap means best_arm (fst (nth i ps no_pull))).
Proof.
  induction n as [|n IH]; intros a s Hok Ha Hn.
  - exists [], s. simpl. repeat split; auto; intros; lia.
  - destruct (body_spec a s Hok ltac:(lia))
      as (arm & reward & s1 & Hb & Hok1 & Harm & _ & _ & Hreg).
    destruct (IH (S a) s1 Hok1 ltac:(lia) ltac:(lia))
      as (ps & s' & Hrun & Hok' & Hlen & Harms & Hlow & Hhigh & Hstep).
    destruct (ok_length s Hok) as [_ Hlr].
    assert (Hs1 : forall j, j <> a -> nth j (reg s1) 0 = nth j (reg s) 0).
    { intros j Hj. rewrite Hreg. unfold accrue. apply nth_replace_neq. lia. }
    exists ((arm, reward) :: ps), s'. simpl. rewrite Hb. simpl. rewrite Hrun. simpl.
    split; [reflexivity|]. split; [assumption|]. split; [lia|].
    split; [|split; [|split]].
    + intros [|i] Hi; simpl; [assumption | apply Harms; lia].
    + intros j Hj. rewrite Hlow by lia. apply Hs1. lia.
    + intros j Hj. rewrite Hhigh by lia. apply Hs1. lia.
    + intros [|i] Hi.
      * rewrite Nat.add_0_r. simpl.
        rewrite (Hlow a) by lia. rewrite (Hlow (a - 1)%nat) by lia.
        rewrite (Hs1 (a - 1)%nat) by lia.
        rewrite Hreg. unfold accrue. rewrite nth_replace_eq by lia. reflexivity.
      * replace (a + S i)%nat with (S a + i)%nat by lia. simpl nth at 3.
        apply Hstep. lia.
Qed.

(** During the bootstrap the arms are pulled in ascending order. *)
Lemma rounds_bootstrap (n : nat) : forall a j s ps s',
  ok s -> (1 <= a)%nat -> (a + n <= T + 1)%nat -> (j + n <= K)%nat ->
  cnt s = boot K j ->
  for_rounds body (seq a n) s = Ok (ps, s') ->
  map fst ps = seq j n /\ cnt s' = boot K (j + n).
Proof.
  induction n as [|n IH]; intros a j s ps s' Hok Ha Hn Hj Hcnt Hrun.
  - simpl in Hrun. inversion Hrun; subst. simpl. rewrite Nat.add_0_r. auto.
  - destruct (body_spec a s Hok ltac:(lia))
      as (arm & reward & s1 & Hb & Hok1 & Harm & Hsel & Hc & _).
    simpl in Hrun. rewrite Hb in Hrun. simpl in Hrun.
    destruct (for_rounds body (seq (S a) n) s1) as [[ps1 s2]|e] eqn:E;
      simpl in Hrun; [|discriminate].
    inversion Hrun; subst ps s'; clear Hrun.
    rewrite Hcnt in Hsel, Hc.
    assert (arm = j) as -> by (apply (selects_boot K); [lia | assumption]).
    rewrite incr_boot in Hc by lia.
    destruct (IH (S a) (j + 1)%nat s1 ps1 s2 Hok1 ltac:(lia) ltac:(lia) ltac:(lia) Hc E)
      as [Hps Hcnt'].
    simpl. rewrite Hps. split.
    + f_equal. f_equal. lia.
    + rewrite Hcnt'. f_equal. lia.
Qed.

(** A full run from a zeroed regret array returns the cumulative regret of
    the arms it pulled. *)
Lemma run_spec (s0 : St) :
  ok s0 -> reg s0 = repeat 0 (T + 1) ->
  exists ps s',
    for_rounds body (seq 1 T) s0 = Ok (ps, s') /\ ok s' /\ length ps = T /\
    Forall (fun a => (a < K)%nat) (map fst ps) /\
    reg s' = cumulative_regret means best_arm (map fst ps).
Proof.
  intros Hok Hreg.
  destruct (rounds_run T 1%nat s0 Hok ltac:(lia) ltac:(lia))
    as (ps & s' & Hrun & Hok' & Hlen & Harms & Hlow & _ & Hstep).
  exists ps, s'. repeat split; auto.
  - apply Forall_forall. intros a Ha.
    apply (In_nth _ _ 0%nat) in Ha. destruct Ha as (i & Hi & <-).
    rewrite length_map in Hi.
    change 0%nat with (fst no_pull). rewrite map_nth. apply Harms.
    rewrite <- Hlen. exact Hi.
  - destruct (ok_length s' Hok') as [_ Hl].
    apply (list_ext _ _ 0).
    + unfold cumulative_regret. rewrite length_running, length_map. lia.
    + intros t Ht. rewrite Hl in Ht.
      assert (Hind : forall t, (t <= T)%nat ->
                nth t (reg s') 0 = nth t (cumulative_regret means best_arm (map fst ps)) 0).
      { clear t Ht. induction t as [|t IHt]; intros Ht.
        - rewrite Hlow by lia. rewrite Hreg. unfold cumulative_regret.
          rewrite nth_running_0. apply nth_repeat_lt. lia.
        - unfold cumulative_regret. rewrite nth_running_S by (rewrite length_map; lia).
          fold (cumulative_regret means best_arm (map fst ps)).
          rewrite <- IHt by lia.
          specialize (Hstep t ltac:(lia)). simpl in Hstep.
          rewrite Nat.sub_0_r in Hstep. rewrite Hstep.
          change 0%nat with (fst no_pull). rewrite map_nth. reflexivity. }
      apply Hind. lia.
Qed.

(** With at most [T] arms, the first [K] rounds of a run from zero counts
    pull arms [0 .. K-1] in this order. *)
Lemma run_bootstrap (s0 : St) (ps : list pull) (s' : St) :
  ok s0 -> cnt s0 = repeat 0%nat K -> (K <= T)%nat ->
  for_rounds body (seq 1 T) s0 = Ok (ps, s') ->
  map fst (firstn K ps) = seq 0 K.
Proof.
  intros Hok Hcnt HK Hrun.
  replace T with (K + (T - K))%nat in Hrun by lia.
  rewrite seq_app, for_rounds_app in Hrun.
  destruct (rounds_run K 1%nat s0 Hok ltac:(lia) ltac:(lia))
    as (ps1 & s1 & Hrun1 & _ & Hlen1 & _).
  rewrite Hrun1 in Hrun. simpl in Hrun.
  destruct (for_rounds body (seq (S K) (T - K)) s1) as [[ps2 s2]|e];
    simpl in Hrun; [|discriminate].
  injection Hrun as <- <-.
  rewrite firstn_app, Hlen1, Nat.sub_diag, firstn_O, app_nil_r.
  replace (firstn K ps1) with ps1
    by (rewrite <- Hlen1; symmetry; apply firstn_all).
  apply (rounds_bootstrap K 1%nat 0%nat s0 ps1 s1 Hok); auto; try lia.
  unfold boot. simpl. rewrite Nat.sub_0_r. assumption.
Qed.

End Driver.

(** ** Cumulative regret is a regret trace *)

Lemma cumulative_regret_step (means : list R) (best_arm : nat) (pulled : list nat) (t : nat) :
  (1 <= t <= length pulled)%nat ->
  nth t (cumulative_regret means best_arm pulled) 0 =
  nth (t - 1) (cumulative_regret means best_arm pulled) 0 +
  gap means best_arm (nth (t - 1) pulled 0%nat).
Proof.
  intros Ht. destruct t as [|t]; [lia|].
  simpl. rewrite Nat.sub_0_r. apply nth_running_S. lia.
Qed.

Lemma cumulative_regret_trace (K : nat) (means : list R) (best_arm : nat) (pulled : list nat) :
  is_best K means best_arm ->
  Forall (fun a => (a < K)%nat) pulled ->
  regret_trace (length pulled) (cumulative_regret means best_arm pulled).
Proof.
  intros [Hb Hmax] Hall. repeat split.
  - apply length_running.
  - apply nth_running_0.
  - intros t Ht. rewrite (cumulative_regret_step _ _ _ t Ht).
    assert (nth (t - 1) pulled 0%nat < K)%nat as Hlt.
    { rewrite Forall_forall in Hall. apply Hall. apply nth_In. lia. }
    specialize (Hmax _ Hlt). unfold gap. lra.
Qed.

Lemma regret_trace_nonneg (T : nat) (tr : list R) :
  regret_trace T tr -> forall t, (t <= T)%nat -> 0 <= nth t tr 0.
Proof.
  intros (_ & H0 & Hmono) t. induction t as [|t IH]; intros Ht.
  - rewrite H0. lra.
  - specialize (Hmono (S t) ltac:(lia)). simpl in Hmono.
    rewrite Nat.sub_0_r in Hmono. specialize (IH ltac:(lia)). lra.
Qed.

(** ** One round *)

Lemma mapM_seq {B : Type} (f : nat -> result B) (K : nat) (d : B) :
  (forall a, (a < K)%nat -> exists b, f a = Ok b) ->
  exists bs, mapM f (seq 0 K) = Ok bs /\ length bs = K /\
             forall a, (a < K)%nat -> f a = Ok (nth a bs d).
Proof.
  intros H.
  assert (G : forall n k, (k + n <= K)%nat ->
            exists bs, mapM f (seq k n) = Ok bs /\ length bs = n /\
                       forall i, (i < n)%nat -> f (k + i)%nat = Ok (nth i bs d)).
  { induction n as [|n IH]; intros k Hk.
    - exists []. simpl. repeat split; auto. intros; lia.
    - destruct (H k ltac:(lia)) as [b Hb].
      destruct (IH (S k) ltac:(lia)) as (bs & Hbs & Hlen & Hnth).
      exists (b :: bs). simpl. rewrite Hb. simpl. rewrite Hbs. simpl.
      repeat split; [lia|].
      intros [|i] Hi; simpl.
      + rewrite Nat.add_0_r. assumption.
      + replace (k + S i)%nat with (S k + i)%nat by lia. apply Hnth. lia. }
  destruct (G K 0%nat ltac:(lia)) as (bs & Hbs & Hlen & Hnth).
  exists bs. repeat split; auto.
Qed.

(** Selection: the index values of all arms are computed and the first
    maximal one is chosen. *)
Lemma select_spec {St : Type} (cnt : St -> list nat) (ok : St -> Prop)
    (K : nat) (index : St -> nat -> result ucb) (s : St) :
  (1 <= K)%nat -> length (cnt s) = K -> ok s ->
  index_spec cnt ok K index ->
  exists vals arm,
    mapM (index s) (seq 0 K) = Ok vals /\ argmax vals = Ok arm /\
    length vals = K /\
    (forall a, (a < K)%nat -> index s a = Ok (nth a vals Inf)) /\
    is_first_max vals arm /\ (arm < K)%nat /\ selects (cnt s) arm.
Proof.
  intros HK Hlen Hok Hidx.
  destruct (mapM_seq (index s) K Inf) as (vals & Hvals & Hl & Hnth).
  { intros a Ha. destruct (Hidx s a Hok Ha) as (v & Hv & _). eauto. }
  destruct (argmax_spec vals) as (arm & Harm & Hmax).
  { intros ->. simpl in Hl. lia. }
  assert (Harm_lt : (arm < K)%nat) by (destruct Hmax as (Hr & _); lia).
  exists vals, arm.
  split; [assumption|]. split; [assumption|]. split; [assumption|].
  split; [assumption|]. split; [assumption|]. split; [assumption|].
  intros a Ha Hz. rewrite Hlen in Ha.
  assert (Hinf : nth a vals Inf = Inf).
  { destruct (Hidx s a Hok Ha) as (v & Hv & Hiff).
    rewrite (Hnth a Ha) in Hv. injection Hv as ->. apply Hiff. assumption. }
  destruct (first_max_inf vals arm a Hmax ltac:(lia) Hinf) as [Hri Hle].
  split; [|assumption].
  destruct (Hidx s arm Hok Harm_lt) as (v & Hv & Hiff).
  rewrite (Hnth arm Harm_lt) in Hv. injection Hv as Hv. apply Hiff. congruence.
Qed.

Section Rounds.

Variables T K : nat.
Variables means variances : list R.
Variable best_arm : nat.
Variable normal : sampler.

Hypothesis K_pos : (1 <= K)%nat.
Hypothesis means_length : length means = K.
Hypothesis variances_length : length variances = K.
Hypothesis best_arm_lt : (best_arm < K)%nat.

Lemma ucb_round_step (index : state -> nat -> result ucb) (t : nat) (s : state) :
  index_spec counts (ok_state T K) K index ->
  ok_state T K s -> (1 <= t <= T)%nat ->
  exists vals arm,
    mapM (index s) (seq 0 K) = Ok vals /\ length vals = K /\
    (forall a, (a < K)%nat -> index s a = Ok (nth a vals Inf)) /\
    is_first_max vals arm /\ (arm < K)%nat /\ selects (counts s) arm /\
    let reward := normal t (nth arm means 0) (sqrt (nth arm variances 0)) in
    let m := nth arm (emp_means s) 0 in
    ucb_round index K means variances best_arm normal t s =
    Ok ((arm, reward),
        {| counts := incr (counts s) arm;
           emp_means := replace (emp_means s) arm
                          (m + (reward - m) / INR (nth arm (counts s) 0%nat + 1));
           regret := accrue means best_arm (regret s) t arm |}).
Proof.
  intros Hidx Hok Ht.
  pose proof Hok as (Hc & Hm & Hr).
  destruct (select_spec counts (ok_state T K) K index s K_pos Hc Hok Hidx)
    as (vals & arm & Hvals & Harg & Hlen & Hnth & Hmax & Harm & Hsel).
  exists vals, arm.
  split; [assumption|]. split; [assumption|]. split; [assumption|].
  split; [assumption|]. split; [assumption|]. split; [assumption|].
  unfold ucb_round. rewrite Hvals. simpl. rewrite Harg. simpl.
  rewrite (get_Ok means arm 0) by lia. simpl.
  rewrite (get_Ok variances arm 0) by lia. simpl.
  rewrite (get_Ok (counts s) arm 0%nat) by lia. simpl.
  rewrite set_Ok by lia. simpl.
  rewrite (get_Ok (emp_means s) arm 0) by lia. simpl.
  rewrite (get_Ok _ arm 0%nat) by (rewrite length_replace; lia). simpl.
  rewrite set_Ok by lia. simpl.
  rewrite (get_Ok (regret s) (t - 1) 0) by lia. simpl.
  rewrite (get_Ok means best_arm 0) by lia. simpl.
  rewrite set_Ok by lia. simpl.
  rewrite nth_replace_eq by lia. reflexivity.
Qed.

Lemma ucb_round_spec (index : state -> nat -> result ucb) :
  index_spec counts (ok_state T K) K index ->
  round_spec counts regret (ok_state T K) T K means best_arm
             (ucb_round index K means variances best_arm normal).
Proof.
  intros Hidx t s Hok Ht.
  destruct (ucb_round_step index t s Hidx Hok Ht)
    as (vals & arm & _ & _ & _ & _ & Harm & Hsel & Hrun).
  destruct Hok as (Hc & Hm & Hr).
  eexists arm, _, _. split; [exact Hrun|].
  split; [|split; [assumption|split; [assumption|split; reflexivity]]].
  unfold ok_state, incr, accrue. simpl. rewrite !length_replace. auto.
Qed.

End Rounds.

(** ** Index functions *)

Lemma standard_index_spec (T K : nat) :
  index_spec counts (ok_state T K) K (standard_index T).
Proof.
  intros s a (Hc & Hm & _) Ha. unfold standard_index.
  rewrite (get_Ok (counts s) a 0%nat) by lia. simpl.
  destruct (Nat.eqb_spec (nth a (counts s) 0%nat) 0) as [Hz|Hnz].
  - exists Inf. tauto.
  - rewrite (get_Ok (emp_means s) a 0) by lia. simpl.
    eexists. split; [reflexivity|]. split; [discriminate | contradiction].
Qed.

Lemma known_index_spec (T K : nat) (variances : list R) :
  length variances = K ->
  index_spec counts (ok_state T K) K (known_index T variances).
Proof.
  intros Hv s a (Hc & Hm & _) Ha. unfold known_index.
  rewrite (get_Ok (counts s) a 0%nat) by lia. simpl.
  destruct (Nat.eqb_spec (nth a (counts s) 0%nat) 0) as [Hz|Hnz].
  - exists Inf. tauto.
  - rewrite (get_Ok (emp_means s) a 0) by lia. simpl.
    rewrite (get_Ok variances a 0) by lia. simpl.
    eexists. split; [reflexivity|]. split; [discriminate | contradiction].
Qed.

Lemma unknown_index_spec (T K : nat) :
  index_spec (fun s => counts (base s)) (ok_ustate T K) K (unknown_index T).
Proof.
  intros s a ((Hc & Hm & _) & Hv & _) Ha. unfold unknown_index.
  rewrite (get_Ok (counts (base s)) a 0%nat) by lia. simpl.
  destruct (Nat.eqb_spec (nth a (counts (base s)) 0%nat) 0) as [Hz|Hnz].
  - exists Inf. tauto.
  - rewrite (get_Ok (emp_means (base s)) a 0) by lia. simpl.
    rewrite (get_Ok (emp_vars s) a 0) by lia. simpl.
    eexists. split; [reflexivity|]. split; [discriminate | contradiction].
Qed.

Lemma standard_round_ucb (T K : nat) (means variances : list R) (best_arm : nat)
    (normal : sampler) :
  standard_round T K means variances best_arm normal =
  ucb_round (standard_index T) K means variances best_arm normal.
Proof. reflexivity. Qed.

Lemma known_round_ucb (T K : nat) (means variances : list R) (best_arm : nat)
    (normal : sampler) :
  known_round T K means variances best_arm normal =
  ucb_round (known_index T variances) K means variances best_arm normal.
Proof. reflexivity. Qed.

(** ** The round of the unknown-variance policy *)

Section UnknownRound.

Variables T K : nat.
Variables means variances : list R.
Variable best_arm : nat.
Variable normal : sampler.

Hypothesis K_pos : (1 <= K)%nat.
Hypothesis means_length : length means = K.
Hypothesis variances_length : length variances = K.
Hypothesis best_arm_lt : (best_arm < K)%nat.

Lemma unknown_round_step (t : nat) (s : ustate) :
  ok_ustate T K s -> (1 <= t <= T)%nat ->
  exists arm,
    (arm < K)%nat /\ selects (counts (base s)) arm /\
    unknown_round T K means variances best_arm normal t s =
    Ok ((arm, normal t (nth arm means 0) (sqrt (nth arm variances 0))),
        welford_update means best_arm t arm
          (normal t (nth arm means 0) (sqrt (nth arm variances 0))) s).
Proof.
  intros Hok Ht.
  pose proof Hok as ((Hc & Hm & Hr) & Hv & HM).
  destruct (select_spec (fun s => counts (base s)) (ok_ustate T K) K
              (unknown_index T) s K_pos Hc Hok (unknown_index_spec T K))
    as (vals & arm & Hvals & Harg & _ & _ & _ & Harm & Hsel).
  exists arm. split; [assumption|]. split; [assumption|].
  unfold unknown_round. rewrite Hvals. simpl. rewrite Harg. simpl.
  rewrite (get_Ok means arm 0) by lia. simpl.
  rewrite (get_Ok variances arm 0) by lia. simpl.
  rewrite (get_Ok (counts (base s)) arm 0%nat) by lia. simpl.
  rewrite set_Ok by lia. simpl.
  rewrite (get_Ok _ arm 0%nat) by (rewrite length_replace; lia). simpl.
  rewrite (get_Ok (emp_means (base s)) arm 0) by lia. simpl.
  rewrite set_Ok by lia. simpl.
  rewrite (get_Ok (M2 s) arm 0) by lia. simpl.
  rewrite (get_Ok _ arm 0) by (rewrite length_replace; lia). simpl.
  rewrite set_Ok by lia. simpl.
  rewrite !nth_replace_eq by lia.
  unfold welford_update.
  destruct (1 <? nth arm (counts (base s)) 0%nat + 1)%nat eqn:E; simpl.
  - rewrite (get_Ok _ arm 0) by (rewrite length_replace; lia). simpl.
    rewrite set_Ok by lia. simpl.
    rewrite (get_Ok (regret (base s)) (t - 1) 0) by lia. simpl.
    rewrite (get_Ok means best_arm 0) by lia. simpl.
    rewrite set_Ok by lia. simpl.
    rewrite !nth_replace_eq by lia. reflexivity.
  - rewrite (get_Ok (regret (base s)) (t - 1) 0) by lia. simpl.
    rewrite (get_Ok means best_arm 0) by lia. simpl.
    rewrite set_Ok by lia. simpl. reflexivity.
Qed.

Lemma ok_welford_update (t arm : nat) (r : R) (s : ustate) :
  ok_ustate T K s -> ok_ustate T K (welford_update means best_arm t arm r s).
Proof.
  intros ((Hc & Hm & Hr) & Hv & HM). unfold welford_update, ok_ustate, ok_state, incr, accrue.
  simpl. destruct (1 <? _)%nat; rewrite !length_replace; auto.
Qed.

Lemma unknown_round_spec :
  round_spec (fun s => counts (base s)) (fun s => regret (base s))
             (ok_ustate T K) T K means best_arm
             (unknown_round T K means variances best_arm normal).
Proof.
  intros t s Hok Ht.
  destruct (unknown_round_step t s Hok Ht) as (arm & Harm & Hsel & Hrun).
  eexists arm, _, _. split; [exact Hrun|].
  split; [apply ok_welford_update; assumption|].
  split; [assumption|]. split; [assumption|]. split; reflexivity.
Qed.

End UnknownRound.

(** ** Complete runs of the three policies *)

Lemma ok_init_state (T K : nat) : ok_state T K (init_state T K).
Proof. unfold ok_state, init_state. simpl. rewrite !repeat_length. auto. Qed.

Lemma ok_init_ustate (T K : nat) : ok_ustate T K (init_ustate T K).
Proof.
  unfold ok_ustate, init_ustate. simpl. rewrite !repeat_length.
  split; [apply ok_init_state | auto].
Qed.

Lemma driver_run_ok {St : Type} (cnt : St -> list nat) (reg : St -> list R)
    (ok : St -> Prop) (T K : nat) (means : list R) (best_arm : nat)
    (body : nat -> St -> result (pull * St)) (s0 : St) :
  (forall s, ok s -> length (cnt s) = K /\ length (reg s) = (T + 1)%nat) ->
  round_spec cnt reg ok T K means best_arm body ->
  ok s0 -> cnt s0 = repeat 0%nat K -> reg s0 = repeat 0 (T + 1) ->
  run_ok reg T K means best_arm (for_rounds body (seq 1 T) s0).
Proof.
  intros Hlen Hbody Hok Hcnt Hreg.
  destruct (run_spec St cnt reg ok T K means best_arm body Hlen Hbody s0 Hok Hreg)
    as (ps & s' & Hrun & _ & Hl & Hall & Hcum).
  exists ps, s'. repeat split; auto.
  intros HK.
  apply (run_bootstrap St cnt reg ok T K means best_arm body Hlen Hbody s0 ps s');
    assumption.
Qed.

Section Runs.

Variables T K : nat.
Variables means variances : list R.
Variable best_arm : nat.
Variable normal : sampler.

Hypothesis K_pos : (1 <= K)%nat.
Hypothesis means_length : length means = K.
Hypothesis variances_length : length variances = K.
Hypothesis best_arm_lt : (best_arm < K)%nat.

Lemma standard_run_ok :
  run_ok regret T K means best_arm
         (standard_ucb_run T K means variances best_arm normal).
Proof.
  unfold standard_ucb_run. rewrite standard_round_ucb.
  apply (driver_run_ok counts regret (ok_state T K)).
  - intros s (Hc & _ & Hr). auto.
  - apply ucb_round_spec; auto. apply standard_index_spec.
  - apply ok_init_state.
  - reflexivity.
  - reflexivity.
Qed.

Lemma known_run_ok :
  run_ok regret T K means best_arm
         (known_variance_ucb_run T K means variances best_arm normal).
Proof.
  unfold known_variance_ucb_run. rewrite known_round_ucb.
  apply (driver_run_ok counts regret (ok_state T K)).
  - intros s (Hc & _ & Hr). auto.
  - apply ucb_round_spec; auto. apply known_index_spec. assumption.
  - apply ok_init_state.
  - reflexivity.
  - reflexivity.
Qed.

Lemma unknown_run_ok :
  run_ok (fun s => regret (base s)) T K means best_arm
         (unknown_variance_ucb_run T K means variances best_arm normal).
Proof.
  unfold unknown_variance_ucb_run.
  apply (driver_run_ok (fun s => counts (base s)) (fun s => regret (base s))
                       (ok_ustate T K)).
  - intros s ((Hc & _ & Hr) & _). auto.
  - apply unknown_round_spec; auto.
  - apply ok_init_ustate.
  - reflexivity.
  - reflexivity.
Qed.

End Runs.

Lemma run_ok_trace {St : Type} (reg : St -> list R) (T K : nat) (means : list R)
    (best_arm : nat) (run : result (list pull * St)) :
  is_best K means best_arm ->
  run_ok reg T K means best_arm run ->
  returns_trace T ('(_, s) <- run ;; Ok (reg s)).
Proof.
  intros Hbest (ps & s & -> & Hlen & Hall & Hcum & _). simpl.
  exists (reg s). split; [reflexivity|].
  assert (Htr : regret_trace T (reg s)).
  { rewrite Hcum. rewrite <- Hlen, <- (length_map fst).
    apply (cumulative_regret_trace K); assumption. }
  split; [assumption|]. apply regret_trace_nonneg. assumption.
Qed.

Lemma run_ok_by_arms {St : Type} (reg : St -> list R) (T K : nat) (means : list R)
    (best_arm : nat) (run1 run2 : result (list pull * St)) :
  run_ok reg T K means best_arm run1 ->
  run_ok reg T K means best_arm run2 ->
  regret_by_arms reg T means best_arm run1 run2.
Proof.
  intros (ps1 & s1 & -> & Hlen1 & _ & Hcum1 & _) (ps2 & s2 & -> & _ & _ & Hcum2 & _).
  exists ps1, s1, ps2, s2. split; [reflexivity|]. split; [reflexivity|]. split.
  - intros Harms. rewrite Hcum1, Hcum2, Harms. reflexivity.
  - intros t Ht. rewrite Hcum1.
    rewrite (cumulative_regret_step means best_arm (map fst ps1) t)
      by (rewrite length_map; lia).
    unfold gap. change 0%nat with (fst no_pull) at 3. rewrite map_nth. reflexivity.
Qed.

Lemma run_ok_bootstraps {St : Type} (reg : St -> list R) (T K : nat) (means : list R)
    (best_arm : nat) (run : result (list pull * St)) :
  (K <= T)%nat -> run_ok reg T K means best_arm run -> bootstraps K run.
Proof.
  intros HK (ps & s & -> & _ & _ & _ & Hboot). exists ps, s. auto.
Qed.

(** ** Welford's update computes the sample statistics *)

Lemma Rsum_app (xs ys : list R) : Rsum (xs ++ ys) = Rsum xs + Rsum ys.
Proof.
  induction xs as [|x xs IH]; simpl; [lra|].
  unfold Rsum in *. simpl. rewrite IH. lra.
Qed.

Lemma Rsum_nonneg (xs : list R) : Forall (fun x => 0 <= x) xs -> 0 <= Rsum xs.
Proof.
  induction 1 as [|x xs Hx _ IH]; unfold Rsum in *; simpl; lra.
Qed.

Lemma Rsum_shift (c : R) (xs : list R) :
  Rsum (map (fun x => (x - c) * (x - c)) xs) =
  Rsum (map (fun x => x * x) xs) - 2 * c * Rsum xs + INR (length xs) * c * c.
Proof.
  induction xs as [|x xs IH].
  - simpl. lra.
  - change (length (x :: xs)) with (S (length xs)). rewrite S_INR.
    unfold Rsum in *. simpl. rewrite IH. lra.
Qed.

Lemma sq_dev_alt (xs : list R) :
  xs <> [] ->
  sq_dev xs = Rsum (map (fun x => x * x) xs) - Rsum xs * Rsum xs / INR (length xs).
Proof.
  intros Hne. unfold sq_dev. rewrite Rsum_shift. unfold sample_mean.
  assert (INR (length xs) <> 0).
  { apply not_0_INR. destruct xs; simpl; congruence. }
  field. assumption.
Qed.

Lemma sq_dev_nonneg (xs : list R) : 0 <= sq_dev xs.
Proof.
  unfold sq_dev. apply Rsum_nonneg. apply Forall_forall.
  intros y Hy. apply in_map_iff in Hy. destruct Hy as (x & <- & _).
  apply (Rle_0_sqr (x - sample_mean xs)).
Qed.

Lemma Rsum_one (r : R) : Rsum [r] = r.
Proof. unfold Rsum. simpl. lra. Qed.

Lemma sample_mean_snoc (xs : list R) (r : R) :
  (if (length xs =? 0)%nat then 0 else sample_mean xs) +
  (r - (if (length xs =? 0)%nat then 0 else sample_mean xs)) / INR (length xs + 1) =
  sample_mean (xs ++ [r]).
Proof.
  unfold sample_mean. rewrite Rsum_app, Rsum_one, length_app. simpl length.
  rewrite plus_INR. simpl (INR 1).
  destruct xs as [|x xs].
  - simpl. unfold Rsum. simpl. field.
  - change (length (x :: xs) =? 0)%nat with false. cbv iota.
    assert (0 < INR (length (x :: xs))) by (apply lt_0_INR; simpl; lia).
    field. lra.
Qed.

Lemma welford_algebra (Q S k r : R) :
  0 < k ->
  Q - S * S / k + (r - S / k) * (r - (S + r) / (k + 1)) =
  Q + r * r - (S + r) * (S + r) / (k + 1).
Proof. intros Hk. field. lra. Qed.

Lemma sq_dev_snoc (xs : list R) (r : R) :
  sq_dev xs +
  (r - (if (length xs =? 0)%nat then 0 else sample_mean xs)) *
  (r - sample_mean (xs ++ [r])) = sq_dev (xs ++ [r]).
Proof.
  destruct xs as [|x xs].
  - simpl. unfold sq_dev, sample_mean, Rsum. simpl. field.
  - change (length (x :: xs) =? 0)%nat with false. cbv iota.
    rewrite (sq_dev_alt (x :: xs)) by discriminate.
    rewrite (sq_dev_alt ((x :: xs) ++ [r])) by (simpl; discriminate).
    unfold sample_mean.
    rewrite map_app, !Rsum_app, length_app.
    change (length [r]) with 1%nat. rewrite plus_INR. simpl (INR 1).
    simpl (map _ [r]). rewrite !Rsum_one.
    apply welford_algebra. apply lt_0_INR. simpl. lia.
Qed.

Lemma rewards_of_snoc (a arm : nat) (r : R) (h : list pull) :
  rewards_of a (h ++ [(arm, r)]) =
  rewards_of a h ++ (if (arm =? a)%nat then [r] else []).
Proof.
  unfold rewards_of. rewrite filter_app, map_app. simpl.
  destruct (arm =? a)%nat; reflexivity.
Qed.

Lemma arm_stats_update (T K : nat) (means : list R) (best_arm t arm : nat) (r : R)
    (s : ustate) (h : list pull) :
  ok_ustate T K s -> (arm < K)%nat ->
  (forall a, (a < K)%nat -> arm_stats s a (rewards_of a h)) ->
  forall a, (a < K)%nat ->
    arm_stats (welford_update means best_arm t arm r s) a
              (rewards_of a (h ++ [(arm, r)])).
Proof.
  intros ((Hc & Hm & Hr) & Hv & HM) Harm Hstats a Ha.
  rewrite rewards_of_snoc.
  destruct (Nat.eqb_spec arm a) as [<-|Hne].
  - destruct (Hstats arm Harm) as (Sc & Sm & SM & Sv).
    remember (rewards_of arm h) as xs eqn:Exs. clear Exs.
    assert (Hmean : nth arm (emp_means (base s)) 0 +
                    (r - nth arm (emp_means (base s)) 0) /
                    INR (nth arm (counts (base s)) 0%nat + 1) =
                    sample_mean (xs ++ [r])).
    { rewrite Sc, Sm. apply sample_mean_snoc. }
    assert (Hacc : nth arm (M2 s) 0 +
                   (r - nth arm (emp_means (base s)) 0) *
                   (r - (nth arm (emp_means (base s)) 0 +
                         (r - nth arm (emp_means (base s)) 0) /
                         INR (nth arm (counts (base s)) 0%nat + 1))) =
                   sq_dev (xs ++ [r])).
    { rewrite Hmean, SM, Sm. apply sq_dev_snoc. }
    unfold arm_stats, welford_update, incr. simpl.
    rewrite !nth_replace_eq by lia.
    rewrite Hacc, Hmean, length_app. simpl (length [r]).
    split; [lia|]. split.
    { destruct (Nat.eqb_spec (length xs + 1) 0); [lia | reflexivity]. }
    split; [reflexivity|].
    rewrite Sc.
    destruct (Nat.ltb_spec 1 (length xs + 1)) as [Hlt|Hge].
    + rewrite nth_replace_eq by lia.
      destruct (Nat.leb_spec (length xs + 1) 1); [lia|].
      unfold sample_variance. rewrite length_app. reflexivity.
    + rewrite Sv.
      destruct (Nat.leb_spec (length xs) 1); [|lia].
      destruct (Nat.leb_spec (length xs + 1) 1); [reflexivity | lia].
  - rewrite app_nil_r.
    destruct (Hstats a Ha) as (Sc & Sm & SM & Sv).
    unfold arm_stats, welford_update, incr. simpl.
    rewrite !nth_replace_neq by assumption.
    split; [assumption|]. split; [assumption|]. split; [assumption|].
    destruct (1 <? _)%nat; [rewrite nth_replace_neq by assumption|]; assumption.
Qed.

Section UnknownStats.

Variables T K : nat.
Variables means variances : list R.
Variable best_arm : nat.
Variable normal : sampler.

Hypothesis K_pos : (1 <= K)%nat.
Hypothesis means_length : length means = K.
Hypothesis variances_length : length variances = K.
Hypothesis best_arm_lt : (best_arm < K)%nat.

(** Rounds [a .. a+n-1] keep every arm's statistics in step with the
    rewards it has received. *)
Lemma unknown_rounds_stats (n : nat) : forall a s h,
  ok_ustate T K s -> (1 <= a)%nat -> (a + n <= T + 1)%nat ->
  (forall arm, (arm < K)%nat -> arm_stats s arm (rewards_of arm h)) ->
  exists ps s',
    for_rounds (unknown_round T K means variances best_arm normal) (seq a n) s =
    Ok (ps, s') /\
    ok_ustate T K s' /\ length ps = n /\
    Forall2 (drawn K means variances normal) (seq a n) ps /\
    forall arm, (arm < K)%nat -> arm_stats s' arm (rewards_of arm (h ++ ps)).
Proof.
  induction n as [|n IH]; intros a s h Hok Ha Hn Hstats.
  - exists [], s. simpl. rewrite app_nil_r. auto.
  - destruct (unknown_round_step T K means variances best_arm normal
                K_pos means_length variances_length best_arm_lt a s Hok ltac:(lia))
      as (arm & Harm & _ & Hstep).
    set (r := normal a (nth arm means 0) (sqrt (nth arm variances 0))) in *.
    set (s1 := welford_update means best_arm a arm r s) in *.
    assert (Hok1 : ok_ustate T K s1) by (apply ok_welford_update; assumption).
    destruct (IH (S a) s1 (h ++ [(arm, r)]) Hok1 ltac:(lia) ltac:(lia))
      as (ps & s' & Hrun & Hok' & Hlen & Hdrawn & Hstats').
    { apply (arm_stats_update T K); assumption. }
    exists ((arm, r) :: ps), s'. simpl. rewrite Hstep. simpl. rewrite Hrun. simpl.
    split; [reflexivity|]. split; [assumption|]. split; [lia|].
    split; [constructor; [split; [assumption | reflexivity] | assumption]|].
    intros arm' Harm'. specialize (Hstats' arm' Harm').
    rewrite <- app_assoc in Hstats'. exact Hstats'.
Qed.

Lemma init_arm_stats (arm : nat) :
  (arm < K)%nat -> arm_stats (init_ustate T K) arm (rewards_of arm []).
Proof.
  intros Harm. unfold arm_stats, init_ustate, init_state. simpl.
  rewrite !nth_repeat_lt by lia. unfold sq_dev, Rsum. simpl. auto.
Qed.

(** After any number [n <= T] of rounds. *)
Lemma unknown_prefix_stats (n : nat) :
  (n <= T)%nat ->
  exists ps s,
    for_rounds (unknown_round T K means variances best_arm normal) (seq 1 n)
               (init_ustate T K) = Ok (ps, s) /\
    ok_ustate T K s /\ length ps = n /\
    Forall2 (drawn K means variances normal) (seq 1 n) ps /\
    forall arm, (arm < K)%nat -> arm_stats s arm (rewards_of arm ps).
Proof.
  intros Hn.
  apply (unknown_rounds_stats n 1%nat (init_ustate T K) []); try lia.
  - apply ok_init_ustate.
  - apply init_arm_stats.
Qed.

End UnknownStats.

(** A hand-computed run: one arm, rewards 2, 4, 4, 4, 6.  Their mean is 4,
    the squared deviations sum to 8 and the unbiased sample variance is 2. *)
Example welford_five_rewards :
  let rewards := [2; 4; 4; 4; 6] in
  exists ps s,
    for_rounds (unknown_round 5 1 [0] [1] 0 (fun t _ _ => nth (t - 1) rewards 0))
               (seq 1 5) (init_ustate 5 1) = Ok (ps, s) /\
    ps = [(0%nat, 2); (0%nat, 4); (0%nat, 4); (0%nat, 4); (0%nat, 6)] /\
    nth 0 (counts (base s)) 0%nat = 5%nat /\
    nth 0 (M2 s) 0 = 8 /\
    nth 0 (emp_vars s) 0 = 2.
Proof.
  intros rewards.
  destruct (unknown_prefix_stats 5 1 [0] [1] 0 (fun t _ _ => nth (t - 1) rewards 0)
              ltac:(lia) eq_refl eq_refl ltac:(lia) 5 ltac:(lia))
    as (ps & s & Hrun & _ & _ & Hdrawn & Hstats).
  assert (Hps : ps = [(0%nat, 2); (0%nat, 4); (0%nat, 4); (0%nat, 4); (0%nat, 6)]).
  { simpl in Hdrawn.
    repeat match goal with
           | H : Forall2 _ (_ :: _) _ |- _ =>
               inversion H as [|? [arm r] ? ? [Harm Hr] ?]; subst; clear H;
               simpl in Harm; assert (arm = 0%nat) by lia; subst arm;
               simpl in Hr; subst r; clear Harm
           | H : Forall2 _ [] _ |- _ => inversion H; subst; clear H
           end.
    reflexivity. }
  exists ps, s. split; [assumption|]. split; [assumption|].
  destruct (Hstats 0%nat ltac:(lia)) as (Sc & _ & SM & Sv).
  rewrite Hps in Sc, SM, Sv. simpl in Sc, SM, Sv.
  split; [assumption|]. split.
  - rewrite SM. unfold rewards_of, sq_dev, sample_mean, Rsum. simpl. field.
  - rewrite Sv. unfold rewards_of, sample_variance, sq_dev, sample_mean, Rsum. simpl. field.
Qed.

(** * The claims of the specification *)

(** C1.  For each of the three policies, with at least one arm, means and
    variances of length [K] and [best_arm] the position of a maximal mean,
    whatever rewards are sampled: the policy returns a regret trace of
    length [T + 1] with [regret[0] = 0] and [regret[t] >= regret[t-1]] for
    every [t] in [1 .. T], so every entry is non-negative. *)
Theorem regret_trace_monotone (T K : nat) (means variances : list R)
    (best_arm : nat) (normal : sampler) :
  (1 <= K)%nat -> length means = K -> length variances = K ->
  is_best K means best_arm ->
  returns_trace T (known_variance_ucb T K means variances best_arm normal) /\
  returns_trace T (unknown_variance_ucb T K means variances best_arm normal) /\
  returns_trace T (standard_ucb T K means variances best_arm normal).
Proof.
  intros HK Hm Hv Hbest. pose proof Hbest as [Hb _].
  split; [|split].
  - apply (run_ok_trace regret T K means best_arm); [assumption|].
    apply known_run_ok; assumption.
  - apply (run_ok_trace (fun s => regret (base s)) T K means best_arm); [assumption|].
    apply unknown_run_ok; assumption.
  - apply (run_ok_trace regret T K means best_arm); [assumption|].
    apply standard_run_ok; assumption.
Qed.

Lemma regret_trace_monotone_witness :
  returns_trace 3 (known_variance_ucb 3 2 [1/2; 1/4] [1; 2] 0 (fun _ mu _ => mu)) /\
  returns_trace 3 (unknown_variance_ucb 3 2 [1/2; 1/4] [1; 2] 0 (fun _ mu _ => mu)) /\
  returns_trace 3 (standard_ucb 3 2 [1/2; 1/4] [1; 2] 0 (fun _ mu _ => mu)).
Proof.
  apply regret_trace_monotone.
  - lia.
  - reflexivity.
  - reflexivity.
  - split; [lia|]. intros [|[|a]] Ha; simpl; try lra. lia.
Defined.

(** C6.  For each of the three policies, with [1 <= K <= T]: the run
    completes and its first [K] rounds pull arms [0, 1, .., K-1] in this
    order (round [t] pulls arm [t-1]), each arm once before any arm is
    pulled a second time. *)
Theorem bootstrap_order (T K : nat) (means variances : list R)
    (best_arm : nat) (normal : sampler) :
  (1 <= K)%nat -> (K <= T)%nat ->
  length means = K -> length variances = K -> (best_arm < K)%nat ->
  bootstraps K (known_variance_ucb_run T K means variances best_arm normal) /\
  bootstraps K (unknown_variance_ucb_run T K means variances best_arm normal) /\
  bootstraps K (standard_ucb_run T K means variances best_arm normal).
Proof.
  intros HK HKT Hm Hv Hb. split; [|split].
  - apply (run_ok_bootstraps regret T K means best_arm); [assumption|].
    apply known_run_ok; assumption.
  - apply (run_ok_bootstraps (fun s => regret (base s)) T K means best_arm);
      [assumption|].
    apply unknown_run_ok; assumption.
  - apply (run_ok_bootstraps regret T K means best_arm); [assumption|].
    apply standard_run_ok; assumption.
Qed.

Lemma bootstrap_order_witness :
  bootstraps 3 (known_variance_ucb_run 4 3 [1/2; 1/4; 3/4] [1; 2; 3] 2 (fun _ mu _ => mu)) /\
  bootstraps 3 (unknown_variance_ucb_run 4 3 [1/2; 1/4; 3/4] [1; 2; 3] 2 (fun _ mu _ => mu)) /\
  bootstraps 3 (standard_ucb_run 4 3 [1/2; 1/4; 3/4] [1; 2; 3] 2 (fun _ mu _ => mu)).
Proof.
  apply bootstrap_order.
  - lia.
  - lia.
  - reflexivity.
  - reflexivity.
  - lia.
Defined.

(** C7.  For each of the three policies the regret trace is a function of
    the chosen arms only: two executions on the same instance with
    different reward draws both complete; if their chosen arms coincide
    round by round their regret traces are identical; and every round adds
    exactly [means[best_arm] - means[chosen arm]]. *)
Theorem regret_depends_on_arms_only (T K : nat) (means variances : list R)
    (best_arm : nat) (normal1 normal2 : sampler) :
  (1 <= K)%nat -> length means = K -> length variances = K ->
  (best_arm < K)%nat ->
  regret_by_arms regret T means best_arm
    (known_variance_ucb_run T K means variances best_arm normal1)
    (known_variance_ucb_run T K means variances best_arm normal2) /\
  regret_by_arms (fun s => regret (base s)) T means best_arm
    (unknown_variance_ucb_run T K means variances best_arm normal1)
    (unknown_variance_ucb_run T K means variances best_arm normal2) /\
  regret_by_arms regret T means best_arm
    (standard_ucb_run T K means variances best_arm normal1)
    (standard_ucb_run T K means variances best_arm normal2).
Proof.
  intros HK Hm Hv Hb. split; [|split].
  - apply (run_ok_by_arms regret T K); apply known_run_ok; assumption.
  - apply (run_ok_by_arms (fun s => regret (base s)) T K);
      apply unknown_run_ok; assumption.
  - apply (run_ok_by_arms regret T K); apply standard_run_ok; assumption.
Qed.

Lemma regret_depends_on_arms_only_witness :
  regret_by_arms regret 3 [1/2; 1/4] 0
    (known_variance_ucb_run 3 2 [1/2; 1/4] [1; 2] 0 (fun _ mu _ => mu))
    (known_variance_ucb_run 3 2 [1/2; 1/4] [1; 2] 0 (fun _ mu sd => mu + sd)) /\
  regret_by_arms (fun s => regret (base s)) 3 [1/2; 1/4] 0
    (unknown_variance_ucb_run 3 2 [1/2; 1/4] [1; 2] 0 (fun _ mu _ => mu))
    (unknown_variance_ucb_run 3 2 [1/2; 1/4] [1; 2] 0 (fun _ mu sd => mu + sd)) /\
  regret_by_arms regret 3 [1/2; 1/4] 0
    (standard_ucb_run 3 2 [1/2; 1/4] [1; 2] 0 (fun _ mu _ => mu))
    (standard_ucb_run 3 2 [1/2; 1/4] [1; 2] 0 (fun _ mu sd => mu + sd)).
Proof.
  apply regret_depends_on_arms_only.
  - lia.
  - reflexivity.
  - reflexivity.
  - lia.
Defined.

(** C2.  In unknown_variance_ucb the variance estimate of every arm starts
    at 1; each round pulls an arm [arm] with reward [r] and performs exactly
    the update of [welford_update] (count after the increment,
    [delta = r -] mean before its update, mean updated incrementally,
    [M2[arm] += delta * (r -] mean after its update[)], variance estimate
    written as [M2[arm] / (n - 1)] only when [n > 1]); and after any number of
    rounds the statistics of every arm are those of the rewards it has
    received: the estimate is 1 while the arm has at most one pull and the
    unbiased sample variance of its rewards afterwards. *)
Theorem welford_sample_variance (T K : nat) (means variances : list R)
    (best_arm : nat) (normal : sampler) :
  (1 <= K)%nat -> length means = K -> length variances = K ->
  (best_arm < K)%nat ->
  emp_vars (init_ustate T K) = repeat 1 K /\
  (forall t s, ok_ustate T K s -> (1 <= t <= T)%nat ->
     exists arm r,
       (arm < K)%nat /\
       unknown_round T K means variances best_arm normal t s =
       Ok ((arm, r), welford_update means best_arm t arm r s)) /\
  (forall n, (n <= T)%nat ->
     exists ps s,
       for_rounds (unknown_round T K means variances best_arm normal)
                  (seq 1 n) (init_ustate T K) = Ok (ps, s) /\
       forall a, (a < K)%nat ->
         let xs := rewards_of a ps in
         nth a (counts (base s)) 0%nat = length xs /\
         nth a (M2 s) 0 = sq_dev xs /\
         nth a (emp_vars s) 0 =
           (if (length xs <=? 1)%nat then 1 else sample_variance xs)).
Proof.
  intros HK Hm Hv Hb. split; [reflexivity|]. split.
  - intros t s Hok Ht.
    destruct (unknown_round_step T K means variances best_arm normal
                HK Hm Hv Hb t s Hok Ht) as (arm & Harm & _ & Hstep).
    eexists arm, _. split; [assumption | exact Hstep].
  - intros n Hn.
    destruct (unknown_prefix_stats T K means variances best_arm normal
                HK Hm Hv Hb n Hn) as (ps & s & Hrun & _ & _ & _ & Hstats).
    exists ps, s. split; [assumption|].
    intros a Ha. destruct (Hstats a Ha) as (Sc & _ & SM & Sv). auto.
Qed.

Lemma welford_sample_variance_witness :
  emp_vars (init_ustate 3 2) = repeat 1 2%nat /\
  (forall t s, ok_ustate 3 2 s -> (1 <= t <= 3)%nat ->
     exists arm r,
       (arm < 2)%nat /\
       unknown_round 3 2 [1/2; 1/4] [1; 2] 0 (fun _ mu _ => mu) t s =
       Ok ((arm, r), welford_update [1/2; 1/4] 0 t arm r s)) /\
  (forall n, (n <= 3)%nat ->
     exists ps s,
       for_rounds (unknown_round 3 2 [1/2; 1/4] [1; 2] 0 (fun _ mu _ => mu))
                  (seq 1 n) (init_ustate 3 2) = Ok (ps, s) /\
       forall a, (a < 2)%nat ->
         let xs := rewards_of a ps in
         nth a (counts (base s)) 0%nat = length xs /\
         nth a (M2 s) 0 = sq_dev xs /\
         nth a (emp_vars s) 0 =
           (if (length xs <=? 1)%nat then 1 else sample_variance xs)).
Proof.
  apply welford_sample_variance.
  - lia.
  - reflexivity.
  - reflexivity.
  - lia.
Defined.

(** C10.  In unknown_variance_ucb every round increments the accumulator
    [M2] of the pulled arm by [delta^2 * (1 - 1/n)], which is non-negative,
    and leaves the other arms' accumulators unchanged; so after every round
    [M2[a] >= 0] and [emp_vars[a] >= 0] for every arm, and the square root
    of the variance estimate in the index is never taken of a negative
    number. *)
Theorem M2_and_variance_nonneg (T K : nat) (means variances : list R)
    (best_arm : nat) (normal : sampler) :
  (1 <= K)%nat -> length means = K -> length variances = K ->
  (best_arm < K)%nat ->
  (forall t s, ok_ustate T K s -> (1 <= t <= T)%nat ->
     exists arm r s',
       unknown_round T K means variances best_arm normal t s = Ok ((arm, r), s') /\
       (arm < K)%nat /\
       let n := nth arm (counts (base s')) 0%nat in
       let delta := r - nth arm (emp_means (base s)) 0 in
       (1 <= n)%nat /\
       nth arm (M2 s') 0 - nth arm (M2 s) 0 = delta * delta * (1 - 1 / INR n) /\
       0 <= delta * delta * (1 - 1 / INR n) /\
       forall a, a <> arm -> nth a (M2 s') 0 = nth a (M2 s) 0) /\
  (forall n, (n <= T)%nat ->
     exists ps s,
       for_rounds (unknown_round T K means variances best_arm normal)
                  (seq 1 n) (init_ustate T K) = Ok (ps, s) /\
       forall a, (a < K)%nat ->
         0 <= nth a (M2 s) 0 /\ 0 <= nth a (emp_vars s) 0).
Proof.
  intros HK Hm Hv Hb. split.
  - intros t s Hok Ht.
    destruct (unknown_round_step T K means variances best_arm normal
                HK Hm Hv Hb t s Hok Ht) as (arm & Harm & _ & Hstep).
    destruct Hok as ((Hc & Hme & Hr) & Hva & HM).
    eexists arm, _, _. split; [exact Hstep|]. split; [assumption|].
    unfold welford_update, incr. simpl.
    rewrite !nth_replace_eq by lia.
    set (c := nth arm (counts (base s)) 0%nat).
    set (r := normal t (nth arm means 0) (sqrt (nth arm variances 0))).
    set (m := nth arm (emp_means (base s)) 0).
    assert (Hn : 1 <= INR (c + 1)).
    { rewrite plus_INR. simpl (INR 1). pose proof (pos_INR c). lra. }
    split; [lia|]. split; [field; lra|]. split.
    + apply Rmult_le_pos; [apply (Rle_0_sqr (r - m))|].
      assert (1 / INR (c + 1) <= 1).
      { apply (Rmult_le_reg_r (INR (c + 1))); [lra|].
        unfold Rdiv. rewrite Rmult_assoc, Rinv_l by lra. lra. }
      lra.
    + intros a Ha. apply nth_replace_neq. congruence.
  - intros n Hn.
    destruct (unknown_prefix_stats T K means variances best_arm normal
                HK Hm Hv Hb n Hn) as (ps & s & Hrun & _ & _ & _ & Hstats).
    exists ps, s. split; [assumption|].
    intros a Ha. destruct (Hstats a Ha) as (_ & _ & SM & Sv).
    rewrite SM, Sv. split; [apply sq_dev_nonneg|].
    destruct (Nat.leb_spec (length (rewards_of a ps)) 1) as [|Hlen]; [lra|].
    unfold sample_variance. apply Rmult_le_pos; [apply sq_dev_nonneg|].
    apply Rlt_le, Rinv_0_lt_compat.
    apply lt_INR in Hlen. simpl (INR 1) in Hlen. lra.
Qed.

Lemma M2_and_variance_nonneg_witness :
  (forall t s, ok_ustate 3 2 s -> (1 <= t <= 3)%nat ->
     exists arm r s',
       unknown_round 3 2 [1/2; 1/4] [1; 2] 0 (fun _ mu _ => mu) t s =
       Ok ((arm, r), s') /\
       (arm < 2)%nat /\
       let n := nth arm (counts (base s')) 0%nat in
       let delta := r - nth arm (emp_means (base s)) 0 in
       (1 <= n)%nat /\
       nth arm (M2 s') 0 - nth arm (M2 s) 0 = delta * delta * (1 - 1 / INR n) /\
       0 <= delta * delta * (1 - 1 / INR n) /\
       forall a, a <> arm -> nth a (M2 s') 0 = nth a (M2 s) 0) /\
  (forall n, (n <= 3)%nat ->
     exists ps s,
       for_rounds (unknown_round 3 2 [1/2; 1/4] [1; 2] 0 (fun _ mu _ => mu))
                  (seq 1 n) (init_ustate 3 2) = Ok (ps, s) /\
       forall a, (a < 2)%nat ->
         0 <= nth a (M2 s) 0 /\ 0 <= nth a (emp_vars s) 0).
Proof.
  apply M2_and_variance_nonneg.
  - lia.
  - reflexivity.
  - reflexivity.
  - lia.
Defined.

(** ** The correction factor is clamped *)

Lemma epsilon_pos : 0 < epsilon.
Proof. unfold epsilon. lra. Qed.

Lemma correction_floor (T n : nat) : epsilon <= correction T n.
Proof. unfold correction. apply Rmax_r. Qed.

(** ** The first maximum is unique *)

Lemma ucb_lt_not_le (x y : ucb) : ucb_lt x y -> ucb_le y x -> False.
Proof. destruct x, y; simpl; auto; lra. Qed.

Lemma first_max_unique (l : list ucb) (r1 r2 : nat) :
  is_first_max l r1 -> is_first_max l r2 -> r1 = r2.
Proof.
  intros (H1 & Hle1 & Hlt1) (H2 & Hle2 & Hlt2).
  destruct (lt_eq_lt_dec r1 r2) as [[Hlt|Heq]|Hgt]; [|assumption|].
  - exfalso. apply (ucb_lt_not_le _ _ (Hlt2 r1 Hlt)). apply Hle1. assumption.
  - exfalso. apply (ucb_lt_not_le _ _ (Hlt1 r2 Hgt)). apply Hle2. assumption.
Qed.

(** ** Rounds that agree run alike *)

Lemma mapM_ext {A B : Type} (f g : A -> result B) (l : list A) :
  (forall a, In a l -> f a = g a) -> mapM f l = mapM g l.
Proof.
  induction l as [|a l IH]; simpl; intros H; [reflexivity|].
  rewrite (H a) by auto. rewrite IH by auto. reflexivity.
Qed.

Lemma for_rounds_ext {St : Type} (body1 body2 : nat -> St -> result (pull * St))
    (ts : list nat) :
  (forall t s, body1 t s = body2 t s) ->
  forall s, for_rounds body1 ts s = for_rounds body2 ts s.
Proof.
  intros H. induction ts as [|t ts IH]; intros s; simpl; [reflexivity|].
  rewrite H. destruct (body2 t s) as [[p s1]|e]; simpl; [|reflexivity].
  rewrite IH. reflexivity.
Qed.

Lemma known_index_unit_variance (T : nat) (variances : list R) (s : state) (a : nat) :
  (a < length variances)%nat -> nth a variances 0 = 1 ->
  known_index T variances s a = standard_index T s a.
Proof.
  intros Ha Hv. unfold known_index, standard_index.
  destruct (get (counts s) a) as [c|e]; simpl; [|reflexivity].
  destruct (c =? 0)%nat; [reflexivity|].
  destruct (get (emp_means s) a) as [m|e]; simpl; [|reflexivity].
  rewrite (get_Ok variances a 0) by assumption. simpl.
  rewrite Hv. do 3 f_equal. f_equal. f_equal. lra.
Qed.

(** C4.  In standard_ucb, at every round, an arm never pulled has index
    positive infinity, an arm with [n >= 1] pulls has index
    [emp_means[a] + sqrt(4*ln(T) / n)], and the arm pulled is the position of
    the first maximal index (ties go to the lowest arm); the index and the
    selection are the same whatever the true variances and whatever
    rewards this round draws. *)
Theorem standard_index_and_selection (T K : nat) (means : list R)
    (best_arm : nat) (t : nat) (s : state) :
  (1 <= K)%nat -> length means = K -> (best_arm < K)%nat ->
  ok_state T K s -> (1 <= t <= T)%nat ->
  exists vals arm,
    mapM (standard_index T s) (seq 0 K) = Ok vals /\
    length vals = K /\
    (forall a, (a < K)%nat ->
       nth a vals Inf =
       if (nth a (counts s) 0%nat =? 0)%nat then Inf
       else Fin (nth a (emp_means s) 0 +
                 sqrt (4 * ln (INR T) / INR (nth a (counts s) 0%nat)))) /\
    is_first_max vals arm /\
    forall variances normal, length variances = K ->
      exists r s',
        standard_round T K means variances best_arm normal t s = Ok ((arm, r), s').
Proof.
  intros HK Hm Hb Hok Ht.
  destruct (mapM_seq (standard_index T s) K Inf) as (vals & Hvals & Hlen & Hnth).
  { intros a Ha.
    destruct (standard_index_spec T K s a Hok Ha) as (v & Hv & _). eauto. }
  destruct (argmax_spec vals) as (arm & Harg & Hmax).
  { intros ->. simpl in Hlen. lia. }
  exists vals, arm.
  split; [assumption|]. split; [assumption|]. split; [|split; [assumption|]].
  - intros a Ha. specialize (Hnth a Ha).
    destruct Hok as (Hc & Hme & _).
    unfold standard_index in Hnth.
    rewrite (get_Ok (counts s) a 0%nat) in Hnth by lia. simpl in Hnth.
    destruct (nth a (counts s) 0%nat =? 0)%nat.
    + injection Hnth as <-. reflexivity.
    + rewrite (get_Ok (emp_means s) a 0) in Hnth by lia. simpl in Hnth.
      injection Hnth as <-. reflexivity.
  - intros variances normal Hv.
    destruct (ucb_round_step T K means variances best_arm normal HK Hm Hv Hb
                (standard_index T) t s (standard_index_spec T K) Hok Ht)
      as (vals' & arm' & Hvals' & _ & _ & Hmax' & _ & _ & Hrun).
    rewrite Hvals in Hvals'. injection Hvals' as <-.
    rewrite (first_max_unique vals arm arm' Hmax Hmax').
    rewrite standard_round_ucb. eexists _, _. exact Hrun.
Qed.

Lemma standard_index_and_selection_witness :
  exists vals arm,
    mapM (standard_index 3 (init_state 3 2)) (seq 0 2) = Ok vals /\
    length vals = 2%nat /\
    (forall a, (a < 2)%nat ->
       nth a vals Inf =
       if (nth a (counts (init_state 3 2)) 0%nat =? 0)%nat then Inf
       else Fin (nth a (emp_means (init_state 3 2)) 0 +
                 sqrt (4 * ln (INR 3) / INR (nth a (counts (init_state 3 2)) 0%nat)))) /\
    is_first_max vals arm /\
    forall variances normal, length variances = 2%nat ->
      exists r s',
        standard_round 3 2 [1/2; 1/4] variances 0 normal 1 (init_state 3 2) =
        Ok ((arm, r), s').
Proof.
  apply (standard_index_and_selection 3 2 [1/2; 1/4] 0 1 (init_state 3 2)).
  - lia.
  - reflexivity.
  - lia.
  - apply ok_init_state.
  - lia.
Defined.

(** C5.  known_variance_ucb has the control flow of standard_ucb: both are
    the round of section 4.2 (infinite index for arms never pulled, first
    maximum, incremental mean, regret accumulation) run from the same
    initial state, and differ in the index of a pulled arm only, which for
    known_variance_ucb is
    [emp_means[a] + sqrt(4*variances[a]*ln(T) / counts[a])] with the true
    variance of the instance; on an instance whose true variances are all 1
    the two indices agree and the two policies return the same trace. *)
Theorem known_variance_same_control_flow (T K : nat) (means variances : list R)
    (best_arm : nat) (normal : sampler) :
  length variances = K ->
  known_variance_ucb T K means variances best_arm normal =
    ('(_, s) <- for_rounds
                  (ucb_round (known_index T variances) K means variances best_arm normal)
                  (seq 1 T) (init_state T K) ;;
     Ok (regret s)) /\
  standard_ucb T K means variances best_arm normal =
    ('(_, s) <- for_rounds
                  (ucb_round (standard_index T) K means variances best_arm normal)
                  (seq 1 T) (init_state T K) ;;
     Ok (regret s)) /\
  (forall s a, ok_state T K s -> (a < K)%nat ->
    known_index T variances s a =
      Ok (if (nth a (counts s) 0%nat =? 0)%nat then Inf
          else Fin (nth a (emp_means s) 0 +
                    sqrt (4 * nth a variances 0 * ln (INR T) /
                          INR (nth a (counts s) 0%nat)))) /\
    standard_index T s a =
      Ok (if (nth a (counts s) 0%nat =? 0)%nat then Inf
          else Fin (nth a (emp_means s) 0 +
                    sqrt (4 * ln (INR T) / INR (nth a (counts s) 0%nat))))) /\
  ((forall a, (a < K)%nat -> nth a variances 0 = 1) ->
   known_variance_ucb T K means variances best_arm normal =
   standard_ucb T K means variances best_arm normal).
Proof.
  intros Hv. split; [reflexivity|]. split; [reflexivity|]. split.
  - intros s a (Hc & Hm & _) Ha. unfold known_index, standard_index.
    rewrite (get_Ok (counts s) a 0%nat) by lia. simpl.
    destruct (nth a (counts s) 0%nat =? 0)%nat; [split; reflexivity|].
    rewrite (get_Ok (emp_means s) a 0) by lia. simpl.
    rewrite (get_Ok variances a 0) by lia. simpl.
    split; reflexivity.
  - intros Hone. unfold known_variance_ucb, standard_ucb,
      known_variance_ucb_run, standard_ucb_run.
    rewrite (for_rounds_ext
               (known_round T K means variances best_arm normal)
               (standard_round T K means variances best_arm normal));
      [reflexivity|].
    intros t s. unfold known_round, standard_round.
    rewrite (mapM_ext (known_index T variances s) (standard_index T s));
      [reflexivity|].
    intros a Ha. apply in_seq in Ha.
    apply known_index_unit_variance; [lia | apply Hone; lia].
Qed.

Lemma known_variance_same_control_flow_witness :
  known_variance_ucb 3 2 [1/2; 1/4] [1; 1] 0 (fun _ mu _ => mu) =
    ('(_, s) <- for_rounds
                  (ucb_round (known_index 3 [1; 1]) 2 [1/2; 1/4] [1; 1] 0 (fun _ mu _ => mu))
                  (seq 1 3) (init_state 3 2) ;;
     Ok (regret s)) /\
  standard_ucb 3 2 [1/2; 1/4] [1; 1] 0 (fun _ mu _ => mu) =
    ('(_, s) <- for_rounds
                  (ucb_round (standard_index 3) 2 [1/2; 1/4] [1; 1] 0 (fun _ mu _ => mu))
                  (seq 1 3) (init_state 3 2) ;;
     Ok (regret s)) /\
  (forall s a, ok_state 3 2 s -> (a < 2)%nat ->
    known_index 3 [1; 1] s a =
      Ok (if (nth a (counts s) 0%nat =? 0)%nat then Inf
          else Fin (nth a (emp_means s) 0 +
                    sqrt (4 * nth a [1; 1] 0 * ln (INR 3) /
                          INR (nth a (counts s) 0%nat)))) /\
    standard_index 3 s a =
      Ok (if (nth a (counts s) 0%nat =? 0)%nat then Inf
          else Fin (nth a (emp_means s) 0 +
                    sqrt (4 * ln (INR 3) / INR (nth a (counts s) 0%nat))))) /\
  ((forall a, (a < 2)%nat -> nth a [1; 1] 0 = 1) ->
   known_variance_ucb 3 2 [1/2; 1/4] [1; 1] 0 (fun _ mu _ => mu) =
   standard_ucb 3 2 [1/2; 1/4] [1; 1] 0 (fun _ mu _ => mu)).
Proof.
  apply (known_variance_same_control_flow 3 2 [1/2; 1/4] [1; 1] 0 (fun _ mu _ => mu)).
  reflexivity.
Defined.

(** ** Aggregation over the experiments *)

Lemma length_zip_with {A B C : Type} (f : A -> B -> C) (l : list A) (m : list B) :
  length l = length m -> length (zip_with f l m) = length l.
Proof.
  revert m. induction l as [|a l IH]; intros [|b m]; simpl; intros H;
    try discriminate; auto.
Qed.

Lemma nth_zip_with (f : R -> R -> R) (l m : list R) (j : nat) :
  length l = length m -> (j < length l)%nat ->
  nth j (zip_with f l m) 0 = f (nth j l 0) (nth j m 0).
Proof.
  revert m j. induction l as [|a l IH]; intros [|b m] [|j]; simpl; intros H Hj;
    try discriminate; try lia; auto.
  apply IH; lia.
Qed.

Lemma fold_sum_axis0 (rows : list (list R)) : forall (acc : list R),
  rows_of_width (length acc) rows ->
  length (fold_left (zip_with Rplus) rows acc) = length acc /\
  forall j, (j < length acc)%nat ->
    nth j (fold_left (zip_with Rplus) rows acc) 0 =
    nth j acc 0 + Rsum (column j rows).
Proof.
  induction rows as [|row rows IH]; intros acc Hw.
  - simpl. split; [reflexivity|]. intros j _. unfold Rsum. simpl. lra.
  - inversion Hw as [|? ? Hrow Hrows]; subst.
    assert (Hl : length (zip_with Rplus acc row) = length acc)
      by (apply length_zip_with; congruence).
    simpl. destruct (IH (zip_with Rplus acc row)) as [Hlen Hnth].
    { rewrite Hl. assumption. }
    split; [congruence|].
    intros j Hj. rewrite Hnth by lia.
    rewrite nth_zip_with by (congruence || lia).
    unfold Rsum. simpl. lra.
Qed.

Lemma sum_axis0_spec (width : nat) (rows : list (list R)) :
  rows_of_width width rows ->
  length (sum_axis0 width rows) = width /\
  forall j, (j < width)%nat -> nth j (sum_axis0 width rows) 0 = Rsum (column j rows).
Proof.
  intros Hw. unfold sum_axis0.
  destruct (fold_sum_axis0 rows (repeat 0 width)) as [Hlen Hnth].
  { rewrite repeat_length. assumption. }
  rewrite repeat_length in Hlen, Hnth. split; [assumption|].
  intros j Hj. rewrite Hnth by assumption. rewrite nth_repeat_lt by assumption. lra.
Qed.

Lemma nth_map_R (f : R -> R) (l : list R) (j : nat) :
  (j < length l)%nat -> nth j (map f l) 0 = f (nth j l 0).
Proof.
  intros Hj. rewrite (nth_indep _ 0 (f 0)) by (rewrite length_map; assumption).
  apply map_nth.
Qed.

Lemma length_column (j : nat) (rows : list (list R)) : length (column j rows) = length rows.
Proof. apply length_map. Qed.

Lemma mean_axis0_spec (width : nat) (rows : list (list R)) :
  rows_of_width width rows ->
  length (mean_axis0 width rows) = width /\
  forall j, (j < width)%nat ->
    nth j (mean_axis0 width rows) 0 = sample_mean (column j rows).
Proof.
  intros Hw. destruct (sum_axis0_spec width rows Hw) as [Hlen Hnth].
  unfold mean_axis0. rewrite length_map. split; [assumption|].
  intros j Hj. rewrite nth_map_R by lia. rewrite Hnth by assumption.
  unfold sample_mean. rewrite length_column. reflexivity.
Qed.

Lemma std_axis0_spec (width : nat) (rows : list (list R)) :
  rows_of_width width rows ->
  length (std_axis0 width rows) = width /\
  forall j, (j < width)%nat ->
    nth j (std_axis0 width rows) 0 = pop_std (column j rows).
Proof.
  intros Hw. destruct (mean_axis0_spec width rows Hw) as [Hlen Hnth].
  unfold std_axis0.
  set (avg := mean_axis0 width rows) in *.
  set (sq := map (map (fun x => x * x)) (map (fun row => zip_with Rminus row avg) rows)).
  assert (Hsq : rows_of_width width sq).
  { unfold sq, rows_of_width. rewrite !Forall_map.
    eapply Forall_impl; [|exact Hw]. intros row Hrow. simpl.
    rewrite length_map, length_zip_with; congruence. }
  destruct (mean_axis0_spec width sq Hsq) as [Hlen' Hnth'].
  rewrite length_map. split; [assumption|].
  intros j Hj. rewrite nth_map_R by lia. rewrite Hnth' by assumption.
  unfold pop_std. f_equal. f_equal.
  rewrite <- (Hnth j Hj).
  unfold sq, column. rewrite !map_map.
  apply map_ext_in. intros row Hin.
  unfold rows_of_width in Hw.
  rewrite Forall_forall in Hw. specialize (Hw row Hin).
  rewrite nth_map_R by (rewrite length_zip_with; congruence).
  rewrite nth_zip_with by (congruence || lia). reflexivity.
Qed.

Lemma rows_of_width_single (tr : list R) : rows_of_width (length tr) [tr].
Proof. repeat constructor. Qed.

Lemma mean_axis0_single (tr : list R) : mean_axis0 (length tr) [tr] = tr.
Proof.
  destruct (mean_axis0_spec _ _ (rows_of_width_single tr)) as [Hlen Hnth].
  apply (list_ext _ _ 0); [assumption|].
  intros j Hj. rewrite Hlen in Hj. rewrite Hnth by assumption.
  unfold sample_mean, column, Rsum. simpl. field.
Qed.

Lemma std_axis0_single (tr : list R) :
  std_axis0 (length tr) [tr] = repeat 0 (length tr).
Proof.
  destruct (std_axis0_spec _ _ (rows_of_width_single tr)) as [Hlen Hnth].
  apply (list_ext _ _ 0); [rewrite repeat_length; assumption|].
  intros j Hj. rewrite Hlen in Hj. rewrite Hnth by assumption.
  rewrite nth_repeat_lt by assumption.
  unfold pop_std, sample_mean, column, Rsum. simpl.
  transitivity (sqrt 0); [f_equal; field | apply sqrt_0].
Qed.

(** C8.  For each policy the aggregation computes the pointwise mean and
    the pointwise standard deviation of the regret traces at every round
    index [0 .. T]; with a single trial the mean trace is that trial's
    trace and the standard-deviation trace is zero at every round index. *)
Theorem aggregate_pointwise (T : nat) (r : regrets) :
  rows_of_width (T + 1) (known_regrets r) ->
  rows_of_width (T + 1) (unknown_regrets r) ->
  rows_of_width (T + 1) (standard_regrets r) ->
  let rep := aggregate T r in
  pointwise_stats (T + 1) (known_regrets r) (known_avg rep) (known_std rep) /\
  pointwise_stats (T + 1) (unknown_regrets r) (unknown_avg rep) (unknown_std rep) /\
  pointwise_stats (T + 1) (standard_regrets r) (standard_avg rep) (standard_std rep) /\
  forall k u s,
    known_regrets r = [k] -> unknown_regrets r = [u] -> standard_regrets r = [s] ->
    rep = {| known_avg := k; known_std := repeat 0 (T + 1);
             unknown_avg := u; unknown_std := repeat 0 (T + 1);
             standard_avg := s; standard_std := repeat 0 (T + 1) |}.
Proof.
  intros Hk Hu Hs rep.
  assert (Hstats : forall rows, rows_of_width (T + 1) rows ->
            pointwise_stats (T + 1) rows (mean_axis0 (T + 1) rows) (std_axis0 (T + 1) rows)).
  { intros rows Hw.
    destruct (mean_axis0_spec _ _ Hw) as [Hl1 Hn1].
    destruct (std_axis0_spec _ _ Hw) as [Hl2 Hn2].
    split; [assumption|]. split; [assumption|]. intros j Hj. auto. }
  split; [apply Hstats; assumption|].
  split; [apply Hstats; assumption|].
  split; [apply Hstats; assumption|].
  intros k u s Ek Eu Es. unfold rep, aggregate.
  rewrite Ek, Eu, Es. rewrite Ek in Hk. rewrite Eu in Hu. rewrite Es in Hs.
  inversion Hk as [|? ? Hlk _]; inversion Hu as [|? ? Hlu _];
    inversion Hs as [|? ? Hls _]; subst.
  assert (Hone : forall tr, length tr = (T + 1)%nat ->
            mean_axis0 (T + 1) [tr] = tr /\
            std_axis0 (T + 1) [tr] = repeat 0 (T + 1)).
  { intros tr <-. split; [apply mean_axis0_single | apply std_axis0_single]. }
  destruct (Hone k Hlk) as [-> ->].
  destruct (Hone u Hlu) as [-> ->].
  destruct (Hone s Hls) as [-> ->].
  reflexivity.
Qed.

Lemma aggregate_pointwise_witness :
  let r := {| known_regrets := [[0; 1/4]];
              unknown_regrets := [[0; 0]];
              standard_regrets := [[0; 1/2]] |} in
  let rep := aggregate 1 r in
  pointwise_stats (1 + 1) (known_regrets r) (known_avg rep) (known_std rep) /\
  pointwise_stats (1 + 1) (unknown_regrets r) (unknown_avg rep) (unknown_std rep) /\
  pointwise_stats (1 + 1) (standard_regrets r) (standard_avg rep) (standard_std rep) /\
  forall k u s,
    known_regrets r = [k] -> unknown_regrets r = [u] -> standard_regrets r = [s] ->
    rep = {| known_avg := k; known_std := repeat 0 (1 + 1);
             unknown_avg := u; unknown_std := repeat 0 (1 + 1);
             standard_avg := s; standard_std := repeat 0 (1 + 1) |}.
Proof.
  apply (aggregate_pointwise 1
           {| known_regrets := [[0; 1/4]];
              unknown_regrets := [[0; 0]];
              standard_regrets := [[0; 1/2]] |}).
  - repeat constructor.
  - repeat constructor.
  - repeat constructor.
Defined.

(** The experiments hand the aggregation one row of [T + 1] entries per
    trial and policy. *)
Lemma run_experiments_rows (w : world) (T : nat) (inst : instance) (trials : list nat) :
  (1 <= arms inst)%nat -> length (means inst) = arms inst ->
  length (variances inst) = arms inst -> (best_arm inst < arms inst)%nat ->
  forall pos, exists r,
    run_experiments w T inst pos trials = Ok r /\
    rows_of_width (T + 1) (known_regrets r) /\
    rows_of_width (T + 1) (unknown_regrets r) /\
    rows_of_width (T + 1) (standard_regrets r) /\
    length (known_regrets r) = length trials /\
    length (unknown_regrets r) = length trials /\
    length (standard_regrets r) = length trials.
Proof.
  intros HK Hm Hv Hb.
  assert (Hrow : forall St (reg : St -> list R) run,
            run_ok reg T (arms inst) (means inst) (best_arm inst) run ->
            exists tr, ('(_, s) <- run ;; Ok (reg s)) = Ok tr /\
                       length tr = (T + 1)%nat).
  { intros St reg run (ps & s & -> & Hlen & _ & Hcum & _). simpl.
    exists (reg s). split; [reflexivity|].
    rewrite Hcum. unfold cumulative_regret.
    rewrite length_running, length_map. lia. }
  induction trials as [|i trials IH]; intros pos.
  - eexists. simpl. split; [reflexivity|]. simpl.
    repeat split; constructor.
  - cbn [run_experiments].
    destruct (Hrow _ regret _
                (known_run_ok T (arms inst) (means inst) (variances inst)
                   (best_arm inst) (fun t => normal w (pos + 0 + t)%nat) HK Hm Hv Hb))
      as (k & Ek & Hlk).
    destruct (Hrow _ (fun s => regret (base s)) _
                (unknown_run_ok T (arms inst) (means inst) (variances inst)
                   (best_arm inst) (fun t => normal w (pos + T + t)%nat) HK Hm Hv Hb))
      as (u & Eu & Hlu).
    destruct (Hrow _ regret _
                (standard_run_ok T (arms inst) (means inst) (variances inst)
                   (best_arm inst) (fun t => normal w (pos + 2 * T + t)%nat) HK Hm Hv Hb))
      as (s & Es & Hls).
    destruct (IH (pos + 3 * T)%nat) as (r & Er & Hrk & Hru & Hrs & Hnk & Hnu & Hns).
    unfold known_variance_ucb, unknown_variance_ucb, standard_ucb.
    rewrite Ek. cbn [bind]. rewrite Eu. cbn [bind]. rewrite Es. cbn [bind].
    rewrite Er. cbn [bind].
    eexists. split; [reflexivity|]. cbn [known_regrets unknown_regrets standard_regrets length].
    repeat split; try (constructor; assumption); lia.
Qed.

(** ** Configuration errors *)

Lemma var_choices_existsb (var : string) :
  existsb (String.eqb var) var_choices = true <-> In var var_choices.
Proof.
  rewrite existsb_exists. split.
  - intros (x & Hin & Heq). apply String.eqb_eq in Heq. subst. assumption.
  - intros Hin. exists var. split; [assumption | apply String.eqb_refl].
Qed.

Lemma variance_levels_defined (var : string) :
  In var var_choices -> exists range, dict_get variance_levels var = Ok range.
Proof.
  intros [<-|[<-|[<-|[]]]]; simpl; eauto.
Qed.

(** ** A valid configuration runs to the report *)

Lemma nth_map_Fin (l : list R) (a : nat) :
  (a < length l)%nat -> nth a (map Fin l) Inf = Fin (nth a l 0).
Proof.
  intros Ha. rewrite (nth_indep _ Inf (Fin 0)) by (rewrite length_map; assumption).
  apply map_nth.
Qed.

Lemma argmax_means_best (means : list R) :
  means <> [] ->
  exists best, argmax (map Fin means) = Ok best /\ is_best (length means) means best.
Proof.
  intros Hne.
  destruct (argmax_spec (map Fin means)) as (best & Harg & Hlt & Hle & _).
  { destruct means; [congruence | discriminate]. }
  rewrite length_map in Hlt, Hle.
  exists best. split; [assumption|]. split; [assumption|].
  intros a Ha. specialize (Hle a Ha).
  rewrite !nth_map_Fin in Hle by assumption. exact Hle.
Qed.

Lemma generate_instance_ok (w : world) (K : Z) (var : string) :
  (1 <= K)%Z -> In var var_choices ->
  makedirs w OUTPUT_DIR = Ok tt ->
  (forall a m v, to_csv w a m v = Ok tt) ->
  exists inst,
    generate_instance w K var = Ok inst /\
    arms inst = Z.to_nat K /\
    length (means inst) = arms inst /\
    length (variances inst) = arms inst /\
    is_best (arms inst) (means inst) (best_arm inst).
Proof.
  intros HK Hin Hmk Hcsv.
  destruct (variance_levels_defined var Hin) as ([vmin vmax] & Hrange).
  set (k := Z.to_nat K).
  set (ms := map (fun i => uniform w i 0 1) (seq 1 k)).
  assert (Hlen : length ms = k) by (unfold ms; rewrite length_map, length_seq; reflexivity).
  destruct (argmax_means_best ms) as (best & Harg & Hbest).
  { intros E. rewrite E in Hlen. simpl in Hlen. lia. }
  eexists. split.
  - unfold generate_instance, parse_args.
    rewrite (proj2 (var_choices_existsb var) Hin). cbn [bind].
    rewrite Hmk. cbn [bind]. rewrite Hrange. cbn [bind].
    fold k. fold ms. rewrite Harg. cbn [bind]. rewrite Hcsv. cbn [bind].
    reflexivity.
  - cbn [arms means variances best_arm].
    split; [reflexivity|]. split; [assumption|].
    split; [rewrite length_map, length_seq; reflexivity|].
    rewrite <- Hlen. assumption.
Qed.

Lemma script_runs (T N : nat) (w : world) (K : Z) (var : string) :
  (1 <= K)%Z -> In var var_choices ->
  makedirs w OUTPUT_DIR = Ok tt ->
  (forall a m v, to_csv w a m v = Ok tt) ->
  (forall k u s, savefig w k u s = Ok tt) ->
  exists inst r,
    generate_instance w K var = Ok inst /\
    run_experiments w T inst (2 * arms inst) (seq 0 N) = Ok r /\
    script T N w K var = Ok (aggregate T r) /\
    length (known_regrets r) = N /\
    length (unknown_regrets r) = N /\
    length (standard_regrets r) = N /\
    rows_of_width (T + 1) (known_regrets r) /\
    rows_of_width (T + 1) (unknown_regrets r) /\
    rows_of_width (T + 1) (standard_regrets r).
Proof.
  intros HK Hin Hmk Hcsv Hfig.
  destruct (generate_instance_ok w K var HK Hin Hmk Hcsv)
    as (inst & Hgen & Harms & Hm & Hv & Hbest).
  pose proof Hbest as [Hb _].
  destruct (run_experiments_rows w T inst (seq 0 N) ltac:(lia) Hm Hv Hb
              (2 * arms inst)%nat)
    as (r & Hrun & Hk & Hu & Hs & Hnk & Hnu & Hns).
  rewrite length_seq in Hnk, Hnu, Hns.
  exists inst, r. split; [assumption|]. split; [assumption|]. split.
  - unfold script. rewrite Hgen. cbn [bind]. rewrite Hrun. cbn [bind].
    rewrite Hfig. reflexivity.
  - auto 10.
Qed.

(** C9.  With an arm count [K <= 0], or with a variance regime that is not
    one of the choices, the script stops with an error while it sets up the
    instance: no instance is returned, no experiment is run and no report is
    produced, whatever the horizon and the number of experiments.  An
    unknown regime is rejected by the argument parser; with a known regime
    and a usable output directory, [K <= 0] makes np.argmax fail on the
    empty list of means. *)
Theorem invalid_configuration (w : world) (K : Z) (var : string) :
  (K <= 0)%Z \/ ~ In var var_choices ->
  exists e,
    generate_instance w K var = Raise e /\
    (forall T N, script T N w K var = Raise e) /\
    (~ In var var_choices -> e = ArgumentError) /\
    (In var var_choices -> makedirs w OUTPUT_DIR = Ok tt -> e = ValueError).
Proof.
  intros Hbad.
  assert (Hscript : forall e, generate_instance w K var = Raise e ->
            forall T N, script T N w K var = Raise e).
  { intros e He T N. unfold script. rewrite He. reflexivity. }
  destruct (existsb (String.eqb var) var_choices) eqn:E.
  - assert (Hin : In var var_choices) by (apply var_choices_existsb; assumption).
    assert (HK : Z.to_nat K = 0%nat) by (destruct Hbad as [HK|Hn]; [lia | tauto]).
    destruct (variance_levels_defined var Hin) as ([vmin vmax] & Hrange).
    destruct (makedirs w OUTPUT_DIR) as [[]|e] eqn:Emk.
    + exists ValueError.
      assert (Hgen : generate_instance w K var = Raise ValueError).
      { unfold generate_instance, parse_args. rewrite E. cbn [bind].
        rewrite Emk. cbn [bind]. rewrite Hrange. cbn [bind].
        rewrite HK. reflexivity. }
      split; [assumption|]. split; [auto|]. split; [tauto | reflexivity].
    + exists e.
      assert (Hgen : generate_instance w K var = Raise e).
      { unfold generate_instance, parse_args. rewrite E. cbn [bind].
        rewrite Emk. reflexivity. }
      split; [assumption|]. split; [auto|]. split; [tauto | discriminate].
  - assert (Hnin : ~ In var var_choices).
    { intros Hin. apply var_choices_existsb in Hin. congruence. }
    exists ArgumentError.
    assert (Hgen : generate_instance w K var = Raise ArgumentError).
    { unfold generate_instance, parse_args. rewrite E. reflexivity. }
    split; [assumption|]. split; [auto|]. split; [reflexivity | tauto].
Qed.

Lemma invalid_configuration_witness :
  let w := {| uniform := fun _ low _ => low;
              normal := fun _ mu _ => mu;
              makedirs := fun _ => Ok tt;
              to_csv := fun _ _ _ => Ok tt;
              savefig := fun _ _ _ => Ok tt |} in
  exists e,
    generate_instance w 0 "low" = Raise e /\
    (forall T N, script T N w 0 "low" = Raise e) /\
    (~ In "low"%string var_choices -> e = ArgumentError) /\
    (In "low"%string var_choices -> makedirs w OUTPUT_DIR = Ok tt -> e = ValueError).
Proof.
  intros w. apply (invalid_configuration w 0 "low"). left. lia.
Defined.

(** * Further properties of the code *)

(** ** Edge cases of the policies *)

Lemma get_Raise {A : Type} (l : list A) (i : nat) :
  (length l <= i)%nat -> get l i = Raise IndexError.
Proof.
  intros H. unfold get. apply nth_error_None in H. rewrite H. reflexivity.
Qed.

(** X1.  Without arms ([K = 0]) and with at least one round, each of the
    three policies stops in its first round with the ValueError of
    np.argmax on an empty sequence, whatever the other arguments. *)
Theorem no_arms_value_error (T : nat) (means variances : list R)
    (best_arm : nat) (normal : sampler) :
  (1 <= T)%nat ->
  raises (known_variance_ucb T 0 means variances best_arm normal) ValueError /\
  raises (unknown_variance_ucb T 0 means variances best_arm normal) ValueError /\
  raises (standard_ucb T 0 means variances best_arm normal) ValueError.
Proof.
  intros HT. destruct T as [|T]; [lia|].
  repeat split.
Qed.

Lemma no_arms_value_error_witness :
  raises (known_variance_ucb 2 0 [] [] 0 (fun _ mu _ => mu)) ValueError /\
  raises (unknown_variance_ucb 2 0 [] [] 0 (fun _ mu _ => mu)) ValueError /\
  raises (standard_ucb 2 0 [] [] 0 (fun _ mu _ => mu)) ValueError.
Proof.
  apply no_arms_value_error. lia.
Defined.

Section BadBestArm.

Variables T K : nat.
Variables means variances : list R.
Variable best_arm : nat.
Variable normal : sampler.

Hypothesis K_pos : (1 <= K)%nat.
Hypothesis means_length : length means = K.
Hypothesis variances_length : length variances = K.
Hypothesis best_arm_ge : (K <= best_arm)%nat.

Lemma ucb_round_bad_best (index : state -> nat -> result ucb) (t : nat) (s : state) :
  index_spec counts (ok_state T K) K index ->
  ok_state T K s -> (1 <= t <= T)%nat ->
  ucb_round index K means variances best_arm normal t s = Raise IndexError.
Proof.
  intros Hidx Hok Ht.
  pose proof Hok as (Hc & Hm & Hr).
  destruct (select_spec counts (ok_state T K) K index s K_pos Hc Hok Hidx)
    as (vals & arm & Hvals & Harg & _ & _ & _ & Harm & _).
  unfold ucb_round. rewrite Hvals. simpl. rewrite Harg. simpl.
  rewrite (get_Ok means arm 0) by lia. simpl.
  rewrite (get_Ok variances arm 0) by lia. simpl.
  rewrite (get_Ok (counts s) arm 0%nat) by lia. simpl.
  rewrite set_Ok by lia. simpl.
  rewrite (get_Ok (emp_means s) arm 0) by lia. simpl.
  rewrite (get_Ok _ arm 0%nat) by (rewrite length_replace; lia). simpl.
  rewrite set_Ok by lia. simpl.
  rewrite (get_Ok (regret s) (t - 1) 0) by lia. simpl.
  rewrite (get_Raise means best_arm) by lia. reflexivity.
Qed.

Lemma unknown_round_bad_best (t : nat) (s : ustate) :
  ok_ustate T K s -> (1 <= t <= T)%nat ->
  unknown_round T K means variances best_arm normal t s = Raise IndexError.
Proof.
  intros Hok Ht.
  pose proof Hok as ((Hc & Hm & Hr) & Hv & HM).
  destruct (select_spec (fun s => counts (base s)) (ok_ustate T K) K
              (unknown_index T) s K_pos Hc Hok (unknown_index_spec T K))
    as (vals & arm & Hvals & Harg & _ & _ & _ & Harm & _).
  unfold unknown_round. rewrite Hvals. simpl. rewrite Harg. simpl.
  rewrite (get_Ok means arm 0) by lia. simpl.
  rewrite (get_Ok variances arm 0) by lia. simpl.
  rewrite (get_Ok (counts (base s)) arm 0%nat) by lia. simpl.
  rewrite set_Ok by lia. simpl.
  rewrite (get_Ok _ arm 0%nat) by (rewrite length_replace; lia). simpl.
  rewrite (get_Ok (emp_means (base s)) arm 0) by lia. simpl.
  rewrite set_Ok by lia. simpl.
  rewrite (get_Ok (M2 s) arm 0) by lia. simpl.
  rewrite (get_Ok _ arm 0) by (rewrite length_replace; lia). simpl.
  rewrite set_Ok by lia. simpl.
  rewrite !nth_replace_eq by lia.
  destruct (1 <? nth arm (counts (base s)) 0%nat + 1)%nat eqn:E; simpl.
  - rewrite (get_Ok _ arm 0) by (rewrite length_replace; lia). simpl.
    rewrite set_Ok by lia. simpl.
    rewrite (get_Ok (regret (base s)) (t - 1) 0) by lia. simpl.
    rewrite (get_Raise means best_arm) by lia. reflexivity.
  - rewrite (get_Ok (regret (base s)) (t - 1) 0) by lia. simpl.
    rewrite (get_Raise means best_arm) by lia. reflexivity.
Qed.

End BadBestArm.

(** X2.  With a well-formed instance but [best_arm] not a position of
    [means] ([best_arm >= K]) and at least one round, each of the three
    policies stops in its first round with an IndexError, raised when the
    regret of the round reads [means[best_arm]]; no trace is returned. *)
Theorem best_arm_out_of_range (T K : nat) (means variances : list R)
    (best_arm : nat) (normal : sampler) :
  (1 <= T)%nat -> (1 <= K)%nat -> length means = K -> length variances = K ->
  (K <= best_arm)%nat ->
  raises (known_variance_ucb T K means variances best_arm normal) IndexError /\
  raises (unknown_variance_ucb T K means variances best_arm normal) IndexError /\
  raises (standard_ucb T K means variances best_arm normal) IndexError.
Proof.
  intros HT HK Hm Hv Hb. destruct T as [|T]; [lia|].
  unfold raises, known_variance_ucb, unknown_variance_ucb, standard_ucb,
    known_variance_ucb_run, unknown_variance_ucb_run, standard_ucb_run.
  rewrite known_round_ucb, standard_round_ucb.
  cbn [seq for_rounds].
  rewrite (ucb_round_bad_best (S T) K means variances best_arm normal HK Hm Hv Hb
             (known_index (S T) variances) 1 (init_state (S T) K)
             (known_index_spec (S T) K variances Hv) (ok_init_state (S T) K)
             ltac:(lia)).
  rewrite (ucb_round_bad_best (S T) K means variances best_arm normal HK Hm Hv Hb
             (standard_index (S T)) 1 (init_state (S T) K)
             (standard_index_spec (S T) K) (ok_init_state (S T) K)
             ltac:(lia)).
  rewrite (unknown_round_bad_best (S T) K means variances best_arm normal HK Hm Hv Hb
             1 (init_ustate (S T) K) (ok_init_ustate (S T) K) ltac:(lia)).
  repeat split.
Qed.

Lemma best_arm_out_of_range_witness :
  raises (known_variance_ucb 2 2 [1/2; 1/4] [1; 2] 2 (fun _ mu _ => mu)) IndexError /\
  raises (unknown_variance_ucb 2 2 [1/2; 1/4] [1; 2] 2 (fun _ mu _ => mu)) IndexError /\
  raises (standard_ucb 2 2 [1/2; 1/4] [1; 2] 2 (fun _ mu _ => mu)) IndexError.
Proof.
  apply best_arm_out_of_range.
  - lia.
  - lia.
  - reflexivity.
  - reflexivity.
  - lia.
Defined.

(** ** Counts and empirical means follow the pulls *)

Lemma mean_stats_update (K : nat) (arm : nat) (r : R) (s : state) (reg : list R)
    (h : list pull) :
  length (counts s) = K -> length (emp_means s) = K -> (arm < K)%nat ->
  (forall a, (a < K)%nat -> mean_stats s a (rewards_of a h)) ->
  forall a, (a < K)%nat ->
    mean_stats
      {| counts := incr (counts s) arm;
         emp_means := replace (emp_means s) arm
                        (nth arm (emp_means s) 0 +
                         (r - nth arm (emp_means s) 0) /
                         INR (nth arm (counts s) 0%nat + 1));
         regret := reg |}
      a (rewards_of a (h ++ [(arm, r)])).
Proof.
  intros Hc Hm Harm Hstats a Ha.
  rewrite rewards_of_snoc.
  destruct (Nat.eqb_spec arm a) as [<-|Hne].
  - destruct (Hstats arm Harm) as (Sc & Sm).
    remember (rewards_of arm h) as xs eqn:Exs. clear Exs.
    unfold mean_stats, incr. simpl.
    rewrite !nth_replace_eq by lia.
    rewrite Sc, Sm, sample_mean_snoc, length_app. simpl (length [r]).
    split; [lia|].
    destruct (Nat.eqb_spec (length xs + 1) 0); [lia | reflexivity].
  - rewrite app_nil_r.
    destruct (Hstats a Ha) as (Sc & Sm).
    unfold mean_stats, incr. simpl.
    rewrite !nth_replace_neq by assumption. auto.
Qed.

Section UcbStats.

Variables T K : nat.
Variables means variances : list R.
Variable best_arm : nat.
Variable normal : sampler.
Variable index : state -> nat -> result ucb.

Hypothesis K_pos : (1 <= K)%nat.
Hypothesis means_length : length means = K.
Hypothesis variances_length : length variances = K.
Hypothesis best_arm_lt : (best_arm < K)%nat.
Hypothesis index_ok : index_spec counts (ok_state T K) K index.

Lemma ucb_rounds_stats (n : nat) : forall a s h,
  ok_state T K s -> (1 <= a)%nat -> (a + n <= T + 1)%nat ->
  (forall arm, (arm < K)%nat -> mean_stats s arm (rewards_of arm h)) ->
  exists ps s',
    for_rounds (ucb_round index K means variances best_arm normal) (seq a n) s =
    Ok (ps, s') /\
    ok_state T K s' /\
    Forall2 (drawn K means variances normal) (seq a n) ps /\
    forall arm, (arm < K)%nat -> mean_stats s' arm (rewards_of arm (h ++ ps)).
Proof.
  induction n as [|n IH]; intros a s h Hok Ha Hn Hstats.
  - exists [], s. simpl. rewrite app_nil_r. auto.
  - destruct (ucb_round_step T K means variances best_arm normal
                K_pos means_length variances_length best_arm_lt index a s
                index_ok Hok ltac:(lia))
      as (vals & arm & _ & _ & _ & _ & Harm & _ & Hstep).
    cbv zeta in Hstep.
    set (r := normal a (nth arm means 0) (sqrt (nth arm variances 0))) in *.
    match type of Hstep with _ = Ok (_, ?st) => set (s1 := st) in * end.
    pose proof Hok as (Hc & Hm & Hr).
    assert (Hok1 : ok_state T K s1).
    { unfold ok_state, s1, incr, accrue. simpl. rewrite !length_replace. auto. }
    destruct (IH (S a) s1 (h ++ [(arm, r)]) Hok1 ltac:(lia) ltac:(lia))
      as (ps & s' & Hrun & Hok' & Hdrawn & Hstats').
    { apply (mean_stats_update K); assumption. }
    exists ((arm, r) :: ps), s'. simpl. rewrite Hstep. simpl. rewrite Hrun. simpl.
    split; [reflexivity|]. split; [assumption|].
    split; [constructor; [split; [assumption | reflexivity] | assumption]|].
    intros arm' Harm'. specialize (Hstats' arm' Harm').
    rewrite <- app_assoc in Hstats'. exact Hstats'.
Qed.

Lemma ucb_run_stats :
  run_stats counts emp_means T K means variances normal
    (for_rounds (ucb_round index K means variances best_arm normal) (seq 1 T)
                (init_state T K)).
Proof.
  destruct (ucb_rounds_stats T 1%nat (init_state T K) [] (ok_init_state T K)
              ltac:(lia) ltac:(lia))
    as (ps & s & Hrun & (Hc & _) & Hdrawn & Hstats).
  { intros arm Harm. unfold mean_stats, init_state. simpl.
    rewrite !nth_repeat_lt by lia. auto. }
  exists ps, s. split; [assumption|]. split; [assumption|]. split; [assumption|].
  intros a Ha. destruct (Hstats a Ha) as (Sc & Sm). simpl in Sc, Sm.
  unfold pulls_of. auto.
Qed.

End UcbStats.

Lemma unknown_run_stats (T K : nat) (means variances : list R) (best_arm : nat)
    (normal : sampler) :
  (1 <= K)%nat -> length means = K -> length variances = K -> (best_arm < K)%nat ->
  run_stats (fun s => counts (base s)) (fun s => emp_means (base s))
    T K means variances normal
    (unknown_variance_ucb_run T K means variances best_arm normal).
Proof.
  intros HK Hm Hv Hb.
  destruct (unknown_prefix_stats T K means variances best_arm normal
              HK Hm Hv Hb T ltac:(lia))
    as (ps & s & Hrun & ((Hc & _) & _) & _ & Hdrawn & Hstats).
  exists ps, s. split; [assumption|]. split; [assumption|]. split; [assumption|].
  intros a Ha. destruct (Hstats a Ha) as (Sc & Sm & _). unfold pulls_of. auto.
Qed.

(** X3.  In each of the three policies, after the run the reward recorded
    for round [t] is the sampler's draw at [t] with the pulled arm's true
    mean and the square root of its true variance, [counts[a]] is the number
    of rounds that pulled arm [a], and [emp_means[a]] is the arithmetic mean
    of the rewards arm [a] received (0 for an arm never pulled): the
    incremental update [mean += (reward - mean) / count] computes the sample
    mean. *)
Theorem empirical_means_are_sample_means (T K : nat) (means variances : list R)
    (best_arm : nat) (normal : sampler) :
  (1 <= K)%nat -> length means = K -> length variances = K -> (best_arm < K)%nat ->
  run_stats counts emp_means T K means variances normal
    (known_variance_ucb_run T K means variances best_arm normal) /\
  run_stats (fun s => counts (base s)) (fun s => emp_means (base s))
    T K means variances normal
    (unknown_variance_ucb_run T K means variances best_arm normal) /\
  run_stats counts emp_means T K means variances normal
    (standard_ucb_run T K means variances best_arm normal).
Proof.
  intros HK Hm Hv Hb. split; [|split].
  - unfold known_variance_ucb_run. rewrite known_round_ucb.
    apply ucb_run_stats; auto. apply known_index_spec. assumption.
  - apply unknown_run_stats; assumption.
  - unfold standard_ucb_run. rewrite standard_round_ucb.
    apply ucb_run_stats; auto. apply standard_index_spec.
Qed.

Lemma empirical_means_are_sample_means_witness :
  run_stats counts emp_means 3 2 [1/2; 1/4] [1; 2] (fun _ mu _ => mu)
    (known_variance_ucb_run 3 2 [1/2; 1/4] [1; 2] 0 (fun _ mu _ => mu)) /\
  run_stats (fun s => counts (base s)) (fun s => emp_means (base s))
    3 2 [1/2; 1/4] [1; 2] (fun _ mu _ => mu)
    (unknown_variance_ucb_run 3 2 [1/2; 1/4] [1; 2] 0 (fun _ mu _ => mu)) /\
  run_stats counts emp_means 3 2 [1/2; 1/4] [1; 2] (fun _ mu _ => mu)
    (standard_ucb_run 3 2 [1/2; 1/4] [1; 2] 0 (fun _ mu _ => mu)).
Proof.
  apply empirical_means_are_sample_means.
  - lia.
  - reflexivity.
  - reflexivity.
  - lia.
Defined.

(** ** Sums over the arms *)

Lemma pulls_of_cons (a : nat) (p : pull) (ps : list pull) :
  pulls_of a (p :: ps) =
  ((if (fst p =? a)%nat then 1 else 0) + pulls_of a ps)%nat.
Proof.
  unfold pulls_of, rewards_of. simpl.
  destruct (fst p =? a)%nat; reflexivity.
Qed.

Lemma nat_sum_add (f g : nat -> nat) (l : list nat) :
  nat_sum (map (fun a => (f a + g a)%nat) l) =
  (nat_sum (map f l) + nat_sum (map g l))%nat.
Proof.
  induction l as [|a l IH]; simpl; [reflexivity|].
  unfold nat_sum in *. simpl. rewrite IH. lia.
Qed.

Lemma nat_sum_indicator (x n : nat) : forall j,
  nat_sum (map (fun a => if (x =? a)%nat then 1%nat else 0%nat) (seq j n)) =
  if ((j <=? x) && (x <? j + n))%nat then 1%nat else 0%nat.
Proof.
  induction n as [|n IH]; intros j.
  - simpl. destruct (Nat.leb_spec j x), (Nat.ltb_spec x (j + 0)); simpl; auto; lia.
  - simpl. unfold nat_sum in *. simpl. rewrite IH.
    destruct (Nat.eqb_spec x j), (Nat.leb_spec (S j) x), (Nat.ltb_spec x (S j + n)),
      (Nat.leb_spec j x), (Nat.ltb_spec x (j + S n)); simpl; lia.
Qed.



Lemma pulls_total (K : nat) (ps : list pull) :
  Forall (fun p => (fst p < K)%nat) ps ->
  nat_sum (map (fun a => pulls_of a ps) (seq 0 K)) = length ps.
Proof.
  induction 1 as [|p ps Hp _ IH].
  - induction (seq 0 K) as [|a l IHl]; [reflexivity|].
    unfold nat_sum in *. simpl. rewrite IHl. reflexivity.
  - rewrite (map_ext _ (fun a => ((if (fst p =? a)%nat then 1 else 0) + pulls_of a ps)%nat))
      by (intros a; apply pulls_of_cons).
    rewrite nat_sum_add, IH, nat_sum_indicator. simpl.
    destruct (Nat.ltb_spec (fst p) K); [reflexivity | lia].
Qed.



Lemma drawn_arms (K : nat) (means variances : list R) (normal : sampler)
    (ts : list nat) (ps : list pull) :
  Forall2 (drawn K means variances normal) ts ps ->
  length ps = length ts /\ Forall (fun p => (fst p < K)%nat) ps.
Proof.
  induction 1 as [|t p ts ps [Hp _] _ [IHl IHf]]; simpl; auto.
Qed.

(** ** Accounting of the pulls *)

Lemma run_counts_account {St : Type} (cnt : St -> list nat) (mean : St -> list R)
    (reg : St -> list R) (T K : nat) (means variances : list R) (best_arm : nat)
    (normal : sampler) (run : result (list pull * St)) :
  run_stats cnt mean T K means variances normal run ->
  run_ok reg T K means best_arm run ->
  counts_account cnt T K run.
Proof.
  intros (ps & s & Hrun & Hlen & Hdrawn & Hstats) (ps' & s' & Hrun' & _ & _ & _ & Hboot).
  rewrite Hrun in Hrun'. injection Hrun' as <- <-.
  destruct (drawn_arms _ _ _ _ _ _ Hdrawn) as [Hl Hall].
  rewrite length_seq in Hl.
  exists ps, s. split; [assumption|]. split.
  - replace (cnt s) with (map (fun a => pulls_of a ps) (seq 0 K)).
    + rewrite (pulls_total K ps Hall). assumption.
    + apply (list_ext _ _ 0%nat).
      * rewrite length_map, length_seq. congruence.
      * intros a Ha. rewrite length_map, length_seq in Ha.
        rewrite (nth_indep _ 0%nat (pulls_of 0 ps)) by (rewrite length_map, length_seq; lia).
        rewrite (map_nth (fun a => pulls_of a ps)), seq_nth by assumption.
        simpl. symmetry. apply Hstats. assumption.
  - intros HK a Ha. destruct (Hstats a Ha) as [-> _].
    specialize (Hboot HK).
    assert (Hin : In a (map fst (firstn K ps))) by (rewrite Hboot; apply in_seq; lia).
    apply in_map_iff in Hin. destruct Hin as (p & Hp & Hin).
    clear Hboot.
    assert (Hin' : In p ps).
    { rewrite <- (firstn_skipn K ps). apply in_or_app. left. exact Hin. }
    unfold pulls_of, rewards_of. rewrite length_map.
    assert (Hf : In p (filter (fun p => (fst p =? a)%nat) ps)).
    { apply filter_In. split; [assumption|]. apply Nat.eqb_eq. assumption. }
    destruct (filter (fun p => (fst p =? a)%nat) ps); [destruct Hf | simpl; lia].
Qed.


Section RunStats.

Variables T K : nat.
Variables means variances : list R.
Variable best_arm : nat.
Variable normal : sampler.

Hypothesis K_pos : (1 <= K)%nat.
Hypothesis means_length : length means = K.
Hypothesis variances_length : length variances = K.
Hypothesis best_arm_lt : (best_arm < K)%nat.

Lemma known_run_stats :
  run_stats counts emp_means T K means variances normal
    (known_variance_ucb_run T K means variances best_arm normal).
Proof.
  unfold known_variance_ucb_run. rewrite known_round_ucb.
  apply ucb_run_stats; auto. apply known_index_spec. assumption.
Qed.

Lemma standard_run_stats :
  run_stats counts emp_means T K means variances normal
    (standard_ucb_run T K means variances best_arm normal).
Proof.
  unfold standard_ucb_run. rewrite standard_round_ucb.
  apply ucb_run_stats; auto. apply standard_index_spec.
Qed.

End RunStats.

(** X4.  In each of the three policies every round pulls exactly one arm:
    at the end of a run the counts sum to the horizon [T], and when there
    are at most [T] arms every arm has been pulled at least once. *)
Theorem counts_sum_to_horizon (T K : nat) (means variances : list R)
    (best_arm : nat) (normal : sampler) :
  (1 <= K)%nat -> length means = K -> length variances = K -> (best_arm < K)%nat ->
  counts_account counts T K
    (known_variance_ucb_run T K means variances best_arm normal) /\
  counts_account (fun s => counts (base s)) T K
    (unknown_variance_ucb_run T K means variances best_arm normal) /\
  counts_account counts T K
    (standard_ucb_run T K means variances best_arm normal).
Proof.
  intros HK Hm Hv Hb. split; [|split].
  - apply (run_counts_account counts emp_means regret T K means variances best_arm normal).
    + apply known_run_stats; assumption.
    + apply known_run_ok; assumption.
  - apply (run_counts_account (fun s => counts (base s)) (fun s => emp_means (base s))
             (fun s => regret (base s)) T K means variances best_arm normal).
    + apply unknown_run_stats; assumption.
    + apply unknown_run_ok; assumption.
  - apply (run_counts_account counts emp_means regret T K means variances best_arm normal).
    + apply standard_run_stats; assumption.
    + apply standard_run_ok; assumption.
Qed.

Lemma counts_sum_to_horizon_witness :
  counts_account counts 3 2
    (known_variance_ucb_run 3 2 [1/2; 1/4] [1; 2] 0 (fun _ mu _ => mu)) /\
  counts_account (fun s => counts (base s)) 3 2
    (unknown_variance_ucb_run 3 2 [1/2; 1/4] [1; 2] 0 (fun _ mu _ => mu)) /\
  counts_account counts 3 2
    (standard_ucb_run 3 2 [1/2; 1/4] [1; 2] 0 (fun _ mu _ => mu)).
Proof.
  apply counts_sum_to_horizon.
  - lia.
  - reflexivity.
  - reflexivity.
  - lia.
Defined.



(** ** A horizon shorter than the number of arms *)

Lemma driver_short_horizon {St : Type} (cnt : St -> list nat) (reg : St -> list R)
    (ok : St -> Prop) (T K : nat) (means : list R) (best_arm : nat)
    (body : nat -> St -> result (pull * St)) (s0 : St) :
  (forall s, ok s -> length (cnt s) = K /\ length (reg s) = (T + 1)%nat) ->
  round_spec cnt reg ok T K means best_arm body ->
  ok s0 -> cnt s0 = repeat 0%nat K -> (T <= K)%nat ->
  pulled_arms (for_rounds body (seq 1 T) s0) (seq 0 T).
Proof.
  intros Hlen Hbody Hok Hcnt HT.
  destruct (rounds_run St cnt reg ok T K means best_arm body Hlen Hbody T 1%nat s0
              Hok ltac:(lia) ltac:(lia))
    as (ps & s & Hrun & _).
  exists ps, s. split; [assumption|].
  apply (rounds_bootstrap St cnt reg ok T K means best_arm body Hbody
           T 1%nat 0%nat s0 ps s Hok); try lia; try assumption.
  unfold boot. simpl. rewrite Nat.sub_0_r. assumption.
Qed.

Lemma short_run_trace {St : Type} (reg : St -> list R) (T K : nat) (means : list R)
    (best_arm : nat) (run : result (list pull * St)) :
  run_ok reg T K means best_arm run ->
  pulled_arms run (seq 0 T) ->
  ('(_, s) <- run ;; Ok (reg s)) = Ok (cumulative_regret means best_arm (seq 0 T)).
Proof.
  intros (ps & s & Hrun & _ & _ & Hcum & _) (ps' & s' & Hrun' & Harms).
  rewrite Hrun in Hrun'. injection Hrun' as <- <-.
  rewrite Hrun. simpl. rewrite Hcum, Harms. reflexivity.
Qed.

(** X6.  When the horizon is not longer than the number of arms
    ([T <= K]) each of the three policies pulls arms [0, 1, .., T-1] in this
    order and nothing else, so the trace it returns is the cumulative regret
    of these arms: it depends on the true means only, not on the rewards
    drawn nor on the variances. *)
Theorem short_horizon_pulls_in_order (T K : nat) (means variances : list R)
    (best_arm : nat) (normal : sampler) :
  (1 <= K)%nat -> (T <= K)%nat ->
  length means = K -> length variances = K -> (best_arm < K)%nat ->
  (pulled_arms (known_variance_ucb_run T K means variances best_arm normal) (seq 0 T) /\
   known_variance_ucb T K means variances best_arm normal =
     Ok (cumulative_regret means best_arm (seq 0 T))) /\
  (pulled_arms (unknown_variance_ucb_run T K means variances best_arm normal) (seq 0 T) /\
   unknown_variance_ucb T K means variances best_arm normal =
     Ok (cumulative_regret means best_arm (seq 0 T))) /\
  (pulled_arms (standard_ucb_run T K means variances best_arm normal) (seq 0 T) /\
   standard_ucb T K means variances best_arm normal =
     Ok (cumulative_regret means best_arm (seq 0 T))).
Proof.
  intros HK HT Hm Hv Hb.
  assert (Hk : pulled_arms (known_variance_ucb_run T K means variances best_arm normal)
                 (seq 0 T)).
  { unfold known_variance_ucb_run. rewrite known_round_ucb.
    apply (driver_short_horizon counts regret (ok_state T K) T K means best_arm);
      try assumption; try reflexivity.
    - intros s (Hc & _ & Hr). auto.
    - apply ucb_round_spec; auto. apply known_index_spec. assumption.
    - apply ok_init_state. }
  assert (Hu : pulled_arms (unknown_variance_ucb_run T K means variances best_arm normal)
                 (seq 0 T)).
  { unfold unknown_variance_ucb_run.
    apply (driver_short_horizon (fun s => counts (base s)) (fun s => regret (base s))
             (ok_ustate T K) T K means best_arm); try assumption; try reflexivity.
    - intros s ((Hc & _ & Hr) & _). auto.
    - apply unknown_round_spec; auto.
    - apply ok_init_ustate. }
  assert (Hs : pulled_arms (standard_ucb_run T K means variances best_arm normal)
                 (seq 0 T)).
  { unfold standard_ucb_run. rewrite standard_round_ucb.
    apply (driver_short_horizon counts regret (ok_state T K) T K means best_arm);
      try assumption; try reflexivity.
    - intros s (Hc & _ & Hr). auto.
    - apply ucb_round_spec; auto. apply standard_index_spec.
    - apply ok_init_state. }
  split; [|split]; (split; [assumption|]).
  - apply (short_run_trace regret T K means best_arm); [|assumption].
    apply known_run_ok; assumption.
  - apply (short_run_trace (fun s => regret (base s)) T K means best_arm); [|assumption].
    apply unknown_run_ok; assumption.
  - apply (short_run_trace regret T K means best_arm); [|assumption].
    apply standard_run_ok; assumption.
Qed.

Lemma short_horizon_pulls_in_order_witness :
  (pulled_arms (known_variance_ucb_run 2 3 [1/2; 1/4; 3/4] [1; 2; 3] 2 (fun _ mu _ => mu)) (seq 0 2) /\
   known_variance_ucb 2 3 [1/2; 1/4; 3/4] [1; 2; 3] 2 (fun _ mu _ => mu) =
     Ok (cumulative_regret [1/2; 1/4; 3/4] 2 (seq 0 2))) /\
  (pulled_arms (unknown_variance_ucb_run 2 3 [1/2; 1/4; 3/4] [1; 2; 3] 2 (fun _ mu _ => mu)) (seq 0 2) /\
   unknown_variance_ucb 2 3 [1/2; 1/4; 3/4] [1; 2; 3] 2 (fun _ mu _ => mu) =
     Ok (cumulative_regret [1/2; 1/4; 3/4] 2 (seq 0 2))) /\
  (pulled_arms (standard_ucb_run 2 3 [1/2; 1/4; 3/4] [1; 2; 3] 2 (fun _ mu _ => mu)) (seq 0 2) /\
   standard_ucb 2 3 [1/2; 1/4; 3/4] [1; 2; 3] 2 (fun _ mu _ => mu) =
     Ok (cumulative_regret [1/2; 1/4; 3/4] 2 (seq 0 2))).
Proof.
  apply short_horizon_pulls_in_order.
  - lia.
  - lia.
  - reflexivity.
  - reflexivity.
  - lia.
Defined.

(** ** Size of the regret *)


Lemma cumulative_regret_zero (K : nat) (means : list R) (best_arm : nat)
    (pulled : list nat) :
  Forall (fun a => (a < K)%nat) pulled ->
  (forall a, (a < K)%nat -> nth a means 0 = nth best_arm means 0) ->
  cumulative_regret means best_arm pulled = repeat 0 (length pulled + 1).
Proof.
  intros Hall Heq.
  assert (Hz : forall t, (t <= length pulled)%nat ->
            nth t (cumulative_regret means best_arm pulled) 0 = 0).
  { induction t as [|t IH]; intros Ht.
    - unfold cumulative_regret. apply nth_running_0.
    - rewrite (cumulative_regret_step means best_arm pulled (S t)) by lia.
      simpl (S t - 1)%nat. rewrite Nat.sub_0_r, IH by lia.
      assert (Harm : (nth t pulled 0%nat < K)%nat).
      { rewrite Forall_forall in Hall. apply Hall. apply nth_In. lia. }
      unfold gap. rewrite (Heq _ Harm). lra. }
  apply (list_ext _ _ 0).
  - unfold cumulative_regret. rewrite length_running, repeat_length. reflexivity.
  - intros t Ht. unfold cumulative_regret in Ht. rewrite length_running in Ht.
    rewrite Hz by lia. rewrite nth_repeat_lt by lia. reflexivity.
Qed.


Lemma run_ok_zero {St : Type} (reg : St -> list R) (T K : nat) (means : list R)
    (best_arm : nat) (run : result (list pull * St)) :
  (forall a, (a < K)%nat -> nth a means 0 = nth best_arm means 0) ->
  run_ok reg T K means best_arm run ->
  ('(_, s) <- run ;; Ok (reg s)) = Ok (repeat 0 (T + 1)).
Proof.
  intros Heq (ps & s & -> & Hlen & Hall & Hcum & _). simpl.
  rewrite Hcum, (cumulative_regret_zero K means best_arm _ Hall Heq).
  rewrite length_map, Hlen. reflexivity.
Qed.



(** X8.  If all arms have the same true mean, each of the three policies
    returns the all-zero trace, whatever arms it pulls and whatever rewards
    are drawn: the regret is zero at every round, not only on average. *)
Theorem equal_means_zero_regret (T K : nat) (means variances : list R)
    (best_arm : nat) (normal : sampler) :
  (1 <= K)%nat -> length means = K -> length variances = K -> (best_arm < K)%nat ->
  (forall a, (a < K)%nat -> nth a means 0 = nth best_arm means 0) ->
  known_variance_ucb T K means variances best_arm normal = Ok (repeat 0 (T + 1)) /\
  unknown_variance_ucb T K means variances best_arm normal = Ok (repeat 0 (T + 1)) /\
  standard_ucb T K means variances best_arm normal = Ok (repeat 0 (T + 1)).
Proof.
  intros HK Hm Hv Hb Heq. split; [|split].
  - apply (run_ok_zero regret T K means best_arm); [assumption|].
    apply known_run_ok; assumption.
  - apply (run_ok_zero (fun s => regret (base s)) T K means best_arm); [assumption|].
    apply unknown_run_ok; assumption.
  - apply (run_ok_zero regret T K means best_arm); [assumption|].
    apply standard_run_ok; assumption.
Qed.

Lemma equal_means_zero_regret_witness :
  known_variance_ucb 3 2 [1/2; 1/2] [1; 2] 0 (fun _ mu sd => mu + sd) =
    Ok (repeat 0 (3 + 1)) /\
  unknown_variance_ucb 3 2 [1/2; 1/2] [1; 2] 0 (fun _ mu sd => mu + sd) =
    Ok (repeat 0 (3 + 1)) /\
  standard_ucb 3 2 [1/2; 1/2] [1; 2] 0 (fun _ mu sd => mu + sd) =
    Ok (repeat 0 (3 + 1)).
Proof.
  apply equal_means_zero_regret.
  - lia.
  - reflexivity.
  - reflexivity.
  - lia.
  - intros [|[|a]] Ha; simpl; try reflexivity. lia.
Defined.

(** ** The indices compared *)

Lemma ln_INR_nonneg (T : nat) : (1 <= T)%nat -> 0 <= ln (INR T).
Proof.
  intros HT. apply le_INR in HT. simpl (INR 1) in HT.
  destruct (Rle_lt_or_eq_dec 1 (INR T) HT) as [Hlt|<-].
  - rewrite <- ln_1. apply Rlt_le, ln_increasing; lra.
  - rewrite ln_1. lra.
Qed.

Lemma le_div (x y n : R) : 0 < n -> x * n <= y -> x <= y / n.
Proof.
  intros Hn H. apply (Rmult_le_reg_r n); [assumption|].
  replace (y / n * n) with y by (field; lra). assumption.
Qed.

Lemma div_lt (x y n : R) : 0 < n -> y < x * n -> y / n < x.
Proof.
  intros Hn H. apply (Rmult_lt_reg_r n); [assumption|].
  replace (y / n * n) with y by (field; lra). assumption.
Qed.

Lemma sqrt_quarter : sqrt (1 / 4) = 1 / 2.
Proof. apply sqrt_lem_1; lra. Qed.

(** X9.  The correction factor of unknown_variance_ucb lies between its
    floor 1e-6 and 1.  It equals the floor for every count
    [n <= 8 * ln(T)], and is the unclamped [1 - 2*sqrt(2*ln(T)/n)], above
    the floor, once [n * (1 - 1e-6)^2 > 8 * ln(T)]. *)
Theorem correction_clamp_regime (T n : nat) :
  (1 <= T)%nat -> (1 <= n)%nat ->
  epsilon <= correction T n <= 1 /\
  (INR n <= 8 * ln (INR T) -> correction T n = epsilon) /\
  (8 * ln (INR T) < INR n * ((1 - epsilon) * (1 - epsilon)) ->
   correction T n = 1 - 2 * sqrt ((2 * ln (INR T)) / INR n) /\
   epsilon < correction T n).
Proof.
  intros HT Hn.
  assert (HL : 0 <= ln (INR T)) by (apply ln_INR_nonneg; assumption).
  assert (Hn0 : 0 < INR n) by (apply lt_0_INR; lia).
  assert (Heps : 0 < epsilon < 1) by (unfold epsilon; lra).
  pose proof (sqrt_pos ((2 * ln (INR T)) / INR n)) as Hs.
  split; [|split].
  - split; [apply correction_floor|].
    unfold correction. apply Rmax_lub; lra.
  - intros Hsmall. unfold correction. apply Rmax_right.
    assert (Hq : 1 / 4 <= (2 * ln (INR T)) / INR n)
      by (apply le_div; [assumption | lra]).
    apply sqrt_le_1_alt in Hq. rewrite sqrt_quarter in Hq. lra.
  - intros Hlarge.
    assert (Hq : (2 * ln (INR T)) / INR n < ((1 - epsilon) / 2) * ((1 - epsilon) / 2)).
    { apply div_lt; [assumption | lra]. }
    assert (Hsq : sqrt ((2 * ln (INR T)) / INR n) < (1 - epsilon) / 2).
    { rewrite <- (sqrt_square ((1 - epsilon) / 2)) by lra.
      apply sqrt_lt_1_alt. split; [|assumption].
      apply Rmult_le_pos; [lra|]. apply Rlt_le, Rinv_0_lt_compat. assumption. }
    unfold correction. rewrite Rmax_left by lra. split; [reflexivity | lra].
Qed.

Lemma correction_clamp_regime_witness :
  epsilon <= correction 1 1 <= 1 /\
  (INR 1 <= 8 * ln (INR 1) -> correction 1 1 = epsilon) /\
  (8 * ln (INR 1) < INR 1 * ((1 - epsilon) * (1 - epsilon)) ->
   correction 1 1 = 1 - 2 * sqrt ((2 * ln (INR 1)) / INR 1) /\
   epsilon < correction 1 1).
Proof.
  apply correction_clamp_regime.
  - lia.
  - lia.
Defined.

Lemma ln_3_ge_1 : 1 <= ln 3.
Proof.
  destruct (Rle_lt_dec 1 (ln 3)) as [H|H]; [assumption|].
  exfalso. apply exp_increasing in H. rewrite exp_ln in H by lra.
  pose proof exp_le_3. lra.
Qed.

Lemma INR_T : INR T = 1000000.
Proof.
  unfold T. rewrite INR_IZR_INZ, Z2Nat.id by lia. reflexivity.
Qed.

Lemma ln_T_ge_12 : 12 <= ln (INR T).
Proof.
  rewrite INR_T.
  assert (H : ln (3 ^ 12) < ln 1000000).
  { apply ln_increasing; [apply pow_lt; lra|]. simpl. lra. }
  rewrite ln_pow in H by lra.
  pose proof ln_3_ge_1. simpl (INR 12) in H. lra.
Qed.

(** X10.  At the horizon of the script, [T = 1000000], the correction
    factor is the floor 1e-6 for every arm that has been pulled between 1
    and 96 times. *)
Theorem correction_floored_at_script_horizon (n : nat) :
  (1 <= n <= 96)%nat -> correction T n = epsilon.
Proof.
  intros [Hn1 Hn96]. unfold correction. apply Rmax_right.
  assert (Hn0 : 0 < INR n) by (apply lt_0_INR; lia).
  assert (Hn : INR n <= 96).
  { apply le_INR in Hn96.
    assert (H96 : INR 96 = 96) by (rewrite INR_IZR_INZ; reflexivity).
    lra. }
  pose proof ln_T_ge_12 as HL.
  assert (Hq : 1 / 4 <= (2 * ln (INR T)) / INR n)
    by (apply le_div; [assumption | lra]).
  apply sqrt_le_1_alt in Hq. rewrite sqrt_quarter in Hq.
  unfold epsilon. lra.
Qed.

Lemma correction_floored_at_script_horizon_witness : correction T 50 = epsilon.
Proof.
  apply correction_floored_at_script_horizon. lia.
Defined.

(** X11.  For a pulled arm the index of unknown_variance_ucb is at least
    [emp_means[a] + sqrt(emp_vars[a]) * sqrt(4*ln(T) / n)]: dividing by the
    correction factor, which is at most 1, never narrows the exploration
    term. *)
Theorem unknown_index_at_least_uncorrected (T K : nat) (s : ustate) (a : nat) :
  (1 <= T)%nat -> ok_ustate T K s -> (a < K)%nat ->
  (1 <= nth a (counts (base s)) 0%nat)%nat ->
  0 <= nth a (emp_vars s) 0 ->
  exists u,
    unknown_index T s a = Ok (Fin u) /\
    nth a (emp_means (base s)) 0 +
    sqrt (nth a (emp_vars s) 0) *
    sqrt ((4 * ln (INR T)) / INR (nth a (counts (base s)) 0%nat)) <= u.
Proof.
  intros HT ((Hc & Hm & _) & Hv & _) Ha Hn Hev.
  set (n := nth a (counts (base s)) 0%nat) in *.
  eexists. split.
  - unfold unknown_index.
    rewrite (get_Ok (counts (base s)) a 0%nat) by lia. simpl. fold n.
    destruct (Nat.eqb_spec n 0) as [Hz|_]; [lia|].
    rewrite (get_Ok (emp_means (base s)) a 0) by lia. simpl.
    rewrite (get_Ok (emp_vars s) a 0) by lia. simpl. reflexivity.
  - apply Rplus_le_compat_l. apply Rmult_le_compat_l; [apply sqrt_pos|].
    apply sqrt_le_1_alt.
    assert (HL : 0 <= ln (INR T)) by (apply ln_INR_nonneg; assumption).
    assert (Hn0 : 0 < INR n) by (apply lt_0_INR; lia).
    assert (Hc1 : epsilon <= correction T n) by apply correction_floor.
    assert (Hc2 : correction T n <= 1).
    { unfold correction. pose proof (sqrt_pos ((2 * ln (INR T)) / INR n)).
      apply Rmax_lub; unfold epsilon; lra. }
    pose proof epsilon_pos as Heps.
    assert (Hpos : 0 < INR n * correction T n) by (apply Rmult_lt_0_compat; lra).
    apply le_div; [assumption|].
    replace (4 * ln (INR T) / INR n * (INR n * correction T n))
      with (4 * ln (INR T) * correction T n) by (field; lra).
    nra.
Qed.

Lemma unknown_index_at_least_uncorrected_witness :
  let s := {| base := {| counts := [2%nat]; emp_means := [1/2]; regret := [0; 0; 0] |};
              emp_vars := [3]; M2 := [3] |} in
  exists u,
    unknown_index 2 s 0 = Ok (Fin u) /\
    nth 0 (emp_means (base s)) 0 +
    sqrt (nth 0 (emp_vars s) 0) *
    sqrt ((4 * ln (INR 2)) / INR (nth 0 (counts (base s)) 0%nat)) <= u.
Proof.
  apply (unknown_index_at_least_uncorrected 2 1).
  - lia.
  - unfold ok_ustate, ok_state. simpl. auto.
  - lia.
  - simpl. lia.
  - simpl. lra.
Defined.

(** X12.  On every arm the index of known_variance_ucb is at least the
    index of standard_ucb when the arm's true variance is at least 1, and
    at most that index when the variance lies between 0 and 1; for an arm
    never pulled both are infinite. *)
Theorem known_index_versus_standard (T K : nat) (variances : list R)
    (s : state) (a : nat) :
  (1 <= T)%nat -> ok_state T K s -> length variances = K -> (a < K)%nat ->
  exists x y,
    standard_index T s a = Ok x /\ known_index T variances s a = Ok y /\
    (1 <= nth a variances 0 -> ucb_le x y) /\
    (0 <= nth a variances 0 <= 1 -> ucb_le y x).
Proof.
  intros HT (Hc & Hm & _) Hv Ha.
  unfold standard_index, known_index.
  rewrite (get_Ok (counts s) a 0%nat) by lia. simpl.
  destruct (Nat.eqb_spec (nth a (counts s) 0%nat) 0) as [Hz|Hnz].
  - exists Inf, Inf. simpl. auto.
  - rewrite (get_Ok (emp_means s) a 0) by lia. simpl.
    rewrite (get_Ok variances a 0) by lia. simpl.
    eexists _, _. split; [reflexivity|]. split; [reflexivity|].
    assert (HL : 0 <= ln (INR T)) by (apply ln_INR_nonneg; assumption).
    assert (Hn0 : 0 < INR (nth a (counts s) 0%nat)) by (apply lt_0_INR; lia).
    assert (Hinv : 0 < / INR (nth a (counts s) 0%nat)) by (apply Rinv_0_lt_compat; assumption).
    split; intros Hvar; simpl; apply Rplus_le_compat_l, sqrt_le_1_alt;
      unfold Rdiv; apply Rmult_le_compat_r; try lra; nra.
Qed.

Lemma known_index_versus_standard_witness :
  let s := {| counts := [2%nat]; emp_means := [1/2]; regret := [0; 0; 0] |} in
  exists x y,
    standard_index 2 s 0 = Ok x /\ known_index 2 [5] s 0 = Ok y /\
    (1 <= nth 0 [5] 0 -> ucb_le x y) /\
    (0 <= nth 0 [5] 0 <= 1 -> ucb_le y x).
Proof.
  apply (known_index_versus_standard 2 1).
  - lia.
  - unfold ok_state. simpl. auto.
  - reflexivity.
  - lia.
Defined.

(** ** Arguments and instance *)

Lemma variance_levels_range (var : string) :
  In var var_choices ->
  exists vmin vmax,
    dict_get variance_levels var = Ok (vmin, vmax) /\ 1 <= vmin /\ vmin < vmax.
Proof.
  intros [<-|[<-|[<-|[]]]]; simpl; eexists _, _;
    (split; [reflexivity | lra]).
Qed.

(** X13.  The regimes accepted by the argument parser are exactly the keys
    of [variance_levels]: for an accepted regime the lookup succeeds with a
    range [1 <= vmin < vmax], and a regime that the lookup would miss with a
    KeyError is already rejected by the parser. *)
Theorem regimes_match_variance_levels (K : Z) (var : string) :
  (In var var_choices ->
   parse_args K var = Ok (K, var) /\
   exists vmin vmax,
     dict_get variance_levels var = Ok (vmin, vmax) /\ 1 <= vmin < vmax) /\
  (~ In var var_choices ->
   parse_args K var = Raise ArgumentError /\
   dict_get variance_levels var = Raise KeyError).
Proof.
  split.
  - intros Hin. split.
    + unfold parse_args. rewrite (proj2 (var_choices_existsb var) Hin). reflexivity.
    + destruct Hin as [<-|[<-|[<-|[]]]]; simpl; eexists _, _;
        (split; [reflexivity | lra]).
  - intros Hnin. split.
    + unfold parse_args.
      destruct (existsb (String.eqb var) var_choices) eqn:E; [|reflexivity].
      apply var_choices_existsb in E. contradiction.
    + unfold var_choices in Hnin. simpl in Hnin.
      unfold variance_levels, dict_get.
      destruct (String.eqb_spec "low" var) as [E|_]; [tauto|].
      destruct (String.eqb_spec "medium" var) as [E|_]; [tauto|].
      destruct (String.eqb_spec "high" var) as [E|_]; [tauto|].
      reflexivity.
Qed.

Lemma nth_map_seq (f : nat -> R) (k a : nat) :
  (a < k)%nat -> nth a (map f (seq 1 k)) 0 = f (S a).
Proof.
  intros Ha. rewrite (nth_indep _ 0 (f 0%nat)) by (rewrite length_map, length_seq; assumption).
  rewrite map_nth, seq_nth by assumption. reflexivity.
Qed.

(** X14.  With a valid setup the script builds an instance with [K] means
    and [K] variances whose [best_arm] is the first position of a maximal
    mean: no mean is larger, and every mean at an earlier position is
    strictly smaller. *)
Theorem instance_best_arm_first_maximum (w : world) (K : Z) (var : string) :
  valid_setup w K var ->
  exists inst,
    generate_instance w K var = Ok inst /\
    arms inst = Z.to_nat K /\
    length (means inst) = arms inst /\
    length (variances inst) = arms inst /\
    (best_arm inst < arms inst)%nat /\
    (forall a, (a < arms inst)%nat ->
       nth a (means inst) 0 <= nth (best_arm inst) (means inst) 0) /\
    (forall a, (a < best_arm inst)%nat ->
       nth a (means inst) 0 < nth (best_arm inst) (means inst) 0).
Proof.
  intros (HK & Hin & Hmk & Hcsv).
  destruct (variance_levels_defined var Hin) as ([vmin vmax] & Hrange).
  set (k := Z.to_nat K).
  set (ms := map (fun i => uniform w i 0 1) (seq 1 k)).
  assert (Hlen : length ms = k) by (unfold ms; rewrite length_map, length_seq; reflexivity).
  destruct (argmax_spec (map Fin ms)) as (best & Harg & Hlt & Hle & Hfirst).
  { destruct ms; [simpl in Hlen; lia | discriminate]. }
  rewrite length_map in Hlt, Hle.
  eexists. split.
  - unfold generate_instance, parse_args.
    rewrite (proj2 (var_choices_existsb var) Hin). cbn [bind].
    rewrite Hmk. cbn [bind]. rewrite Hrange. cbn [bind].
    fold k. fold ms. rewrite Harg. cbn [bind]. rewrite Hcsv. cbn [bind].
    reflexivity.
  - cbn [arms means variances best_arm].
    split; [reflexivity|]. split; [assumption|].
    split; [rewrite length_map, length_seq; reflexivity|].
    split; [lia|]. split.
    + intros a Ha. specialize (Hle a ltac:(lia)).
      rewrite !nth_map_Fin in Hle by lia. exact Hle.
    + intros a Ha. specialize (Hfirst a Ha).
      rewrite !nth_map_Fin in Hfirst by lia. exact Hfirst.
Qed.

Lemma instance_best_arm_first_maximum_witness :
  let w := {| uniform := fun i low _ => low;
              normal := fun _ mu _ => mu;
              makedirs := fun _ => Ok tt;
              to_csv := fun _ _ _ => Ok tt;
              savefig := fun _ _ _ => Ok tt |} in
  exists inst,
    generate_instance w 2 "low" = Ok inst /\
    arms inst = Z.to_nat 2 /\
    length (means inst) = arms inst /\
    length (variances inst) = arms inst /\
    (best_arm inst < arms inst)%nat /\
    (forall a, (a < arms inst)%nat ->
       nth a (means inst) 0 <= nth (best_arm inst) (means inst) 0) /\
    (forall a, (a < best_arm inst)%nat ->
       nth a (means inst) 0 < nth (best_arm inst) (means inst) 0).
Proof.
  intros w. apply (instance_best_arm_first_maximum w 2 "low").
  unfold valid_setup. split; [lia|]. split; [simpl; auto|]. split; reflexivity.
Defined.

(** X15.  With a valid setup and a generator whose uniform draws lie in
    the range asked for, every mean of the instance lies in [0, 1) and
    every variance in the range of the regime, so every variance is at
    least 1 and the square roots taken of it are of positive numbers. *)
Theorem instance_within_ranges (w : world) (K : Z) (var : string) :
  valid_setup w K var -> uniform_in_range w ->
  exists inst vmin vmax,
    generate_instance w K var = Ok inst /\
    dict_get variance_levels var = Ok (vmin, vmax) /\
    forall a, (a < arms inst)%nat ->
      0 <= nth a (means inst) 0 < 1 /\
      vmin <= nth a (variances inst) 0 < vmax /\
      1 <= nth a (variances inst) 0.
Proof.
  intros (HK & Hin & Hmk & Hcsv) Huni.
  destruct (variance_levels_range var Hin)
    as (vmin & vmax & Hrange & Hv1 & Hv2).
  set (k := Z.to_nat K).
  set (ms := map (fun i => uniform w i 0 1) (seq 1 k)).
  assert (Hlen : length ms = k) by (unfold ms; rewrite length_map, length_seq; reflexivity).
  destruct (argmax_spec (map Fin ms)) as (best & Harg & _).
  { destruct ms; [simpl in Hlen; lia | discriminate]. }
  eexists _, vmin, vmax. split; [|split; [exact Hrange|]].
  - unfold generate_instance, parse_args.
    rewrite (proj2 (var_choices_existsb var) Hin). cbn [bind].
    rewrite Hmk. cbn [bind]. rewrite Hrange. cbn [bind].
    fold k. fold ms. rewrite Harg. cbn [bind]. rewrite Hcsv. cbn [bind].
    reflexivity.
  - cbn [arms means variances]. intros a Ha.
    unfold ms. rewrite !nth_map_seq by assumption.
    pose proof (Huni (S a) 0 1 ltac:(lra)) as Hm.
    pose proof (Huni (k + S a)%nat vmin vmax ltac:(lra)) as Hvar.
    split; [exact Hm|]. split; [exact Hvar | lra].
Qed.

Lemma instance_within_ranges_witness :
  let w := {| uniform := fun i low _ => low;
              normal := fun _ mu _ => mu;
              makedirs := fun _ => Ok tt;
              to_csv := fun _ _ _ => Ok tt;
              savefig := fun _ _ _ => Ok tt |} in
  exists inst vmin vmax,
    generate_instance w 2 "low" = Ok inst /\
    dict_get variance_levels "low" = Ok (vmin, vmax) /\
    forall a, (a < arms inst)%nat ->
      0 <= nth a (means inst) 0 < 1 /\
      vmin <= nth a (variances inst) 0 < vmax /\
      1 <= nth a (variances inst) 0.
Proof.
  intros w. apply (instance_within_ranges w 2 "low").
  - unfold valid_setup. split; [lia|]. split; [simpl; auto|]. split; reflexivity.
  - intros i low high H. simpl. lra.
Defined.

(** ** Aggregated traces *)

Lemma Rsum_repeat (x : R) (n : nat) : Rsum (repeat x n) = INR n * x.
Proof.
  induction n as [|n IH].
  - simpl. unfold Rsum. simpl. lra.
  - rewrite S_INR. change (repeat x (S n)) with (x :: repeat x n).
    unfold Rsum in *. simpl. rewrite IH. lra.
Qed.

Lemma sample_mean_repeat (x : R) (n : nat) :
  (1 <= n)%nat -> sample_mean (repeat x n) = x.
Proof.
  intros Hn. unfold sample_mean. rewrite Rsum_repeat, repeat_length.
  assert (0 < INR n) by (apply lt_0_INR; lia). field. lra.
Qed.

Lemma pop_std_repeat (x : R) (n : nat) : (1 <= n)%nat -> pop_std (repeat x n) = 0.
Proof.
  intros Hn. unfold pop_std. rewrite sample_mean_repeat by assumption.
  rewrite map_repeat, sample_mean_repeat by assumption.
  replace ((x - x) * (x - x)) with 0 by lra. apply sqrt_0.
Qed.

Lemma Rsum_column_le (i j : nat) (rows : list (list R)) :
  Forall (fun row => nth i row 0 <= nth j row 0) rows ->
  Rsum (column i rows) <= Rsum (column j rows).
Proof.
  induction 1 as [|row rows Hrow _ IH]; unfold Rsum in *; simpl; lra.
Qed.

Lemma column_zero (rows : list (list R)) :
  Forall (fun row => nth 0 row 0 = 0) rows ->
  column 0 rows = repeat 0 (length rows).
Proof.
  unfold column. induction 1 as [|row rows Hrow _ IH]; simpl; [reflexivity|].
  rewrite Hrow, IH. reflexivity.
Qed.

Lemma regret_traces_width (T : nat) (rows : list (list R)) :
  Forall (regret_trace T) rows -> rows_of_width (T + 1) rows.
Proof.
  intros H. eapply Forall_impl; [|exact H]. intros row (Hl & _). exact Hl.
Qed.

Lemma mean_axis0_trace (T : nat) (rows : list (list R)) :
  rows <> [] -> Forall (regret_trace T) rows ->
  regret_trace T (mean_axis0 (T + 1) rows).
Proof.
  intros Hne Hall.
  pose proof (regret_traces_width T rows Hall) as Hw.
  destruct (mean_axis0_spec _ _ Hw) as [Hl1 Hn1].
  assert (HN : (1 <= length rows)%nat) by (destruct rows; [congruence | simpl; lia]).
  assert (Hz : column 0 rows = repeat 0 (length rows)).
  { apply column_zero. eapply Forall_impl; [|exact Hall]. intros row (_ & H0 & _). exact H0. }
  split; [assumption | split].
  - rewrite Hn1 by lia. rewrite Hz. apply sample_mean_repeat. assumption.
  - intros t Ht. rewrite !Hn1 by lia. unfold sample_mean.
    rewrite !length_column. apply Rmult_le_compat_r.
    + apply Rlt_le, Rinv_0_lt_compat, lt_0_INR. lia.
    + apply Rsum_column_le. eapply Forall_impl; [|exact Hall].
      intros row (_ & _ & Hmono). apply Hmono. assumption.
Qed.

Lemma std_axis0_trace (T : nat) (rows : list (list R)) :
  rows <> [] -> Forall (regret_trace T) rows ->
  std_trace T (std_axis0 (T + 1) rows).
Proof.
  intros Hne Hall.
  pose proof (regret_traces_width T rows Hall) as Hw.
  destruct (std_axis0_spec _ _ Hw) as [Hl2 Hn2].
  assert (HN : (1 <= length rows)%nat) by (destruct rows; [congruence | simpl; lia]).
  assert (Hz : column 0 rows = repeat 0 (length rows)).
  { apply column_zero. eapply Forall_impl; [|exact Hall]. intros row (_ & H0 & _). exact H0. }
  split; [assumption | split].
  - rewrite Hn2 by lia. rewrite Hz. apply pop_std_repeat. assumption.
  - intros t Ht. rewrite Hn2 by lia. unfold pop_std. apply sqrt_pos.
Qed.

(** X16.  The aggregation of at least one regret trace gives a regret
    trace and a standard-deviation trace: the pointwise mean has [T + 1]
    entries, is zero at round 0 and non-decreasing, and the pointwise
    standard deviation has [T + 1] non-negative entries and is zero at
    round 0. *)
Theorem mean_of_traces_is_trace (T : nat) (rows : list (list R)) :
  rows <> [] -> Forall (regret_trace T) rows ->
  regret_trace T (mean_axis0 (T + 1) rows) /\
  std_trace T (std_axis0 (T + 1) rows).
Proof.
  intros Hne Hall. split.
  - apply mean_axis0_trace; assumption.
  - apply std_axis0_trace; assumption.
Qed.

Lemma mean_of_traces_is_trace_witness :
  regret_trace 1 (mean_axis0 (1 + 1) [[0; 1/4]; [0; 1/2]]) /\
  std_trace 1 (std_axis0 (1 + 1) [[0; 1/4]; [0; 1/2]]).
Proof.
  apply mean_of_traces_is_trace.
  - discriminate.
  - apply Forall_cons; [|apply Forall_cons; [|apply Forall_nil]];
      (split; [reflexivity | split; [reflexivity|]];
       intros t Ht; assert (t = 1%nat) as -> by lia; simpl; lra).
Defined.

(** ** The script from its arguments to the report *)

Lemma run_experiments_traces (w : world) (T : nat) (inst : instance) (trials : list nat) :
  (1 <= arms inst)%nat -> length (means inst) = arms inst ->
  length (variances inst) = arms inst ->
  is_best (arms inst) (means inst) (best_arm inst) ->
  forall pos, exists r,
    run_experiments w T inst pos trials = Ok r /\
    Forall (regret_trace T) (known_regrets r) /\
    Forall (regret_trace T) (unknown_regrets r) /\
    Forall (regret_trace T) (standard_regrets r) /\
    length (known_regrets r) = length trials /\
    length (unknown_regrets r) = length trials /\
    length (standard_regrets r) = length trials.
Proof.
  intros HK Hm Hv Hbest. pose proof Hbest as [Hb _].
  induction trials as [|i trials IH]; intros pos.
  - eexists. simpl. split; [reflexivity|]. simpl.
    repeat split; constructor.
  - cbn [run_experiments].
    destruct (run_ok_trace regret T (arms inst) (means inst) (best_arm inst) _ Hbest
                (known_run_ok T (arms inst) (means inst) (variances inst)
                   (best_arm inst) (fun t => normal w (pos + 0 + t)%nat) HK Hm Hv Hb))
      as (k & Ek & Htk & _).
    destruct (run_ok_trace (fun s => regret (base s)) T (arms inst) (means inst)
                (best_arm inst) _ Hbest
                (unknown_run_ok T (arms inst) (means inst) (variances inst)
                   (best_arm inst) (fun t => normal w (pos + T + t)%nat) HK Hm Hv Hb))
      as (u & Eu & Htu & _).
    destruct (run_ok_trace regret T (arms inst) (means inst) (best_arm inst) _ Hbest
                (standard_run_ok T (arms inst) (means inst) (variances inst)
                   (best_arm inst) (fun t => normal w (pos + 2 * T + t)%nat) HK Hm Hv Hb))
      as (s & Es & Hts & _).
    destruct (IH (pos + 3 * T)%nat) as (r & Er & Hrk & Hru & Hrs & Hnk & Hnu & Hns).
    unfold known_variance_ucb, unknown_variance_ucb, standard_ucb.
    rewrite Ek. cbn [bind]. rewrite Eu. cbn [bind]. rewrite Es. cbn [bind].
    rewrite Er. cbn [bind].
    eexists. split; [reflexivity|].
    cbn [known_regrets unknown_regrets standard_regrets length].
    repeat split; try (constructor; assumption); lia.
Qed.

(** X18.  With a valid setup, a figure that can be saved and at least one
    experiment, the script returns its report: for each of the three
    policies the mean curve is a regret trace ([T + 1] entries, zero at
    round 0, non-decreasing) and the standard-deviation curve has [T + 1]
    non-negative entries and is zero at round 0. *)
Theorem script_report_traces (T N : nat) (w : world) (K : Z) (var : string) :
  valid_setup w K var ->
  (forall k u s, savefig w k u s = Ok tt) ->
  (1 <= N)%nat ->
  exists rep,
    script T N w K var = Ok rep /\
    regret_trace T (known_avg rep) /\ std_trace T (known_std rep) /\
    regret_trace T (unknown_avg rep) /\ std_trace T (unknown_std rep) /\
    regret_trace T (standard_avg rep) /\ std_trace T (standard_std rep).
Proof.
  intros (HK & Hin & Hmk & Hcsv) Hfig HN.
  destruct (generate_instance_ok w K var HK Hin Hmk Hcsv)
    as (inst & Hgen & Harms & Hm & Hv & Hbest).
  destruct (run_experiments_traces w T inst (seq 0 N) ltac:(lia) Hm Hv Hbest
              (2 * arms inst)%nat)
    as (r & Hrun & Hk & Hu & Hs & Hnk & Hnu & Hns).
  rewrite length_seq in Hnk, Hnu, Hns.
  exists (aggregate T r). split.
  - unfold script. rewrite Hgen. cbn [bind]. rewrite Hrun. cbn [bind].
    rewrite Hfig. reflexivity.
  - assert (Hne : forall rows : list (list R), length rows = N -> rows <> [])
      by (intros rows Hl ->; simpl in Hl; lia).
    pose proof (mean_axis0_trace T (known_regrets r) (Hne _ Hnk) Hk) as Hk1.
    pose proof (std_axis0_trace T (known_regrets r) (Hne _ Hnk) Hk) as Hk2.
    pose proof (mean_axis0_trace T (unknown_regrets r) (Hne _ Hnu) Hu) as Hu1.
    pose proof (std_axis0_trace T (unknown_regrets r) (Hne _ Hnu) Hu) as Hu2.
    pose proof (mean_axis0_trace T (standard_regrets r) (Hne _ Hns) Hs) as Hs1.
    pose proof (std_axis0_trace T (standard_regrets r) (Hne _ Hns) Hs) as Hs2.
    unfold aggregate. cbn [known_avg known_std unknown_avg unknown_std
                             standard_avg standard_std].
    auto 10.
Qed.

Lemma script_report_traces_witness :
  let w := {| uniform := fun i low _ => low;
              normal := fun _ mu _ => mu;
              makedirs := fun _ => Ok tt;
              to_csv := fun _ _ _ => Ok tt;
              savefig := fun _ _ _ => Ok tt |} in
  exists rep,
    script 3 2 w 2 "low" = Ok rep /\
    regret_trace 3 (known_avg rep) /\ std_trace 3 (known_std rep) /\
    regret_trace 3 (unknown_avg rep) /\ std_trace 3 (unknown_std rep) /\
    regret_trace 3 (standard_avg rep) /\ std_trace 3 (standard_std rep).
Proof.
  intros w. apply (script_report_traces 3 2 w 2 "low").
  - unfold valid_setup. split; [lia|]. split; [simpl; auto|]. split; reflexivity.
  - reflexivity.
  - lia.
Defined.

(** X19.  With a positive arm count and a known regime, a failing
    file-system call ends the script with that call's exception: a failing
    makedirs or table write before any experiment is run, and a failing
    savefig after all experiments have run, in which case no report is
    returned. *)
Theorem script_file_errors (T N : nat) (w : world) (K : Z) (var : string) (e : exn) :
  (1 <= K)%Z -> In var var_choices ->
  (makedirs w OUTPUT_DIR = Raise e ->
   generate_instance w K var = Raise e /\ script T N w K var = Raise e) /\
  (makedirs w OUTPUT_DIR = Ok tt -> (forall a m v, to_csv w a m v = Raise e) ->
   generate_instance w K var = Raise e /\ script T N w K var = Raise e) /\
  (makedirs w OUTPUT_DIR = Ok tt -> (forall a m v, to_csv w a m v = Ok tt) ->
   (forall k u s, savefig w k u s = Raise e) ->
   (exists inst r,
      generate_instance w K var = Ok inst /\
      run_experiments w T inst (2 * arms inst) (seq 0 N) = Ok r) /\
   script T N w K var = Raise e).
Proof.
  intros HK Hin.
  destruct (variance_levels_defined var Hin) as ([vmin vmax] & Hrange).
  set (k := Z.to_nat K).
  set (ms := map (fun i => uniform w i 0 1) (seq 1 k)).
  assert (Hlen : length ms = k) by (unfold ms; rewrite length_map, length_seq; reflexivity).
  destruct (argmax_spec (map Fin ms)) as (best & Harg & _).
  { destruct ms; [simpl in Hlen; lia | discriminate]. }
  assert (Hscript : forall e', generate_instance w K var = Raise e' ->
            script T N w K var = Raise e').
  { intros e' He. unfold script. rewrite He. reflexivity. }
  split; [|split].
  - intros Hmk.
    assert (Hgen : generate_instance w K var = Raise e).
    { unfold generate_instance, parse_args.
      rewrite (proj2 (var_choices_existsb var) Hin). cbn [bind].
      rewrite Hmk. reflexivity. }
    auto.
  - intros Hmk Hcsv.
    assert (Hgen : generate_instance w K var = Raise e).
    { unfold generate_instance, parse_args.
      rewrite (proj2 (var_choices_existsb var) Hin). cbn [bind].
      rewrite Hmk. cbn [bind]. rewrite Hrange. cbn [bind].
      fold k. fold ms. rewrite Harg. cbn [bind]. rewrite Hcsv. reflexivity. }
    auto.
  - intros Hmk Hcsv Hfig.
    destruct (generate_instance_ok w K var HK Hin Hmk Hcsv)
      as (inst & Hgen & Harms & Hm & Hv & Hbest).
    pose proof Hbest as [Hb _].
    destruct (run_experiments_rows w T inst (seq 0 N) ltac:(lia) Hm Hv Hb
                (2 * arms inst)%nat) as (r & Hrun & _).
    split; [exists inst, r; auto|].
    unfold script. rewrite Hgen. cbn [bind]. rewrite Hrun. cbn [bind].
    rewrite Hfig. reflexivity.
Qed.

Lemma script_file_errors_witness :
  let w := {| uniform := fun i low _ => low;
              normal := fun _ mu _ => mu;
              makedirs := fun _ => Raise OSError;
              to_csv := fun _ _ _ => Ok tt;
              savefig := fun _ _ _ => Ok tt |} in
  (makedirs w OUTPUT_DIR = Raise OSError ->
   generate_instance w 2 "low" = Raise OSError /\ script 3 2 w 2 "low" = Raise OSError) /\
  (makedirs w OUTPUT_DIR = Ok tt -> (forall a m v, to_csv w a m v = Raise OSError) ->
   generate_instance w 2 "low" = Raise OSError /\ script 3 2 w 2 "low" = Raise OSError) /\
  (makedirs w OUTPUT_DIR = Ok tt -> (forall a m v, to_csv w a m v = Ok tt) ->
   (forall k u s, savefig w k u s = Raise OSError) ->
   (exists inst r,
      generate_instance w 2 "low" = Ok inst /\
      run_experiments w 3 inst (2 * arms inst) (seq 0 2) = Ok r) /\
   script 3 2 w 2 "low" = Raise OSError).
Proof.
  intros w. apply (script_file_errors 3 2 w 2 "low" OSError).
  - lia.
  - simpl. auto.
Defined.

(** ** The oracle policy on deterministic rewards *)

Lemma nth_running_firstn (means : list R) (best_arm : nat) (pulled : list nat) :
  forall acc t, (t <= length pulled)%nat ->
  nth t (running means best_arm acc pulled) 0 =
  acc + Rsum (map (gap means best_arm) (firstn t pulled)).
Proof.
  induction pulled as [|a l IH]; intros acc t Ht.
  - simpl in Ht. assert (t = 0%nat) as -> by lia. simpl. unfold Rsum. simpl. lra.
  - destruct t as [|t].
    + simpl. unfold Rsum. simpl. lra.
    + simpl in Ht. simpl. rewrite IH by lia. unfold Rsum. simpl. lra.
Qed.

Lemma firstn_repeat_le {A : Type} (x : A) (m n : nat) :
  (m <= n)%nat -> firstn m (repeat x n) = repeat x m.
Proof.
  revert n. induction m as [|m IH]; intros [|n] H; simpl; try lia; auto.
  rewrite IH by lia. reflexivity.
Qed.

Section ZeroVariance.

Variables T K : nat.
Variables means variances : list R.
Variable best_arm : nat.
Variable normal : sampler.

Hypothesis K_pos : (1 <= K)%nat.
Hypothesis means_length : length means = K.
Hypothesis variances_length : length variances = K.
Hypothesis best_first : is_first_max (map Fin means) best_arm.
Hypothesis variances_zero : forall a, (a < K)%nat -> nth a variances 0 = 0.
Hypothesis normal_exact : forall t mu, normal t mu 0 = mu.

Lemma best_first_lt : (best_arm < K)%nat.
Proof. destruct best_first as (H & _). rewrite length_map in H. lia. Qed.

Lemma zero_variance_round (t : nat) (s : state) :
  exact_means T K means s -> (1 <= t <= T)%nat ->
  exists vals arm s',
    mapM (known_index T variances s) (seq 0 K) = Ok vals /\ length vals = K /\
    (forall a, (a < K)%nat -> known_index T variances s a = Ok (nth a vals Inf)) /\
    is_first_max vals arm /\ (arm < K)%nat /\
    known_round T K means variances best_arm normal t s =
      Ok ((arm, nth arm means 0), s') /\
    exact_means T K means s' /\
    counts s' = incr (counts s) arm.
Proof.
  intros (Hok & Hex) Ht.
  destruct (ucb_round_step T K means variances best_arm normal K_pos means_length
              variances_length best_first_lt (known_index T variances) t s
              (known_index_spec T K variances variances_length) Hok Ht)
    as (vals & arm & Hvals & Hlen & Hnth & Hmax & Harm & _ & Hstep).
  cbv zeta in Hstep.
  rewrite (variances_zero arm Harm), sqrt_0, normal_exact in Hstep.
  pose proof Hok as (Hc & Hm & Hr).
  eexists vals, arm, _.
  split; [assumption|]. split; [assumption|]. split; [assumption|].
  split; [assumption|]. split; [assumption|].
  split; [rewrite known_round_ucb; exact Hstep|].
  split; [|reflexivity].
  split.
  - unfold ok_state, incr, accrue. simpl. rewrite !length_replace. auto.
  - intros a Ha. unfold incr. simpl.
    destruct (Nat.eq_dec arm a) as [<-|Hne].
    + rewrite !nth_replace_eq by lia.
      destruct (Nat.eqb_spec (nth arm (counts s) 0%nat + 1) 0) as [|_]; [lia|].
      rewrite (Hex arm Harm).
      destruct (Nat.eqb_spec (nth arm (counts s) 0%nat) 0) as [->|Hnz].
      * simpl. field.
      * assert (0 < INR (nth arm (counts s) 0%nat + 1)) by (apply lt_0_INR; lia).
        field. lra.
    + rewrite !nth_replace_neq by assumption. apply Hex. assumption.
Qed.

Lemma zero_variance_rounds (n : nat) : forall a s,
  exact_means T K means s -> (1 <= a)%nat -> (a + n <= T + 1)%nat ->
  exists ps s',
    for_rounds (known_round T K means variances best_arm normal) (seq a n) s =
    Ok (ps, s') /\ exact_means T K means s'.
Proof.
  induction n as [|n IH]; intros a s Hex Ha Hn.
  - exists [], s. simpl. auto.
  - destruct (zero_variance_round a s Hex ltac:(lia))
      as (vals & arm & s1 & _ & _ & _ & _ & _ & Hstep & Hex1 & _).
    destruct (IH (S a) s1 Hex1 ltac:(lia) ltac:(lia)) as (ps & s' & Hrun & Hex').
    exists ((arm, nth arm means 0) :: ps), s'. simpl.
    rewrite Hstep. simpl. rewrite Hrun. simpl. auto.
Qed.

Lemma settled_exact (s : state) : settled T K means s -> exact_means T K means s.
Proof.
  intros (Hok & Hs). split; [assumption|]. intros a Ha.
  destruct (Hs a Ha) as (Hc & Hm). rewrite Hm.
  destruct (Nat.eqb_spec (nth a (counts s) 0%nat) 0); [lia | reflexivity].
Qed.

Lemma settled_round (t : nat) (s : state) :
  settled T K means s -> (1 <= t <= T)%nat ->
  exists s',
    known_round T K means variances best_arm normal t s =
      Ok ((best_arm, nth best_arm means 0), s') /\
    settled T K means s'.
Proof.
  intros Hset Ht. pose proof Hset as (Hok & Hs).
  destruct (zero_variance_round t s (settled_exact s Hset) Ht)
    as (vals & arm & s' & _ & Hlen & Hnth & Hmax & Harm & Hstep & (Hok' & Hex') & Hcnt).
  assert (Hvals : vals = map Fin means).
  { apply (list_ext _ _ Inf); [rewrite length_map; congruence|].
    intros a Ha. rewrite Hlen in Ha.
    rewrite nth_map_Fin by lia.
    specialize (Hnth a Ha). destruct (Hs a Ha) as (Hc & Hm).
    pose proof Hok as (Hlc & Hlm & _).
    unfold known_index in Hnth.
    rewrite (get_Ok (counts s) a 0%nat) in Hnth by lia. simpl in Hnth.
    destruct (Nat.eqb_spec (nth a (counts s) 0%nat) 0) as [|_]; [lia|].
    rewrite (get_Ok (emp_means s) a 0) in Hnth by lia. simpl in Hnth.
    rewrite (get_Ok variances a 0) in Hnth by lia. simpl in Hnth.
    injection Hnth as <-. rewrite (variances_zero a Ha), Hm.
    replace (4 * 0 * ln (INR T) / INR (nth a (counts s) 0%nat)) with 0
      by (unfold Rdiv; ring).
    rewrite sqrt_0, Rplus_0_r. reflexivity. }
  rewrite Hvals in Hmax.
  assert (arm = best_arm) as -> by (apply (first_max_unique _ _ _ Hmax best_first)).
  exists s'. split; [assumption|]. split; [assumption|].
  intros a Ha. specialize (Hex' a Ha). rewrite Hcnt in Hex' |- *.
  unfold incr in *. pose proof Hok as (Hlc & _).
  destruct (Nat.eq_dec best_arm a) as [<-|Hne].
  - rewrite nth_replace_eq in Hex' |- * by lia.
    destruct (Nat.eqb_spec (nth best_arm (counts s) 0%nat + 1) 0) as [|_]; [lia|].
    split; [lia | assumption].
  - rewrite nth_replace_neq in Hex' |- * by assumption.
    destruct (Hs a Ha) as (Hc & Hm).
    destruct (Nat.eqb_spec (nth a (counts s) 0%nat) 0) as [|_]; [lia|].
    split; assumption.
Qed.

Lemma settled_rounds (n : nat) : forall a s,
  settled T K means s -> (1 <= a)%nat -> (a + n <= T + 1)%nat ->
  exists ps s',
    for_rounds (known_round T K means variances best_arm normal) (seq a n) s =
    Ok (ps, s') /\ map fst ps = repeat best_arm n.
Proof.
  induction n as [|n IH]; intros a s Hset Ha Hn.
  - exists [], s. simpl. auto.
  - destruct (settled_round a s Hset ltac:(lia)) as (s1 & Hstep & Hset1).
    destruct (IH (S a) s1 Hset1 ltac:(lia) ltac:(lia)) as (ps & s' & Hrun & Harms).
    exists ((best_arm, nth best_arm means 0) :: ps), s'. simpl.
    rewrite Hstep. simpl. rewrite Hrun. simpl. rewrite Harms. auto.
Qed.

Lemma zero_variance_pulls :
  (K <= T)%nat ->
  pulled_arms (known_variance_ucb_run T K means variances best_arm normal)
              (seq 0 K ++ repeat best_arm (T - K)).
Proof.
  intros HKT. unfold known_variance_ucb_run.
  replace (seq 1 T) with (seq 1 K ++ seq (1 + K) (T - K))
    by (rewrite <- seq_app; f_equal; lia).
  rewrite for_rounds_app.
  assert (Hinit : exact_means T K means (init_state T K)).
  { split; [apply ok_init_state|]. intros a Ha. unfold init_state. simpl.
    rewrite !nth_repeat_lt by lia. reflexivity. }
  destruct (zero_variance_rounds K 1%nat (init_state T K) Hinit ltac:(lia) ltac:(lia))
    as (ps1 & s1 & Hrun1 & (Hok1 & Hex1)).
  destruct (rounds_bootstrap state counts regret (ok_state T K) T K means best_arm
              (known_round T K means variances best_arm normal)
              ltac:(rewrite known_round_ucb; apply ucb_round_spec;
                    auto using best_first_lt, known_index_spec)
              K 1%nat 0%nat (init_state T K) ps1 s1 (ok_init_state T K)
              ltac:(lia) ltac:(lia) ltac:(lia)
              ltac:(unfold boot, init_state; simpl; rewrite Nat.sub_0_r; reflexivity)
              Hrun1)
    as (Harms1 & Hcnt1).
  assert (Hset : settled T K means s1).
  { split; [assumption|]. intros a Ha. specialize (Hex1 a Ha).
    rewrite Hcnt1 in Hex1 |- *. simpl (0 + K)%nat in *.
    rewrite nth_boot in Hex1 |- *.
    destruct (Nat.ltb_spec a K); [|lia]. simpl in Hex1. split; [lia | assumption]. }
  destruct (settled_rounds (T - K) (1 + K)%nat s1 Hset ltac:(lia) ltac:(lia))
    as (ps2 & s2 & Hrun2 & Harms2).
  rewrite Hrun1. cbn [bind]. rewrite Hrun2. cbn [bind].
  exists (ps1 ++ ps2), s2. split; [reflexivity|].
  rewrite map_app, Harms1, Harms2. reflexivity.
Qed.

End ZeroVariance.

(** X20.  known_variance_ucb on an instance whose true variances are all
    0, with a sampler that returns the mean when the scale is 0 and with
    [best_arm] the first maximal mean: after pulling arms [0 .. K-1] once
    each, the policy pulls [best_arm] in every remaining round, so from
    round [K] on the regret stays at the sum of the gaps of the [K] arms. *)
Theorem zero_variance_commits_to_best (T K : nat) (means variances : list R)
    (best_arm : nat) (normal : sampler) :
  (1 <= K)%nat -> (K <= T)%nat ->
  length means = K -> length variances = K ->
  is_first_max (map Fin means) best_arm ->
  (forall a, (a < K)%nat -> nth a variances 0 = 0) ->
  (forall t mu, normal t mu 0 = mu) ->
  pulled_arms (known_variance_ucb_run T K means variances best_arm normal)
              (seq 0 K ++ repeat best_arm (T - K)) /\
  exists tr,
    known_variance_ucb T K means variances best_arm normal = Ok tr /\
    forall t, (K <= t <= T)%nat ->
      nth t tr 0 = Rsum (map (gap means best_arm) (seq 0 K)).
Proof.
  intros HK HKT Hm Hv Hbest Hzero Hexact.
  pose proof (zero_variance_pulls T K means variances best_arm normal
                HK Hm Hv Hbest Hzero Hexact HKT) as Hpulls.
  split; [assumption|].
  assert (Hb : (best_arm < K)%nat)
    by (destruct Hbest as (H & _); rewrite length_map in H; lia).
  destruct (known_run_ok T K means variances best_arm normal HK Hm Hv Hb)
    as (ps & s & Hrun & Hlen & _ & Hcum & _).
  destruct Hpulls as (ps' & s' & Hrun' & Harms).
  rewrite Hrun in Hrun'. injection Hrun' as <- <-.
  exists (regret s). split.
  - unfold known_variance_ucb. rewrite Hrun. reflexivity.
  - intros t Ht. rewrite Hcum, Harms. unfold cumulative_regret.
    rewrite nth_running_firstn
      by (rewrite length_app, length_seq, repeat_length; lia).
    rewrite firstn_app, length_seq.
    rewrite firstn_all2 by (rewrite length_seq; lia).
    rewrite firstn_repeat_le by lia.
    rewrite map_app, Rsum_app, map_repeat, Rsum_repeat.
    unfold gap at 2. lra.
Qed.

Lemma zero_variance_commits_to_best_witness :
  pulled_arms (known_variance_ucb_run 4 2 [1/4; 1/2] [0; 0] 1 (fun _ mu sd => mu + sd))
              (seq 0 2 ++ repeat 1%nat (4 - 2)) /\
  exists tr,
    known_variance_ucb 4 2 [1/4; 1/2] [0; 0] 1 (fun _ mu sd => mu + sd) = Ok tr /\
    forall t, (2 <= t <= 4)%nat ->
      nth t tr 0 = Rsum (map (gap [1/4; 1/2] 1) (seq 0 2)).
Proof.
  apply zero_variance_commits_to_best.
  - lia.
  - lia.
  - reflexivity.
  - reflexivity.
  - split; [simpl; lia|]. split.
    + intros [|[|j]] Hj; simpl in *; try lra; lia.
    + intros [|j] Hj; simpl; try lra; lia.
  - intros [|[|a]] Ha; simpl; try reflexivity; lia.
  - intros t mu. lra.
Defined.

(** ** The draws the experiments read *)

Lemma for_rounds_ext_in {St : Type} (body1 body2 : nat -> St -> result (pull * St))
    (ts : list nat) :
  (forall t, In t ts -> forall s, body1 t s = body2 t s) ->
  forall s, for_rounds body1 ts s = for_rounds body2 ts s.
Proof.
  induction ts as [|t ts IH]; intros H s; simpl; [reflexivity|].
  rewrite (H t) by (left; reflexivity).
  destruct (body2 t s) as [[p s1]|e]; simpl; [|reflexivity].
  rewrite IH by (intros t' Hin; apply H; right; assumption). reflexivity.
Qed.

Section SamplerWindow.

Variables T K : nat.
Variables means variances : list R.
Variable best_arm : nat.
Variables normal1 normal2 : sampler.

Hypothesis same_draws : forall t, (1 <= t <= T)%nat -> normal1 t = normal2 t.

Lemma known_sampler_ext :
  known_variance_ucb T K means variances best_arm normal1 =
  known_variance_ucb T K means variances best_arm normal2.
Proof.
  unfold known_variance_ucb, known_variance_ucb_run.
  rewrite (for_rounds_ext_in (known_round T K means variances best_arm normal1)
             (known_round T K means variances best_arm normal2)); [reflexivity|].
  intros t Hin s. apply in_seq in Hin.
  unfold known_round. rewrite (same_draws t) by lia. reflexivity.
Qed.

Lemma unknown_sampler_ext :
  unknown_variance_ucb T K means variances best_arm normal1 =
  unknown_variance_ucb T K means variances best_arm normal2.
Proof.
  unfold unknown_variance_ucb, unknown_variance_ucb_run.
  rewrite (for_rounds_ext_in (unknown_round T K means variances best_arm normal1)
             (unknown_round T K means variances best_arm normal2)); [reflexivity|].
  intros t Hin s. apply in_seq in Hin.
  unfold unknown_round. rewrite (same_draws t) by lia. reflexivity.
Qed.

Lemma standard_sampler_ext :
  standard_ucb T K means variances best_arm normal1 =
  standard_ucb T K means variances best_arm normal2.
Proof.
  unfold standard_ucb, standard_ucb_run.
  rewrite (for_rounds_ext_in (standard_round T K means variances best_arm normal1)
             (standard_round T K means variances best_arm normal2)); [reflexivity|].
  intros t Hin s. apply in_seq in Hin.
  unfold standard_round. rewrite (same_draws t) by lia. reflexivity.
Qed.

End SamplerWindow.

Lemma run_experiments_window (w1 w2 : world) (T : nat) (inst : instance)
    (trials : list nat) : forall pos,
  (forall p, (pos < p <= pos + 3 * length trials * T)%nat ->
             normal w1 p = normal w2 p) ->
  run_experiments w1 T inst pos trials = run_experiments w2 T inst pos trials.
Proof.
  induction trials as [|i trials IH]; intros pos Hsame; [reflexivity|].
  cbn [run_experiments]. cbn [length] in Hsame.
  rewrite (known_sampler_ext T (arms inst) (means inst) (variances inst) (best_arm inst)
             (fun t => normal w1 (pos + 0 + t)%nat) (fun t => normal w2 (pos + 0 + t)%nat))
    by (intros t Ht; apply Hsame; nia).
  rewrite (unknown_sampler_ext T (arms inst) (means inst) (variances inst) (best_arm inst)
             (fun t => normal w1 (pos + T + t)%nat) (fun t => normal w2 (pos + T + t)%nat))
    by (intros t Ht; apply Hsame; nia).
  rewrite (standard_sampler_ext T (arms inst) (means inst) (variances inst) (best_arm inst)
             (fun t => normal w1 (pos + 2 * T + t)%nat)
             (fun t => normal w2 (pos + 2 * T + t)%nat))
    by (intros t Ht; apply Hsame; nia).
  rewrite (IH (pos + 3 * T)%nat) by (intros p Hp; apply Hsame; nia).
  reflexivity.
Qed.

(** X21.  Each policy reads the sampler at rounds [1 .. T] only, and the
    [N] experiments read the normal generator only at the [3 * N * T]
    positions that follow the [2 * K] uniform draws of the instance: two
    generators that agree on these positions give the same regret rows for
    the same instance. *)
Theorem experiments_read_their_window (w1 w2 : world) (T N : nat) (inst : instance) :
  (forall p, (2 * arms inst < p <= 2 * arms inst + 3 * N * T)%nat ->
             normal w1 p = normal w2 p) ->
  run_experiments w1 T inst (2 * arms inst) (seq 0 N) =
  run_experiments w2 T inst (2 * arms inst) (seq 0 N).
Proof.
  intros Hsame. apply run_experiments_window.
  rewrite length_seq. exact Hsame.
Qed.

Lemma experiments_read_their_window_witness :
  let w1 := {| uniform := fun i low _ => low;
               normal := fun p mu sd => if (p <=? 10)%nat then mu else mu + sd;
               makedirs := fun _ => Ok tt;
               to_csv := fun _ _ _ => Ok tt;
               savefig := fun _ _ _ => Ok tt |} in
  let w2 := {| uniform := fun i low _ => low;
               normal := fun p mu sd => if (p <=? 10)%nat then mu else mu - sd;
               makedirs := fun _ => Ok tt;
               to_csv := fun _ _ _ => Ok tt;
               savefig := fun _ _ _ => Ok tt |} in
  let inst := {| arms := 2; means := [1/2; 1/4]; variances := [1; 2]; best_arm := 0 |} in
  run_experiments w1 2 inst (2 * arms inst) (seq 0 1) =
  run_experiments w2 2 inst (2 * arms inst) (seq 0 1).
Proof.
  intros w1 w2 inst. apply experiments_read_their_window.
  intros p Hp. simpl in Hp. simpl.
  destruct (Nat.leb_spec p 10); [reflexivity | lia].
Defined.

(** ** The shaded band of the plot *)

(** X22.  For a mean curve that is a regret trace and a standard-deviation
    curve over the same rounds, the borders [avg - std] and [avg + std] of the
    shaded band are computed without a shape error, have the [T + 1]
    entries of the abscissa, enclose the mean curve at every round and
    meet it at round 0. *)
Theorem band_encloses_mean (T : nat) (avg std : list R) :
  regret_trace T avg -> std_trace T std ->
  exists low high,
    fill_between_band T avg std = Ok (arange (T + 1), low, high) /\
    length (arange (T + 1)) = (T + 1)%nat /\
    length low = (T + 1)%nat /\ length high = (T + 1)%nat /\
    nth 0 low 0 = 0 /\ nth 0 high 0 = 0 /\
    forall t, (t <= T)%nat -> nth t low 0 <= nth t avg 0 <= nth t high 0.
Proof.
  intros (Hla & Ha0 & _) (Hls & Hs0 & Hpos).
  exists (zip_with Rminus avg std), (zip_with Rplus avg std).
  assert (Heq : length avg = length std) by congruence.
  split.
  - unfold fill_between_band, np_binop.
    rewrite (proj2 (Nat.eqb_eq _ _) Heq). reflexivity.
  - split; [apply length_seq|].
    split; [rewrite length_zip_with; assumption|].
    split; [rewrite length_zip_with; assumption|].
    split; [rewrite nth_zip_with by lia; lra|].
    split; [rewrite nth_zip_with by lia; lra|].
    intros t Ht. rewrite !nth_zip_with by lia.
    specialize (Hpos t Ht). lra.
Qed.

Lemma band_encloses_mean_witness :
  exists low high,
    fill_between_band 1 [0; 1/2] [0; 1/4] = Ok (arange (1 + 1), low, high) /\
    length (arange (1 + 1)) = (1 + 1)%nat /\
    length low = (1 + 1)%nat /\ length high = (1 + 1)%nat /\
    nth 0 low 0 = 0 /\ nth 0 high 0 = 0 /\
    forall t, (t <= 1)%nat -> nth t low 0 <= nth t [0; 1/2] 0 <= nth t high 0.
Proof.
  apply band_encloses_mean.
  - split; [reflexivity | split; [reflexivity|]].
    intros t Ht. assert (t = 1%nat) as -> by lia. simpl. lra.
  - split; [reflexivity | split; [reflexivity|]].
    intros [|[|t]] Ht; simpl; try lra. lia.
Defined.

Lemma regimes_match_variance_levels_witness :
  parse_args 3 "low" = Ok (3%Z, "low"%string) /\
  exists vmin vmax,
    dict_get variance_levels "low" = Ok (vmin, vmax) /\ 1 <= vmin < vmax.
Proof.
  apply (proj1 (regimes_match_variance_levels 3 "low")). simpl. auto.
Defined.

(** ** The index the unknown-variance round uses *)

Section UnknownSelect.

Variables T K : nat.
Variables means variances : list R.
Variable best_arm : nat.
Variable normal : sampler.

Hypothesis K_pos : (1 <= K)%nat.
Hypothesis means_length : length means = K.
Hypothesis variances_length : length variances = K.
Hypothesis best_arm_lt : (best_arm < K)%nat.

(** One round: the index values it computes, the arm it pulls among them
    and the state it leaves. *)
Lemma unknown_round_select (t : nat) (s : ustate) :
  ok_ustate T K s -> (1 <= t <= T)%nat ->
  exists vals arm,
    mapM (unknown_index T s) (seq 0 K) = Ok vals /\ length vals = K /\
    (forall a, (a < K)%nat -> unknown_index T s a = Ok (nth a vals Inf)) /\
    is_first_max vals arm /\ (arm < K)%nat /\
    unknown_round T K means variances best_arm normal t s =
    Ok ((arm, normal t (nth arm means 0) (sqrt (nth arm variances 0))),
        welford_update means best_arm t arm
          (normal t (nth arm means 0) (sqrt (nth arm variances 0))) s).
Proof.
  intros Hok Ht.
  pose proof Hok as ((Hc & Hm & Hr) & Hv & HM).
  destruct (select_spec (fun s => counts (base s)) (ok_ustate T K) K
              (unknown_index T) s K_pos Hc Hok (unknown_index_spec T K))
    as (vals & arm & Hvals & Harg & Hlen & Hnth & Hmax & Harm & _).
  exists vals, arm.
  split; [assumption|]. split; [assumption|]. split; [assumption|].
  split; [assumption|]. split; [assumption|].
  unfold unknown_round. rewrite Hvals. simpl. rewrite Harg. simpl.
  rewrite (get_Ok means arm 0) by lia. simpl.
  rewrite (get_Ok variances arm 0) by lia. simpl.
  rewrite (get_Ok (counts (base s)) arm 0%nat) by lia. simpl.
  rewrite set_Ok by lia. simpl.
  rewrite (get_Ok _ arm 0%nat) by (rewrite length_replace; lia). simpl.
  rewrite (get_Ok (emp_means (base s)) arm 0) by lia. simpl.
  rewrite set_Ok by lia. simpl.
  rewrite (get_Ok (M2 s) arm 0) by lia. simpl.
  rewrite (get_Ok _ arm 0) by (rewrite length_replace; lia). simpl.
  rewrite set_Ok by lia. simpl.
  rewrite !nth_replace_eq by lia.
  unfold welford_update.
  destruct (1 <? nth arm (counts (base s)) 0%nat + 1)%nat eqn:E; simpl.
  - rewrite (get_Ok _ arm 0) by (rewrite length_replace; lia). simpl.
    rewrite set_Ok by lia. simpl.
    rewrite (get_Ok (regret (base s)) (t - 1) 0) by lia. simpl.
    rewrite (get_Ok means best_arm 0) by lia. simpl.
    rewrite set_Ok by lia. simpl.
    rewrite !nth_replace_eq by lia. reflexivity.
  - rewrite (get_Ok (regret (base s)) (t - 1) 0) by lia. simpl.
    rewrite (get_Ok means best_arm 0) by lia. simpl.
    rewrite set_Ok by lia. simpl. reflexivity.
Qed.

End UnknownSelect.

(** The index of an arm of a well-shaped state, by its count. *)
Lemma unknown_index_value (T K : nat) (s : ustate) (a : nat) (v : ucb) :
  ok_ustate T K s -> (a < K)%nat -> unknown_index T s a = Ok v ->
  (nth a (counts (base s)) 0%nat = 0%nat -> v = Inf) /\
  ((1 <= nth a (counts (base s)) 0%nat)%nat ->
   v = Fin (nth a (emp_means (base s)) 0 +
            sqrt (nth a (emp_vars s) 0) *
            sqrt (4 * ln (INR T) /
                  (INR (nth a (counts (base s)) 0%nat) *
                   Rmax (1 - 2 * sqrt (2 * ln (INR T) /
                                       INR (nth a (counts (base s)) 0%nat)))
                        1e-6)))).
Proof.
  intros ((Hc & Hm & _) & Hv & _) Ha Hidx.
  unfold unknown_index in Hidx.
  rewrite (get_Ok (counts (base s)) a 0%nat) in Hidx by lia. simpl in Hidx.
  destruct (Nat.eqb_spec (nth a (counts (base s)) 0%nat) 0) as [Hz|Hnz].
  - injection Hidx as <-. split; [reflexivity | lia].
  - rewrite (get_Ok (emp_means (base s)) a 0) in Hidx by lia. simpl in Hidx.
    rewrite (get_Ok (emp_vars s) a 0) in Hidx by lia. simpl in Hidx.
    injection Hidx as <-. split; [contradiction | reflexivity].
Qed.

(** C3.  In unknown_variance_ucb, in every round, the index values the
    round computes and selects its arm from are: positive infinity for an
    arm never pulled, and for every arm [a] with pull count [n >= 1]
    [emp_means[a] + sqrt(emp_vars[a]) * sqrt(4*ln(T) / (n * c))] with
    [c = max(1 - 2*sqrt(2*ln(T)/n), 1e-6)].  In every case
    [c >= 1e-6 > 0], the denominator [n * c] is strictly positive, and when
    [1 - 2*sqrt(2*ln(T)/n)] is at or below the floor [c] is the floor 1e-6.
    The round pulls the first maximum of these values and completes with
    that arm's count incremented: the degenerate correction is never an
    error, in no round of a run. *)
Theorem unknown_index_clamped (T K : nat) (means variances : list R)
    (best_arm : nat) (normal : sampler) :
  (1 <= K)%nat -> length means = K -> length variances = K ->
  (best_arm < K)%nat ->
  (forall t s, ok_ustate T K s -> (1 <= t <= T)%nat ->
     exists vals arm r s',
       mapM (unknown_index T s) (seq 0 K) = Ok vals /\ length vals = K /\
       (forall a, (a < K)%nat ->
          let n := nth a (counts (base s)) 0%nat in
          let c := Rmax (1 - 2 * sqrt (2 * ln (INR T) / INR n)) 1e-6 in
          (n = 0%nat -> nth a vals Inf = Inf) /\
          ((1 <= n)%nat ->
           nth a vals Inf =
             Fin (nth a (emp_means (base s)) 0 +
                  sqrt (nth a (emp_vars s) 0) *
                  sqrt (4 * ln (INR T) / (INR n * c))) /\
           1e-6 <= c /\ 0 < 1e-6 /\ 0 < INR n * c /\
           (1 - 2 * sqrt (2 * ln (INR T) / INR n) <= 1e-6 -> c = 1e-6))) /\
       is_first_max vals arm /\
       unknown_round T K means variances best_arm normal t s = Ok ((arm, r), s') /\
       counts (base s') = incr (counts (base s)) arm /\
       ok_ustate T K s') /\
  (forall n, (n <= T)%nat ->
     exists ps s,
       for_rounds (unknown_round T K means variances best_arm normal)
                  (seq 1 n) (init_ustate T K) = Ok (ps, s) /\
       ok_ustate T K s).
Proof.
  intros HK Hm Hv Hb. split.
  - intros t s Hok Ht.
    destruct (unknown_round_select T K means variances best_arm normal
                HK Hm Hv Hb t s Hok Ht)
      as (vals & arm & Hvals & Hlen & Hnth & Hmax & Harm & Hstep).
    eexists vals, arm, _, _.
    split; [assumption|]. split; [assumption|]. split; [|split; [assumption|]].
    + intros a Ha n c.
      destruct (unknown_index_value T K s a _ Hok Ha (Hnth a Ha)) as [Hzero Hpulled].
      split; [exact Hzero|]. intros Hn.
      assert (Hfloor : 1e-6 <= c) by apply Rmax_r.
      split; [exact (Hpulled Hn)|]. split; [assumption|].
      split; [lra|]. split.
      * apply Rmult_lt_0_compat; [apply lt_0_INR; lia | lra].
      * intros Hdeg. apply Rmax_right. assumption.
    + split; [exact Hstep|]. split; [reflexivity|].
      apply (ok_welford_update T K). assumption.
  - intros n Hn.
    destruct (unknown_prefix_stats T K means variances best_arm normal
                HK Hm Hv Hb n Hn) as (ps & s & Hrun & Hok & _).
    exists ps, s. auto.
Qed.

(** At horizon 3 an arm pulled once is in the degenerate regime: the
    unclamped factor [1 - 2*sqrt(2*ln 3)] is negative. *)
Lemma degenerate_at_horizon_3 : 1 - 2 * sqrt (2 * ln (INR 3) / INR 1) <= 1e-6.
Proof.
  assert (H3 : INR 3 = 3) by (simpl; lra). rewrite H3. simpl (INR 1).
  pose proof ln_3_ge_1 as Hln.
  assert (Hq : 1 / 4 <= 2 * ln 3 / 1) by lra.
  apply sqrt_le_1_alt in Hq. rewrite sqrt_quarter in Hq. lra.
Qed.

Lemma unknown_index_clamped_witness :
  ((forall t s, ok_ustate 3 2 s -> (1 <= t <= 3)%nat ->
     exists vals arm r s',
       mapM (unknown_index 3 s) (seq 0 2) = Ok vals /\ length vals = 2%nat /\
       (forall a, (a < 2)%nat ->
          let n := nth a (counts (base s)) 0%nat in
          let c := Rmax (1 - 2 * sqrt (2 * ln (INR 3) / INR n)) 1e-6 in
          (n = 0%nat -> nth a vals Inf = Inf) /\
          ((1 <= n)%nat ->
           nth a vals Inf =
             Fin (nth a (emp_means (base s)) 0 +
                  sqrt (nth a (emp_vars s) 0) *
                  sqrt (4 * ln (INR 3) / (INR n * c))) /\
           1e-6 <= c /\ 0 < 1e-6 /\ 0 < INR n * c /\
           (1 - 2 * sqrt (2 * ln (INR 3) / INR n) <= 1e-6 -> c = 1e-6))) /\
       is_first_max vals arm /\
       unknown_round 3 2 [1/2; 1/4] [1; 2] 0 (fun _ mu _ => mu) t s =
         Ok ((arm, r), s') /\
       counts (base s') = incr (counts (base s)) arm /\
       ok_ustate 3 2 s') /\
   (forall n, (n <= 3)%nat ->
     exists ps s,
       for_rounds (unknown_round 3 2 [1/2; 1/4] [1; 2] 0 (fun _ mu _ => mu))
                  (seq 1 n) (init_ustate 3 2) = Ok (ps, s) /\
       ok_ustate 3 2 s)) /\
  1 - 2 * sqrt (2 * ln (INR 3) / INR 1) <= 1e-6.
Proof.
  split.
  - apply (unknown_index_clamped 3 2 [1/2; 1/4] [1; 2] 0 (fun _ mu _ => mu)).
    + lia.
    + reflexivity.
    + reflexivity.
    + lia.
  - exact degenerate_at_horizon_3.
Defined.
